(** * gdocstr: the Google-style docstring parser and the query resolver

    A shallow embedding of [gdocstr/parse.py] (class [GoogleDocString], the
    factory [parser]) and of [gdocstr/docstring.py] ([get_names]), followed by
    the properties of the segmentation and field-parsing algorithms.

    Modelling conventions.
    - A Python [str] is a list of characters.  Characters are the code points
      below 256, carried by [ascii]; the character classes [\s], [\w] and
      [str.isupper] are those of Python 3 on that range.
    - The three regular expressions of [GoogleDocString] are kept as regular
      expressions and run by a backtracking matcher with the priorities of
      Python's [re] (greedy repetition, ordered alternation, leftmost start).
    - Instance attributes live in the record [GoogleDocString]; methods that
      assign to [self] take the record and return the updated one.
    - The parser is the one built from the default configuration
      ([config=None]), which is also what the factory [parser] builds. *)

From Stdlib Require Import String Ascii List Arith Bool Lia.
Import ListNotations.

Set Implicit Arguments.

(* ================================================================= *)
(** ** Python strings *)

Module PyStr.

Definition str := list ascii.

(** String literals. *)
Definition py (s : string) : str := list_ascii_of_string s.
Arguments py s%_string.

Definition nl : ascii := ascii_of_nat 10.

Definition in_range (lo hi : nat) (c : ascii) : bool :=
  (lo <=? nat_of_ascii c) && (nat_of_ascii c <=? hi).

(** [str.isspace] on one character, which is also the class [\s]. *)
Definition isspace (c : ascii) : bool :=
  in_range 9 13 c || in_range 28 32 c || in_range 133 133 c
  || in_range 160 160 c.

(** [str.isalnum] on one character. *)
Definition isalnum (c : ascii) : bool :=
  in_range 48 57 c || in_range 65 90 c || in_range 97 122 c
  || in_range 170 170 c || in_range 178 179 c || in_range 181 181 c
  || in_range 185 186 c || in_range 188 190 c || in_range 192 214 c
  || in_range 216 246 c || in_range 248 255 c.

(** The class [\w]: alphanumeric or underscore. *)
Definition isword (c : ascii) : bool := isalnum c || in_range 95 95 c.

(** [str.isupper] on one character. *)
Definition isupper (c : ascii) : bool :=
  in_range 65 90 c || in_range 192 214 c || in_range 216 222 c.

(** Truth value of a string: [bool(s)]. *)
Definition truthy (s : str) : bool :=
  match s with [] => false | _ :: _ => true end.

(** [s.split(sep)] for a one-character separator: never the empty list. *)
Fixpoint split (sep : ascii) (s : str) : list str :=
  match s with
  | [] => [[]]
  | c :: s' =>
      if Ascii.eqb c sep then [] :: split sep s'
      else match split sep s' with
           | l :: ls => (c :: l) :: ls
           | [] => [[c]]
           end
  end.

(** [sep.join(ls)]. *)
Fixpoint join (sep : str) (ls : list str) : str :=
  match ls with
  | [] => []
  | [l] => l
  | l :: ls' => l ++ sep ++ join sep ls'
  end.

Fixpoint lstrip (s : str) : str :=
  match s with
  | c :: s' => if isspace c then lstrip s' else s
  | [] => []
  end.

(** [s.strip()]. *)
Definition strip (s : str) : str := rev (lstrip (rev (lstrip s))).

(** [s[n:]] and [ls[i]] with a default for the indices the code never
    reaches. *)
Definition slice_from (n : nat) (s : str) : str := skipn n s.
Definition item (ls : list str) (i : nat) : str := nth i ls [].

End PyStr.
Import PyStr.

(* ================================================================= *)
(** ** Regular expressions with the matching order of Python's [re] *)

Module Re.

(** One-character matchers. *)
Inductive atom : Type :=
| ALit (c : ascii)     (* a literal character *)
| ADot                 (* [.] : anything but a newline *)
| ASpace               (* [\s] *)
| AWord.               (* [\w] *)

Definition atom_ok (a : atom) (c : ascii) : bool :=
  match a with
  | ALit d => Ascii.eqb c d
  | ADot => negb (Ascii.eqb c nl)
  | ASpace => isspace c
  | AWord => isword c
  end.

Inductive regex : Type :=
| Atom (a : atom)
| Bol                          (* [^] without MULTILINE *)
| Eps
| Seq (r1 r2 : regex)
| Alt (r1 r2 : regex)          (* [r1|r2], left first *)
| Star (a : atom)              (* [a*], greedy *)
| AtLeast (n : nat) (a : atom) (* [a{n,}], greedy *)
| Opt (r : regex)              (* [r?], greedy *)
| Grp (i : nat) (r : regex).   (* capturing group number i *)

(** The literal string [s] as a regex. *)
Fixpoint lit (s : str) : regex :=
  match s with
  | [] => Eps
  | c :: s' => Seq (Atom (ALit c)) (lit s')
  end.

(** [k|k1|k2|...] over literal keywords. *)
Fixpoint alts (k : str) (ks : list str) : regex :=
  match ks with
  | [] => lit k
  | k' :: ks' => Alt (lit k) (alts k' ks')
  end.

(** Captures: the most recent binding of a group comes first. *)
Definition caps := list (nat * str).

Fixpoint group (cs : caps) (i : nat) : option str :=
  match cs with
  | [] => None
  | (j, v) :: cs' => if Nat.eqb i j then Some v else group cs' i
  end.

(** A group that did not take part in the match reads as the empty string,
    as in the items of [findall]. *)
Definition group_str (cs : caps) (i : nat) : str :=
  match group cs i with Some v => v | None => [] end.

(** The text consumed between the input [s] and its suffix [s']. *)
Definition consumed (s s' : str) : str :=
  firstn (length s - length s') s.

(** [a*]: the longest run first, then shorter ones.  [bol] tells whether the
    position is the start of the subject. *)
Fixpoint star_atom (a : atom) (bol : bool) (s : str)
         (k : bool -> str -> option caps) : option caps :=
  match s with
  | c :: s' =>
      if atom_ok a c then
        match star_atom a false s' k with
        | Some r => Some r
        | None => k bol s
        end
      else k bol s
  | [] => k bol []
  end.

(** [a{n,}]. *)
Fixpoint rep_atom (n : nat) (a : atom) (bol : bool) (s : str)
         (k : bool -> str -> option caps) : option caps :=
  match n with
  | 0 => star_atom a bol s k
  | S n' =>
      match s with
      | c :: s' => if atom_ok a c then rep_atom n' a false s' k else None
      | [] => None
      end
  end.

(** Backtracking matcher in continuation-passing style: [k] is the rest of
    the pattern, [None] is failure and makes the caller try its next
    choice. *)
Fixpoint run (r : regex) (bol : bool) (s : str) (cs : caps)
         (k : bool -> str -> caps -> option caps) : option caps :=
  match r with
  | Atom a =>
      match s with
      | c :: s' => if atom_ok a c then k false s' cs else None
      | [] => None
      end
  | Bol => if bol then k bol s cs else None
  | Eps => k bol s cs
  | Seq r1 r2 => run r1 bol s cs (fun b' s' cs' => run r2 b' s' cs' k)
  | Alt r1 r2 =>
      match run r1 bol s cs k with
      | Some x => Some x
      | None => run r2 bol s cs k
      end
  | Star a => star_atom a bol s (fun b' s' => k b' s' cs)
  | AtLeast n a => rep_atom n a bol s (fun b' s' => k b' s' cs)
  | Opt r1 =>
      match run r1 bol s cs k with
      | Some x => Some x
      | None => k bol s cs
      end
  | Grp i r1 =>
      run r1 bol s cs (fun b' s' cs' => k b' s' ((i, consumed s s') :: cs'))
  end.

Definition accept : bool -> str -> caps -> option caps :=
  fun _ _ cs => Some cs.

(** The match starting exactly at the current position. *)
Definition match_here (r : regex) (bol : bool) (s : str) : option caps :=
  run r bol s [] accept.

(** Leftmost match: every start position from the current one to the end of
    the subject, in order. *)
Fixpoint search_from (r : regex) (bol : bool) (s : str) : option caps :=
  match match_here r bol s with
  | Some cs => Some cs
  | None =>
      match s with
      | [] => None
      | _ :: s' => search_from r false s'
      end
  end.

(** [r.search(s)]: the first item of [r.findall(s)] when there is one. *)
Definition search (r : regex) (s : str) : option caps :=
  search_from r true s.

End Re.
Import Re.

(* ================================================================= *)
(** ** Exceptions and results *)

Inductive exn : Type :=
| SyntaxError (msg : str)
| ValueError (msg : str)
| NotImplementedError (msg : str).

Inductive outcome (A : Type) : Type :=
| Return (a : A)
| Raise (e : exn).
Arguments Return {A} a.
Arguments Raise {A} e.

Definition bind {A B : Type} (x : outcome A) (f : A -> outcome B) : outcome B :=
  match x with
  | Return a => f a
  | Raise e => Raise e
  end.

Notation "x <- c1 ;; c2" := (bind c1 (fun x => c2))
  (at level 61, c1 at next level, right associativity).

(* ================================================================= *)
(** ** gdocstr/parse.py *)

Module Parse.

(** The dictionary returned by [_parse_arglist]. *)
Record FieldEntry : Type := mkField {
  field : str;
  signature : str;
  description : str
}.

(** The dictionary returned by [parse_section]. *)
Record ParsedSection : Type := mkSection {
  header : str;
  text : str;
  args : list FieldEntry
}.

(** The attributes of a [GoogleDocString] object that the parser reads or
    assigns; [_re] and [_config] are fixed by the default configuration
    below. *)
Record GoogleDocString : Type := mkObj {
  docstring : str;
  data : list ParsedSection;
  _section : list str;
  _indent : nat;
  _linenum : nat;
  _sections : list str
}.

Definition set_data (v : list ParsedSection) (self : GoogleDocString) :=
  mkObj (docstring self) v (_section self) (_indent self) (_linenum self)
        (_sections self).
Definition set_section (v : list str) (self : GoogleDocString) :=
  mkObj (docstring self) (data self) v (_indent self) (_linenum self)
        (_sections self).
Definition set_indent (v : nat) (self : GoogleDocString) :=
  mkObj (docstring self) (data self) (_section self) v (_linenum self)
        (_sections self).
Definition set_linenum (v : nat) (self : GoogleDocString) :=
  mkObj (docstring self) (data self) (_section self) (_indent self) v
        (_sections self).
Definition set_sections (v : list str) (self : GoogleDocString) :=
  mkObj (docstring self) (data self) (_section self) (_indent self)
        (_linenum self) v.

(** [GoogleDocString.__init__] with [config=None]. *)
Definition __init__ (docstring : str) : GoogleDocString :=
  mkObj docstring [] [] 0 0 [].

(** *** The default configuration *)

Definition config_headers : str * list str :=
  (py "Args",
   [py "Arguments"; py "Returns"; py "Yields"; py "Raises"; py "Note";
    py "Notes"; py "Example"; py "Examples"; py "Attributes"; py "Todo"]).
Definition config_indent : nat := 4.
Definition config_delimiter : str := py ":".
Definition config_arg_delimiter : str := py ": ".

(** The pattern of [_compile_header]: [^], [\s*], group 1 with the
    alternation [Args|Arguments|...|Todo], the delimiter [:] and [\s*]. *)
Definition _compile_header : regex :=
  Seq Bol
    (Seq (Star ASpace)
       (Seq (Grp 1 (alts (fst config_headers) (snd config_headers)))
          (Seq (lit config_delimiter) (Star ASpace)))).

(** The pattern of [_compile_indent]: group 1 with [^] and [\s{4,}]. *)
Definition _compile_indent : regex :=
  Grp 1 (Seq Bol (AtLeast config_indent ASpace)).

(** The pattern of [_compile_arg]: group 1 is [\w*]; then [\s*]; then the
    optional group 2, an opening parenthesis, [.*] and a closing parenthesis;
    then [\s*], the delimiter [: ] and group 3, [.*]. *)
Definition _compile_arg : regex :=
  Seq (Grp 1 (Star AWord))
    (Seq (Star ASpace)
       (Seq (Opt (Grp 2 (Seq (Atom (ALit "("%char))
                           (Seq (Star ADot) (Atom (ALit ")"%char))))))
          (Seq (Star ASpace)
             (Seq (lit config_arg_delimiter) (Grp 3 (Star ADot)))))).

(** *** Line classification *)

Definition _get_indent (line : str) : nat :=
  match search _compile_indent line with
  | Some cs => length (group_str cs 1)
  | None => 0
  end.

Definition _is_indent (line : str) : bool := 0 <? _get_indent line.

Definition _is_header (line : str) : bool :=
  match search _compile_header line with
  | Some _ => true
  | None => false
  end.

Definition _get_header (line : str) : str :=
  match search _compile_header line with
  | Some cs => group_str cs 1
  | None => []
  end.

(** The first item of [findall], a triple of groups, or [None] for the
    empty list. *)
Definition _get_arg (line : str) : option (str * str * str) :=
  match search _compile_arg line with
  | Some cs => Some (group_str cs 1, group_str cs 2, group_str cs 3)
  | None => None
  end.

(** The scan of [_get_next_line] over [lines[inc:]]: the first line that is
    not the empty string, the empty string at the end of the list. *)
Fixpoint first_nonempty (ls : list str) : str :=
  match ls with
  | [] => []
  | l :: ls' => if truthy l then l else first_nonempty ls'
  end.

(** For [ln < len(lines)], where the scan starts inside the list or at its
    end; the callers pass the index of a line they have just read, so they
    stay in that range.  For a larger [ln] the source never meets
    [inc == num_lines] and ends in an [IndexError] at [lines[inc]]: the
    definition is not meant for that case. *)
Definition _get_next_line (lines : list str) (ln : nat) : str :=
  first_nonempty (skipn (ln + 1) lines).

Definition _err_if_missing_indent (lines : list str) (ln : nat)
  : outcome unit :=
  let next_line := _get_next_line lines ln in
  let is_next_indent := _is_indent next_line in
  if negb is_next_indent
  then Raise (SyntaxError (py "Missing indent after `" ++ next_line ++ py "`"))
  else Return tt.

(** *** Section segmentation *)

Definition _begin_section (self : GoogleDocString) : GoogleDocString :=
  set_indent 0 (set_section [] self).

Definition _end_section (self : GoogleDocString) : GoogleDocString :=
  let section_text := join [nl] (_section self) in
  if truthy (strip section_text)
  then set_sections (_sections self ++ [section_text]) self
  else self.

(** One iteration of the [for] loop of [extract_sections]; the state is
    the object and the local variable [new_section]. *)
Definition extract_step (lines : list str) (ln : nat) (line : str)
           (st : GoogleDocString * bool) : outcome (GoogleDocString * bool) :=
  let '(self, new_section) := st in
  let current_indent := _get_indent line in
  let '(self, new_section) :=
    if new_section && _is_indent line
    then (set_indent current_indent self, false)
    else (self, new_section) in
  st' <- (if _is_header line then
            _ <- _err_if_missing_indent lines ln ;;
            Return (_begin_section (_end_section self), true)
          else if truthy line && (current_indent <? _indent self) then
            Return (_begin_section (_end_section self), new_section)
          else Return (self, new_section)) ;;
  let '(self, new_section) := st' in
  Return (set_section (_section self ++ [slice_from (_indent self) line]) self,
          new_section).

(** [for ln, line in enumerate(lines)], entered at index [ln] with [rest]
    still to visit. *)
Fixpoint extract_loop (lines : list str) (ln : nat) (rest : list str)
         (st : GoogleDocString * bool) : outcome (GoogleDocString * bool) :=
  match rest with
  | [] => Return st
  | line :: rest' =>
      st' <- extract_step lines ln line st ;;
      extract_loop lines (S ln) rest' st'
  end.

Definition extract_sections (self : GoogleDocString)
  : outcome GoogleDocString :=
  let lines := split nl (docstring self) in
  st <- extract_loop lines 0 lines (self, true) ;;
  Return (_begin_section (_end_section (fst st))).

(** *** Field parsing *)

(** The [while] loop of [_parse_arglist].  [None] means that the fuel ran
    out before the loop condition became false. *)
Fixpoint arglist_while (fuel : nat) (lines : list str)
         (description : list str) (self : GoogleDocString)
  : option (list str * GoogleDocString) :=
  if _is_indent (_get_next_line lines (_linenum self)) then
    match fuel with
    | 0 => None
    | S fuel' =>
        let self := set_linenum (_linenum self + 1) self in
        arglist_while fuel' lines
          (description ++ [item lines (_linenum self)]) self
    end
  else Some (description, self).

Definition _parse_arglist (lines : list str) (self : GoogleDocString)
  : option (option FieldEntry * GoogleDocString) :=
  match _get_arg (item lines (_linenum self)) with
  | None => Some (None, self)
  | Some (name, sig, rest) =>
      match arglist_while (length lines) lines [rest] self with
      | None => None
      | Some (description, self) =>
          Some (Some (mkField name sig (join [nl] description)), self)
      end
  end.

(** The [while] loop of [parse_section]. *)
Fixpoint section_while (fuel : nat) (lines : list str) (text : list str)
         (args : list FieldEntry) (self : GoogleDocString)
  : option (list str * list FieldEntry * GoogleDocString) :=
  if _linenum self <? length lines then
    match fuel with
    | 0 => None
    | S fuel' =>
        match _parse_arglist lines self with
        | None => None
        | Some (Some arg_data, self) =>
            section_while fuel' lines text (args ++ [arg_data])
              (set_linenum (_linenum self + 1) self)
        | Some (None, self) =>
            section_while fuel' lines
              (text ++ [item lines (_linenum self)]) args
              (set_linenum (_linenum self + 1) self)
        end
    end
  else Some (text, args, self).

Definition parse_section (section : str) (self : GoogleDocString)
  : option (ParsedSection * GoogleDocString) :=
  let lines := split nl section in
  let header := _get_header (item lines 0) in
  let self := set_linenum (if truthy header then 1 else 0) self in
  match section_while (length lines) lines [] [] self with
  | None => None
  | Some (text, args, self) =>
      Some (mkSection header (join [nl] text) args, self)
  end.

(** [for section in self._sections: self.data.append(...)]. *)
Fixpoint parse_loop (sections : list str) (self : GoogleDocString)
  : option GoogleDocString :=
  match sections with
  | [] => Some self
  | section :: sections' =>
      match parse_section section self with
      | None => None
      | Some (out, self) =>
          parse_loop sections' (set_data (data self ++ [out]) self)
      end
  end.

(** [DocString.parse]: the returned list is [self.data]. *)
Definition parse (self : GoogleDocString)
  : option (outcome (list ParsedSection * GoogleDocString)) :=
  let self := set_data [] self in
  match extract_sections self with
  | Raise e => Some (Raise e)
  | Return self =>
      match parse_loop (_sections self) self with
      | None => None
      | Some self => Some (Return (data self, self))
      end
  end.

(** *** The factory *)

Definition parsers : list (str * (str -> GoogleDocString)) :=
  [(py "Google", __init__)].

Fixpoint dict_get {V : Type} (d : list (str * V)) (key : str) : option V :=
  match d with
  | [] => None
  | (k, v) :: d' =>
      if list_eq_dec ascii_dec key k then Some v else dict_get d' key
  end.

(** [parser(obj, choice)]: in the [else] branch the exception object is
    built and dropped, and the function ends without a [return]. *)
Definition parser (obj : str) (choice : str)
  : outcome (option GoogleDocString) :=
  match dict_get parsers choice with
  | Some cls => Return (Some (cls obj))
  | None =>
      let _unused :=
        NotImplementedError
          (py "The docstring parser `" ++ choice ++ py "` is not implemented")
      in Return None
  end.

End Parse.
Import Parse.

(* ================================================================= *)
(** ** gdocstr/docstring.py *)

Module Docstring.

(** [get_names(query)]: the tuple [(classname, funcname, dtype)]. *)
Definition get_names (query : str) : outcome (str * str * str) :=
  let members := split "."%char query in
  if length members =? 1 then
    match item members 0 with
    | [] => Return ([], [], py "module")
    | c :: _ =>
        if isupper c then Return (query, [], py "class")
        else Return ([], query, py "function")
    end
  else if length members =? 2 then
    Return (item members 0, item members 1, py "method")
  else Raise (ValueError (py "Unable to parse: `" ++ query ++ py "`")).

End Docstring.
Import Docstring.

(* ================================================================= *)
(** ** Sample inputs *)

Definition doc (lines : list str) : str := join [nl] lines.

Definition sample_doc : str :=
  doc [py "Summary line."; py "";
       py "Args:";
       py "    x (int): the value to use.";
       py "        Continued description.";
       py "    y: another value.";
       py "";
       py "Returns:";
       py "    bool: whether it worked."].

(** A headed section, an indent drop, and an indented line after the drop. *)
Definition drop_doc : str :=
  doc [py "Args:"; py "    x: 1"; py "foo"; py "    bar"; py "baz"].

(* ================================================================= *)
(** ** Vocabulary of the statements *)

(** Length of the leading run of characters satisfying [p]. *)
Fixpoint lead (p : ascii -> bool) (s : str) : nat :=
  match s with
  | c :: s' => if p c then S (lead p s') else 0
  | [] => 0
  end.

(** Number of leading whitespace characters of a line. *)
Definition ws_run (s : str) : nat := lead isspace s.

(** Whether the position after consuming [pre] is still the start of the
    subject. *)
Definition adv (bol : bool) (pre : str) : bool :=
  match pre with [] => bol | _ :: _ => false end.

(** The header pattern after [^] and the leading [\s*]. *)
Definition header_rest : regex :=
  Seq (Grp 1 (alts (fst config_headers) (snd config_headers)))
      (Seq (lit config_delimiter) (Star ASpace)).

Definition header_tail (s : str) : option caps :=
  run header_rest false s [] accept.

Definition keywords : list str := fst config_headers :: snd config_headers.

(** A line is blank for the lookahead of [_get_next_line] when it is the
    empty string, and whitespace-only when [strip] leaves nothing of it. *)
Definition is_empty (l : str) : bool := negb (truthy l).
Definition is_whitespace (l : str) : bool := forallb isspace l.

Definition no_newline (l : str) : Prop := ~ In nl l.

(** The two updates of one segmentation step: locking the threshold on the
    first indented line of a fresh section, and appending the dedented
    line. *)
Definition lock (line : str) (st : GoogleDocString * bool)
  : GoogleDocString * bool :=
  if snd st && _is_indent line
  then (set_indent (_get_indent line) (fst st), false)
  else st.

Definition append_line (line : str) (self : GoogleDocString)
  : GoogleDocString :=
  set_section (_section self ++ [slice_from (_indent self) line]) self.

(** [x] is the next non-blank line after index [ln]: the first line after
    [ln] that is not the empty string. *)
Definition next_nonblank (lines : list str) (ln : nat) (x : str) : Prop :=
  exists k,
    nth_error lines (ln + 1 + k) = Some x /\ x <> []
    /\ forall j, j < k -> nth_error lines (ln + 1 + j) = Some [].

(** Nothing but empty lines after index [ln]. *)
Definition only_blank_after (lines : list str) (ln : nat) : Prop :=
  forall j l, ln < j -> nth_error lines j = Some l -> l = [].

(** The loops of the field parser seen from the cursor [self._linenum]
    alone, which is the only attribute they touch. *)
Fixpoint arglist_cursor (fuel : nat) (lines : list str)
         (description : list str) (n : nat) : option (list str * nat) :=
  if _is_indent (_get_next_line lines n) then
    match fuel with
    | 0 => None
    | S fuel' =>
        arglist_cursor fuel' lines (description ++ [item lines (n + 1)]) (n + 1)
    end
  else Some (description, n).

Definition parse_arglist_cursor (lines : list str) (n : nat)
  : option (option FieldEntry * nat) :=
  match _get_arg (item lines n) with
  | None => Some (None, n)
  | Some (name, sig, rest) =>
      match arglist_cursor (length lines) lines [rest] n with
      | None => None
      | Some (description, n') =>
          Some (Some (mkField name sig (join [nl] description)), n')
      end
  end.

Fixpoint section_cursor (fuel : nat) (lines : list str) (text : list str)
         (args : list FieldEntry) (n : nat)
  : option (list str * list FieldEntry * nat) :=
  if n <? length lines then
    match fuel with
    | 0 => None
    | S fuel' =>
        match parse_arglist_cursor lines n with
        | None => None
        | Some (Some arg_data, n') =>
            section_cursor fuel' lines text (args ++ [arg_data]) (n' + 1)
        | Some (None, n') =>
            section_cursor fuel' lines (text ++ [item lines n']) args (n' + 1)
        end
    end
  else Some (text, args, n).

Definition parse_section_cursor (section : str)
  : option (ParsedSection * nat) :=
  let lines := split nl section in
  let header := _get_header (item lines 0) in
  match section_cursor (length lines) lines [] []
          (if truthy header then 1 else 0) with
  | None => None
  | Some (text, args, n) => Some (mkSection header (join [nl] text) args, n)
  end.

(** The parsed sections of a list of section texts. *)
Definition outs_of (sections : list str) : list ParsedSection :=
  flat_map (fun section =>
              match parse_section_cursor section with
              | Some (out, _) => [out]
              | None => []
              end) sections.

(** The lines [ls[i:j]]. *)
Definition slice (ls : list str) (i j : nat) : list str :=
  firstn (j - i) (skipn i ls).

(** The content of a section block: its lines without the header line, which
    is where [parse_section] puts the cursor before it reads anything
    ([self._linenum = int(bool(header))]). *)
Definition content_of_lines (b : list str) : list str :=
  skipn (if truthy (_get_header (item b 0)) then 1 else 0) b.

Definition block_content (section : str) : list str :=
  content_of_lines (split nl section).

Definition count (p : str -> bool) (ls : list str) : nat :=
  length (filter p ls).

Definition not_header (l : str) : bool := negb (_is_header l).

(** No indent drop: after the first indented line, every line that is not
    empty is indented at least as deep as that line. *)
Fixpoint no_indent_drop (ls : list str) : Prop :=
  match ls with
  | [] => True
  | l :: ls' =>
      if _is_indent l
      then Forall (fun x => truthy x = false \/ _get_indent l <= _get_indent x)
                  ls'
      else no_indent_drop ls'
  end.

(** The same object with other values of [data] and [_linenum] and with
    the sections [p] emitted earlier. *)
Definition reframe (dat : list ParsedSection) (m : nat) (p : list str)
           (self : GoogleDocString) : GoogleDocString :=
  mkObj (docstring self) dat (_section self) (_indent self) m
        (p ++ _sections self).

(** The invariant of the segmentation loop behind the line count: [done] are
    the lines read so far, [secs] the emitted sections, [sec] the pending
    one, and [nb] the notion of non-blank line that is counted. *)
Definition seg_inv (nb : str -> bool) (done secs : list str) (sec : list str)
  : Prop :=
  Forall no_newline sec
  /\ Forall (fun l => _is_header l = false) (tl sec)
  /\ Forall (fun l => _is_header l = false) (flat_map block_content secs)
  /\ count nb (flat_map block_content secs) + count nb (content_of_lines sec)
     <= count nb (filter not_header done).

(** The invariant of the segmentation loop on a docstring without headers:
    nothing stored is a header line. *)
Definition plain_inv (self : GoogleDocString) : Prop :=
  Forall no_newline (_section self)
  /\ Forall (fun l => _is_header l = false) (_section self)
  /\ Forall (fun s => _is_header (item (split nl s) 0) = false)
            (_sections self).

(** The invariant of the segmentation loop on a docstring without headers and
    without indent drop: nothing is emitted before the end, and the pending
    section is as blank as the lines read so far. *)
Definition steady_inv (done rest : list str) (st : GoogleDocString * bool)
  : Prop :=
  _sections (fst st) = []
  /\ forallb is_whitespace (_section (fst st)) = forallb is_whitespace done
  /\ (if snd st
      then _indent (fst st) = 0 /\ no_indent_drop rest
      else Forall (fun x => truthy x = false
                            \/ _indent (fst st) <= _get_indent x) rest).

(* ================================================================= *)
(** ** The rest of gdocstr/parse.py *)

(** [GoogleDocString._is_arg]: whether [findall] of the field pattern finds
    anything in the line. *)
Definition _is_arg (line : str) : bool :=
  match search _compile_arg line with
  | Some _ => true
  | None => false
  end.

(** [DocString.__str__]: the raw docstring. *)
Definition __str__ (self : GoogleDocString) : str := docstring self.

(** [summary(txt)]: the first item of [txt.split] on line breaks. *)
Definition summary (txt : str) : str := item (split nl txt) 0.

(* ================================================================= *)
(** ** The rest of gdocstr/docstring.py: the class [Fetch] *)

Module Fetching.

(** The attributes of a [Fetch] object. *)
Record Fetch : Type := mkFetch {
  txt : str;
  query : str;
  classname : str;
  funcname : str;
  dtype : str
}.

(** The dictionary built by [_get_match]. *)
Record Match : Type := mkMatch {
  match_name : str;
  match_signature : str;
  match_docstring : str;
  match_dtype : str
}.

(** [Fetch.__init__(txt, query)]: the names come from [get_names], whose
    exception passes through. *)
Definition __init__ (txt query : str) : outcome Fetch :=
  names <- get_names query ;;
  let '(classname, funcname, dtype) := names in
  Return (mkFetch txt query classname funcname dtype).

(** The four methods that subclasses override.  Each returns the dictionary
    of [_get_match] or [None], or raises. *)
Record methods : Type := mkMethods {
  fetch_function : Fetch -> outcome (option Match);
  fetch_class : Fetch -> outcome (option Match);
  fetch_method : Fetch -> outcome (option Match);
  fetch_module : Fetch -> outcome (option Match)
}.

Definition str_eqb (a b : str) : bool :=
  if list_eq_dec ascii_dec a b then true else false.

(** [Fetch.fetch]: the chain of comparisons on [self.dtype]; without a
    matching branch the method ends and the call gives [None]. *)
Definition fetch (cls : methods) (self : Fetch) : outcome (option Match) :=
  if str_eqb (dtype self) (py "class") then fetch_class cls self
  else if str_eqb (dtype self) (py "method") then fetch_method cls self
  else if str_eqb (dtype self) (py "function") then fetch_function cls self
  else if str_eqb (dtype self) (py "module") then fetch_module cls self
  else Return None.

(** The body [pass] of the four methods of the base class. *)
Definition pass (self : Fetch) : outcome (option Match) := Return None.

Definition Fetch_class : methods := mkMethods pass pass pass pass.

(** [PyFetch] overrides [fetch_function] and [fetch_class], here [ff] and
    [fc], and inherits the other two. *)
Definition PyFetch_class (ff fc : Fetch -> outcome (option Match)) : methods :=
  mkMethods ff fc pass pass.

End Fetching.

(* ================================================================= *)
(** ** Vocabulary of the further statements *)

(** [needle] occurs in [s]. *)
Definition occurs_in (needle s : str) : Prop :=
  exists a b, s = a ++ needle ++ b.

(** A block of lines without its common indentation: from the first indented
    line on, every line loses as many leading characters as that line has
    indent. *)
Fixpoint dedent_block (ls : list str) : list str :=
  match ls with
  | [] => []
  | l :: ls' =>
      if _is_indent l
      then map (slice_from (_get_indent l)) (l :: ls')
      else l :: dedent_block ls'
  end.

(** The header keywords found on the first lines of section texts. *)
Definition section_keywords (secs : list str) : list str :=
  flat_map (fun s => let h := _get_header (item (split nl s) 0) in
                     if truthy h then [h] else []) secs.

Definition not_blank (l : str) : bool := negb (is_whitespace l).

(** [x] is the next line after index [ln] that holds something else than
    whitespace, and nothing but whitespace-only lines comes after [ln]: the
    lookahead when a blank line is a whitespace-only line. *)
Definition next_visible (lines : list str) (ln : nat) (x : str) : Prop :=
  exists k,
    nth_error lines (ln + 1 + k) = Some x /\ is_whitespace x = false
    /\ forall j, j < k ->
                 exists l, nth_error lines (ln + 1 + j) = Some l
                           /\ is_whitespace l = true.

Definition only_whitespace_after (lines : list str) (ln : nat) : Prop :=
  forall j l, ln < j -> nth_error lines j = Some l -> is_whitespace l = true.

(** The text [s] opens with a field: word characters, whitespace, possibly
    a parenthesized text on one line and whitespace, and the delimiter. *)
Definition field_shape (s : str) : Prop :=
  exists name ws1 sig ws2 rest,
    s = name ++ ws1 ++ sig ++ ws2 ++ config_arg_delimiter ++ rest
    /\ forallb isword name = true
    /\ forallb isspace ws1 = true
    /\ forallb isspace ws2 = true
    /\ (sig = []
        \/ exists body, sig = "("%char :: body ++ [")"%char]
                        /\ no_newline body).

(** The content of a section block laid out as the field parser reads it: a
    line without field, or a field line with the lines that continue it. *)
Record field_group : Type := mkGroup {
  g_line : str;
  g_name : str;
  g_sig : str;
  g_rest : str;
  g_more : list str
}.

Inductive entry : Type :=
| TextLine (l : str)
| FieldGroup (g : field_group).

Definition entry_lines (i : entry) : list str :=
  match i with
  | TextLine l => [l]
  | FieldGroup g => g_line g :: g_more g
  end.

(** Continuation lines: empty or indented, and the last one indented. *)
Definition continuation (cs : list str) : Prop :=
  Forall (fun c => c = [] \/ _is_indent c = true) cs
  /\ (cs = [] \/ _is_indent (last cs []) = true).

(** The layout is the one the parser reads: text lines hold no field, a
    field line gives the parts of its group, and what follows a group does
    not continue it. *)
Fixpoint well_laid (es : list entry) : Prop :=
  match es with
  | [] => True
  | TextLine l :: es' => _get_arg l = None /\ well_laid es'
  | FieldGroup g :: es' =>
      _get_arg (g_line g) = Some (g_name g, g_sig g, g_rest g)
      /\ continuation (g_more g)
      /\ _is_indent (first_nonempty (flat_map entry_lines es')) = false
      /\ well_laid es'
  end.

Definition entry_text (es : list entry) : list str :=
  flat_map (fun i => match i with TextLine l => [l] | FieldGroup _ => [] end)
           es.

Definition entry_fields (es : list entry) : list FieldEntry :=
  flat_map (fun i => match i with
                     | TextLine _ => []
                     | FieldGroup g =>
                         [mkField (g_name g) (g_sig g)
                                  (join [nl] (g_rest g :: g_more g))]
                     end) es.

(** The emitted sections once the pending section [sec] is closed. *)
Definition closed (secs sec : list str) : list str :=
  if negb (is_whitespace (join [nl] sec)) then secs ++ [join [nl] sec]
  else secs.

(** A header line with the lines under it. *)
Definition headed (hb : str * list str) : list str := fst hb :: snd hb.

(** A header with a body that segmentation takes as one section: no header
    line and no indent drop in the body, and a first non-empty body line
    that is indented. *)
Definition well_headed (hb : str * list str) : Prop :=
  _is_header (fst hb) = true
  /\ Forall (fun l => _is_header l = false) (snd hb)
  /\ no_indent_drop (snd hb)
  /\ _is_indent (first_nonempty (snd hb)) = true.

(** What is left of lines when blank lines and leading whitespace are taken
    away. *)
Definition kept_text (ls : list str) : list str :=
  map lstrip (filter not_blank ls).

(** The keyword of a pending section, when its first line is a header. *)
Definition pending_keyword (sec : list str) : list str :=
  let h := _get_header (item sec 0) in if truthy h then [h] else [].

(** The three invariants carried through the segmentation loop: no emitted
    section is blank; no text is lost; every header line heads a section. *)
Definition solid_inv (done secs sec : list str) : Prop :=
  Forall (fun s => is_whitespace s = false) secs.

Definition text_inv (done secs sec : list str) : Prop :=
  Forall no_newline sec
  /\ kept_text (flat_map (split nl) secs ++ sec) = kept_text done.

Definition keyword_inv (done secs sec : list str) : Prop :=
  Forall no_newline sec
  /\ section_keywords secs ++ pending_keyword sec
     = map _get_header (filter _is_header done).

(** The field pattern after its name group, and after its optional
    signature group. *)
Definition arg_after_sig : regex :=
  Seq (Star ASpace) (Seq (lit config_arg_delimiter) (Grp 3 (Star ADot))).

Definition arg_sig : regex :=
  Grp 2 (Seq (Atom (ALit "("%char)) (Seq (Star ADot) (Atom (ALit ")"%char)))).

Definition arg_rest : regex :=
  Seq (Star ASpace) (Seq (Opt arg_sig) arg_after_sig).

Unset Implicit Arguments.

(* ================================================================= *)
(** ** Strings: [split], [join], [strip] *)

Lemma split_not_nil (sep : ascii) (s : str) : split sep s <> [].
Proof.
  destruct s as [|c s]; simpl; [discriminate|].
  destruct (Ascii.eqb c sep); [discriminate|].
  destruct (split sep s); discriminate.
Qed.

Lemma split_length (sep : ascii) (s : str) :
  length (split sep s) = S (count_occ ascii_dec s sep).
Proof.
  induction s as [|c s IH]; simpl; [reflexivity|].
  destruct (Ascii.eqb c sep) eqn:E.
  - apply Ascii.eqb_eq in E. subst c.
    destruct (ascii_dec sep sep) as [_|N]; [|contradiction].
    simpl. now rewrite IH.
  - apply Ascii.eqb_neq in E.
    destruct (ascii_dec c sep) as [Y|_]; [contradiction|].
    destruct (split sep s) eqn:Es; [now apply split_not_nil in Es|].
    simpl in *. exact IH.
Qed.

Lemma split_no_sep (sep : ascii) (s : str) :
  ~ In sep s -> split sep s = [s].
Proof.
  induction s as [|c s IH]; simpl; intros H; [reflexivity|].
  destruct (Ascii.eqb c sep) eqn:E.
  - apply Ascii.eqb_eq in E. exfalso. apply H. now left.
  - rewrite IH; [reflexivity|]. intros Hin. apply H. now right.
Qed.

Lemma split_app_sep (sep : ascii) (a b : str) :
  ~ In sep a -> split sep (a ++ sep :: b) = a :: split sep b.
Proof.
  induction a as [|c a IH]; simpl; intros H.
  - now rewrite Ascii.eqb_refl.
  - destruct (Ascii.eqb c sep) eqn:E.
    + apply Ascii.eqb_eq in E. exfalso. apply H. now left.
    + rewrite IH; [reflexivity|]. intros Hin. apply H. now right.
Qed.

Lemma split_lines_no_sep (sep : ascii) (s : str) :
  Forall (fun l => ~ In sep l) (split sep s).
Proof.
  induction s as [|c s IH]; simpl.
  - constructor; [intros []|constructor].
  - destruct (Ascii.eqb c sep) eqn:E.
    + constructor; [intros []|exact IH].
    + apply Ascii.eqb_neq in E.
      destruct (split sep s) as [|l ls]; [constructor; [|constructor]|].
      * intros [H|[]]. now apply E.
      * inversion IH; subst. constructor; [|assumption].
        intros [H|H]; [now apply E|contradiction].
Qed.

Lemma split_join (sep : ascii) (ls : list str) :
  ls <> [] -> Forall (fun l => ~ In sep l) ls ->
  split sep (join [sep] ls) = ls.
Proof.
  induction ls as [|l ls IH]; intros Hne Hall; [contradiction|].
  inversion Hall as [|? ? Hl Hls]; subst.
  destruct ls as [|l' ls'].
  - simpl. now apply split_no_sep.
  - change (join [sep] (l :: l' :: ls'))
      with (l ++ sep :: join [sep] (l' :: ls')).
    rewrite split_app_sep by assumption.
    rewrite IH; [reflexivity|discriminate|assumption].
Qed.

Lemma join_split (sep : ascii) (s : str) : join [sep] (split sep s) = s.
Proof.
  induction s as [|c s IH]; simpl; [reflexivity|].
  destruct (Ascii.eqb c sep) eqn:E.
  - apply Ascii.eqb_eq in E. subst c.
    destruct (split sep s) as [|l ls] eqn:Es; [now apply split_not_nil in Es|].
    change (join [sep] ([] :: l :: ls)) with (sep :: join [sep] (l :: ls)).
    now rewrite IH.
  - destruct (split sep s) as [|l ls] eqn:Es; [now apply split_not_nil in Es|].
    destruct ls as [|l' ls']; simpl in *; now rewrite IH.
Qed.

Lemma lstrip_whitespace (s : str) : is_whitespace (lstrip s) = is_whitespace s.
Proof.
  induction s as [|c s IH]; [reflexivity|].
  simpl. destruct (isspace c) eqn:E; simpl; [exact IH|now rewrite E].
Qed.

Lemma lstrip_nil (s : str) : truthy (lstrip s) = negb (is_whitespace s).
Proof.
  induction s as [|c s IH]; [reflexivity|].
  simpl. destruct (isspace c); simpl; [exact IH|reflexivity].
Qed.

Lemma is_whitespace_rev (s : str) : is_whitespace (rev s) = is_whitespace s.
Proof.
  unfold is_whitespace. induction s as [|c s IH]; [reflexivity|].
  simpl. rewrite forallb_app, IH. simpl.
  rewrite andb_true_r. apply andb_comm.
Qed.

Lemma truthy_rev (s : str) : truthy (rev s) = truthy s.
Proof.
  destruct s as [|c s]; [reflexivity|].
  simpl. destruct (rev s); reflexivity.
Qed.

(** [strip] leaves something exactly when some character is not whitespace. *)
Lemma truthy_strip (s : str) : truthy (strip s) = negb (is_whitespace s).
Proof.
  unfold strip.
  now rewrite truthy_rev, lstrip_nil, is_whitespace_rev, lstrip_whitespace.
Qed.

Lemma lstrip_skipn (s : str) : lstrip s = skipn (ws_run s) s.
Proof.
  unfold ws_run. induction s as [|c s IH]; [reflexivity|].
  simpl. destruct (isspace c); [exact IH|reflexivity].
Qed.

Lemma lead_le_length (p : ascii -> bool) (s : str) : lead p s <= length s.
Proof.
  induction s as [|c s IH]; simpl; [lia|]. destruct (p c); simpl; lia.
Qed.

(** Dropping no more than the leading whitespace leaves the rest of the line
    as it was. *)
Lemma lstrip_skipn_le (n : nat) (s : str) :
  n <= ws_run s -> lstrip (skipn n s) = lstrip s.
Proof.
  unfold ws_run. revert s.
  induction n as [|n IH]; intros s H; [reflexivity|].
  destruct s as [|c s]; [reflexivity|].
  simpl in *. destruct (isspace c); [|lia].
  apply IH. lia.
Qed.

Lemma is_whitespace_skipn (n : nat) (s : str) :
  is_whitespace s = true -> is_whitespace (skipn n s) = true.
Proof.
  unfold is_whitespace. revert s.
  induction n as [|n IH]; intros s H; [exact H|].
  destruct s as [|c s]; [reflexivity|].
  simpl in *. apply andb_true_iff in H. now apply IH.
Qed.

(* ================================================================= *)
(** ** The matcher *)

Section StarAtom.

Variable a : atom.

(** Whatever [a*] answers, it answers through its continuation, after a run
    of characters of [a]. *)
Lemma star_atom_sound (s : str) :
  forall bol k r,
    star_atom a bol s k = Some r ->
    exists pre post,
      s = pre ++ post /\ forallb (atom_ok a) pre = true
      /\ k (adv bol pre) post = Some r.
Proof.
  induction s as [|c s IH]; intros bol k r H; simpl in H.
  - exists [], []. auto.
  - destruct (atom_ok a c) eqn:E.
    + destruct (star_atom a false s k) eqn:Es.
      * injection H as ->.
        destruct (IH _ _ _ Es) as (pre & post & -> & Hp & Hk).
        exists (c :: pre), post. simpl. rewrite E, Hp.
        repeat split; auto. now destruct pre.
      * exists [], (c :: s). auto.
    + exists [], (c :: s). auto.
Qed.

(** Greedy: when the continuation accepts the longest run, that is the
    answer. *)
Lemma star_atom_max (s : str) :
  forall bol k r,
    k (adv bol (firstn (lead (atom_ok a) s) s))
      (skipn (lead (atom_ok a) s) s) = Some r ->
    star_atom a bol s k = Some r.
Proof.
  induction s as [|c s IH]; intros bol k r H; simpl in *; [exact H|].
  destruct (atom_ok a c) eqn:E; simpl in H; [|exact H].
  rewrite (IH false k r); [reflexivity|].
  now destruct (firstn (lead (atom_ok a) s) s).
Qed.

(** When the continuation rejects everything that starts with a character
    of [a], only the longest run is left. *)
Lemma star_atom_commit (s : str) :
  forall bol k,
    (forall b c s', atom_ok a c = true -> k b (c :: s') = None) ->
    star_atom a bol s k
    = k (adv bol (firstn (lead (atom_ok a) s) s))
        (skipn (lead (atom_ok a) s) s).
Proof.
  induction s as [|c s IH]; intros bol k Hk; simpl; [reflexivity|].
  destruct (atom_ok a c) eqn:E; simpl; [|reflexivity].
  rewrite (IH false k Hk).
  replace (adv false (firstn (lead (atom_ok a) s) s)) with false
    by now destruct (firstn (lead (atom_ok a) s) s).
  destruct (k false (skipn (lead (atom_ok a) s) s)) eqn:Ek; [reflexivity|].
  now apply Hk.
Qed.

(** [a{n,}] in front of a continuation that always accepts. *)
Lemma rep_atom_accepting (g : str -> caps) (n : nat) :
  forall s bol,
    rep_atom n a bol s (fun _ s' => Some (g s'))
    = if n <=? lead (atom_ok a) s
      then Some (g (skipn (lead (atom_ok a) s) s))
      else None.
Proof.
  induction n as [|n IH]; intros s bol; simpl.
  - now apply star_atom_max.
  - destruct s as [|c s]; [reflexivity|].
    simpl. destruct (atom_ok a c); [|reflexivity].
    now rewrite IH.
Qed.

End StarAtom.

Lemma consumed_app (pre post : str) : consumed (pre ++ post) post = pre.
Proof.
  unfold consumed. rewrite length_app.
  replace (length pre + length post - length post) with (length pre) by lia.
  rewrite firstn_app, firstn_all, Nat.sub_diag. simpl. apply app_nil_r.
Qed.

Lemma consumed_skipn (n : nat) (s : str) :
  n <= length s -> consumed s (skipn n s) = firstn n s.
Proof.
  intros H. rewrite <- (firstn_skipn n s) at 1. now rewrite consumed_app.
Qed.

(** A literal consumes exactly itself. *)
Lemma lit_sound (w : str) :
  forall bol s cs k r,
    run (lit w) bol s cs k = Some r ->
    exists s', s = w ++ s' /\ k (adv bol w) s' cs = Some r.
Proof.
  induction w as [|c w IH]; intros bol s cs k r H; simpl in H.
  - exists s. auto.
  - destruct s as [|d s]; [discriminate|].
    destruct (Ascii.eqb d c) eqn:E; [|discriminate].
    apply Ascii.eqb_eq in E. subst d.
    destruct (IH _ _ _ _ _ H) as (s' & -> & Hk).
    exists s'. split; [reflexivity|]. simpl. now destruct w.
Qed.

(** An alternation of literals consumes one of them. *)
Lemma alts_sound (ws : list str) :
  forall w bol s cs k r,
    run (alts w ws) bol s cs k = Some r ->
    exists w' s', In w' (w :: ws) /\ s = w' ++ s'
                  /\ k (adv bol w') s' cs = Some r.
Proof.
  induction ws as [|w1 ws IH]; intros w bol s cs k r H; simpl in H.
  - destruct (lit_sound _ _ _ _ _ _ H) as (s' & -> & Hk).
    exists w, s'. simpl. auto.
  - destruct (run (lit w) bol s cs k) eqn:E.
    + injection H as ->.
      destruct (lit_sound _ _ _ _ _ _ E) as (s' & -> & Hk).
      exists w, s'. simpl. auto.
    + destruct (IH _ _ _ _ _ _ H) as (w' & s' & Hin & -> & Hk).
      exists w', s'. split; [now right|auto].
Qed.

(** The leftmost start position of a match. *)
Lemma search_from_sound (r : regex) (s : str) :
  forall bol cs,
    search_from r bol s = Some cs ->
    exists pre s', s = pre ++ s' /\ match_here r (adv bol pre) s' = Some cs.
Proof.
  induction s as [|c s IH]; intros bol cs H; simpl in H.
  - destruct (match_here r bol []) eqn:E; [|discriminate].
    injection H as ->. exists [], []. auto.
  - destruct (match_here r bol (c :: s)) eqn:E.
    + injection H as ->. exists [], (c :: s). auto.
    + destruct (IH _ _ H) as (pre & s' & -> & Hm).
      exists (c :: pre), s'. split; [reflexivity|].
      simpl. now destruct pre.
Qed.

(** A pattern that opens with [^] matches at the start of the subject or
    nowhere. *)
Lemma search_from_bol_false (r : regex) (s : str) :
  (forall s', match_here r false s' = None) ->
  search_from r false s = None.
Proof.
  intros H. induction s as [|c s IH]; simpl; rewrite H; [reflexivity|exact IH].
Qed.

Lemma search_anchored (r : regex) (s : str) :
  (forall s', match_here r false s' = None) ->
  search r s = match_here r true s.
Proof.
  intros H. unfold search.
  destruct s as [|c s]; simpl.
  - now destruct (match_here r true []).
  - destruct (match_here r true (c :: s)); [reflexivity|].
    now apply search_from_bol_false.
Qed.

(* ================================================================= *)
(** ** Line classification *)

(** The indent depth is the number of leading whitespace characters when
    there are at least [config_indent] of them, and 0 otherwise. *)
Lemma _get_indent_spec (l : str) :
  _get_indent l = if config_indent <=? ws_run l then ws_run l else 0.
Proof.
  unfold _get_indent.
  rewrite search_anchored by reflexivity.
  unfold match_here, _compile_indent. cbn [run].
  change (rep_atom config_indent ASpace true l
            (fun (b' : bool) (s' : str) => accept b' s' [(1, consumed l s')]))
    with (rep_atom config_indent ASpace true l
            (fun (_ : bool) (s' : str) => Some [(1, consumed l s')])).
  rewrite (rep_atom_accepting ASpace (fun s' => [(1, consumed l s')])).
  fold (ws_run l). change (atom_ok ASpace) with isspace. fold (ws_run l).
  destruct (config_indent <=? ws_run l); [|reflexivity].
  unfold group_str; simpl.
  rewrite consumed_skipn by apply lead_le_length.
  apply firstn_length_le, lead_le_length.
Qed.

Lemma _is_indent_spec (l : str) : _is_indent l = (config_indent <=? ws_run l).
Proof.
  unfold _is_indent. rewrite _get_indent_spec.
  unfold config_indent.
  destruct (4 <=? ws_run l) eqn:E; [|reflexivity].
  apply Nat.leb_le in E. apply Nat.ltb_lt. lia.
Qed.

Lemma _get_indent_le_ws_run (l : str) : _get_indent l <= ws_run l.
Proof.
  rewrite _get_indent_spec. destruct (config_indent <=? ws_run l); lia.
Qed.

(** Keywords are not empty and hold no whitespace. *)
Lemma keywords_solid (w : str) :
  In w keywords -> exists c w', w = c :: w' /\ isspace c = false.
Proof.
  unfold keywords, config_headers; simpl.
  intros H.
  repeat (destruct H as [<-|H]; [eexists _, _; split; reflexivity|]).
  contradiction.
Qed.

(** What a match of the header pattern after its leading whitespace looks
    like: a keyword, the delimiter, and the keyword in group 1. *)
Lemma header_tail_sound (s : str) (cs : caps) :
  header_tail s = Some cs ->
  exists w s', In w keywords /\ s = w ++ config_delimiter ++ s'
               /\ cs = [(1, w)].
Proof.
  unfold header_tail, header_rest. cbn [run]. intros H.
  apply alts_sound in H.
  destruct H as (w & s1 & Hin & -> & H).
  apply lit_sound in H. destruct H as (s2 & -> & H).
  apply star_atom_sound in H. destruct H as (pre & post & -> & _ & H).
  unfold accept in H. injection H as <-.
  exists w, (pre ++ post). split; [exact Hin|]. split; [reflexivity|].
  now rewrite consumed_app.
Qed.

Lemma header_rest_bol (bol : bool) (s : str) :
  run header_rest bol s [] accept = header_tail s.
Proof.
  unfold header_tail. destruct s as [|c s]; reflexivity.
Qed.

(** The header pattern looks at a line through its leading whitespace. *)
Lemma search_header_lstrip (l : str) :
  search _compile_header l = header_tail (lstrip l).
Proof.
  rewrite search_anchored by reflexivity.
  unfold match_here, _compile_header. cbn [run].
  change (star_atom ASpace true l
            (fun b' s' => run header_rest b' s' [] accept)
          = header_tail (lstrip l)).
  rewrite star_atom_commit.
  - rewrite header_rest_bol. now rewrite lstrip_skipn.
  - intros b c s' Hc. rewrite header_rest_bol.
    destruct (header_tail (c :: s')) eqn:E; [|reflexivity].
    apply header_tail_sound in E.
    destruct E as (w & s2 & Hin & Hs & _).
    apply keywords_solid in Hin. destruct Hin as (c' & w' & -> & Hsp).
    simpl in Hs. injection Hs as -> _. simpl in Hc. congruence.
Qed.

Lemma _is_header_skipn (n : nat) (l : str) :
  n <= ws_run l -> _is_header (skipn n l) = _is_header l.
Proof.
  intros H. unfold _is_header.
  now rewrite !search_header_lstrip, lstrip_skipn_le.
Qed.

Lemma _get_header_truthy (l : str) : truthy (_get_header l) = _is_header l.
Proof.
  unfold _get_header, _is_header. rewrite search_header_lstrip.
  destruct (header_tail (lstrip l)) eqn:E; [|reflexivity].
  apply header_tail_sound in E.
  destruct E as (w & s' & Hin & _ & ->).
  apply keywords_solid in Hin. destruct Hin as (c & w' & -> & _).
  reflexivity.
Qed.

Lemma _get_header_not_header (l : str) :
  _is_header l = false -> _get_header l = [].
Proof.
  unfold _get_header, _is_header.
  destruct (search _compile_header l); [discriminate|reflexivity].
Qed.

(** A header line is never whitespace-only, let alone empty. *)
Lemma _is_header_not_whitespace (l : str) :
  _is_header l = true -> is_whitespace l = false.
Proof.
  unfold _is_header. rewrite search_header_lstrip.
  destruct (header_tail (lstrip l)) eqn:E; [intros _|discriminate].
  apply header_tail_sound in E.
  destruct E as (w & s' & Hin & Hs & _).
  apply keywords_solid in Hin. destruct Hin as (c' & w' & -> & Hsp).
  rewrite <- lstrip_whitespace, Hs. simpl. now rewrite Hsp.
Qed.

Lemma _is_header_truthy (l : str) : _is_header l = true -> truthy l = true.
Proof.
  intros H. apply _is_header_not_whitespace in H. now destruct l.
Qed.

(* ================================================================= *)
(** ** One step of the segmentation loop *)

Lemma _is_indent_nil : _is_indent [] = false.
Proof. reflexivity. Qed.

Lemma _is_header_nil : _is_header [] = false.
Proof. reflexivity. Qed.

Lemma extract_step_unfold lines ln line st :
  extract_step lines ln line st
  = (let st1 := lock line st in
     if _is_header line then
       if _is_indent (_get_next_line lines ln)
       then Return (append_line line (_begin_section (_end_section (fst st1))),
                    true)
       else Raise (SyntaxError (py "Missing indent after `"
                                ++ _get_next_line lines ln ++ py "`"))
     else if truthy line && (_get_indent line <? _indent (fst st1))
     then Return (append_line line (_begin_section (_end_section (fst st1))),
                  snd st1)
     else Return (append_line line (fst st1), snd st1)).
Proof.
  destruct st as [self ns]. unfold extract_step, lock, _err_if_missing_indent.
  cbn [fst snd].
  destruct (ns && _is_indent line); cbn [fst snd];
    destruct (_is_header line);
    try (destruct (_is_indent (_get_next_line lines ln)); reflexivity);
    match goal with
    | |- context [truthy line && ?b] => destruct (truthy line && b); reflexivity
    end.
Qed.

(** A step raises exactly on a header whose lookahead line is not indented,
    and then it raises [SyntaxError]. *)
Lemma extract_step_raises lines ln line st e :
  extract_step lines ln line st = Raise e ->
  _is_header line = true
  /\ _is_indent (_get_next_line lines ln) = false
  /\ exists msg, e = SyntaxError msg.
Proof.
  rewrite extract_step_unfold. cbv zeta.
  destruct (_is_header line).
  - destruct (_is_indent (_get_next_line lines ln)); [discriminate|].
    intros H. injection H as <-. eauto.
  - destruct (truthy line && _); discriminate.
Qed.

Lemma extract_step_returns lines ln line st :
  (_is_header line = true -> _is_indent (_get_next_line lines ln) = true) ->
  exists st', extract_step lines ln line st = Return st'.
Proof.
  intros H. rewrite extract_step_unfold. cbv zeta.
  destruct (_is_header line).
  - rewrite H by reflexivity. eauto.
  - destruct (truthy line && _); eauto.
Qed.

Lemma extract_step_malformed lines ln line st :
  _is_header line = true ->
  _is_indent (_get_next_line lines ln) = false ->
  exists msg, extract_step lines ln line st = Raise (SyntaxError msg).
Proof.
  intros Hh Hi. rewrite extract_step_unfold. cbv zeta.
  rewrite Hh, Hi. eauto.
Qed.

(** The empty line: appended as it is; threshold, flag and emitted sections
    stay. *)
Lemma extract_step_empty_line lines ln self ns :
  extract_step lines ln [] (self, ns)
  = Return (set_section (_section self ++ [[]]) self, ns).
Proof.
  rewrite extract_step_unfold. cbv zeta. unfold lock.
  rewrite _is_indent_nil, _is_header_nil, andb_false_r.
  cbn [truthy andb fst snd]. unfold append_line, slice_from.
  now rewrite skipn_nil.
Qed.

(* ================================================================= *)
(** ** The lookahead of [_get_next_line] *)

Lemma first_nonempty_found (ls : list str) (k : nat) (x : str) :
  nth_error ls k = Some x -> x <> [] ->
  (forall j, j < k -> nth_error ls j = Some []) ->
  first_nonempty ls = x.
Proof.
  revert ls. induction k as [|k IH]; intros ls Hx Hne Hj.
  - destruct ls as [|l ls]; [discriminate|].
    simpl in Hx. injection Hx as ->. simpl.
    destruct x; [contradiction|reflexivity].
  - destruct ls as [|l ls]; [discriminate|].
    assert (l = []) as ->.
    { specialize (Hj 0 ltac:(lia)). simpl in Hj. congruence. }
    simpl. apply IH; [exact Hx|exact Hne|].
    intros j Hlt. apply (Hj (S j)). lia.
Qed.

Lemma first_nonempty_all_empty (ls : list str) :
  (forall j l, nth_error ls j = Some l -> l = []) -> first_nonempty ls = [].
Proof.
  induction ls as [|l ls IH]; intros H; [reflexivity|].
  assert (l = []) as -> by (apply (H 0); reflexivity).
  simpl. apply IH. intros j l' Hj. apply (H (S j)). exact Hj.
Qed.

Lemma first_nonempty_cases (ls : list str) :
  first_nonempty ls = []
  \/ exists k, nth_error ls k = Some (first_nonempty ls)
               /\ first_nonempty ls <> []
               /\ forall j, j < k -> nth_error ls j = Some [].
Proof.
  induction ls as [|l ls IH]; [now left|].
  destruct l as [|c l].
  - simpl. destruct IH as [IH|(k & Hk & Hne & Hj)]; [now left|].
    right. exists (S k). repeat split; auto.
    intros [|j] Hlt; [reflexivity|]. apply Hj. lia.
  - right. exists 0. simpl. repeat split; [discriminate|]. intros j Hlt. lia.
Qed.

Lemma _get_next_line_found lines ln x :
  next_nonblank lines ln x -> _get_next_line lines ln = x.
Proof.
  intros (k & Hx & Hne & Hj). unfold _get_next_line.
  apply first_nonempty_found with (k := k); [|exact Hne|].
  - now rewrite nth_error_skipn.
  - intros j Hlt. rewrite nth_error_skipn. now apply Hj.
Qed.

Lemma _get_next_line_end lines ln :
  only_blank_after lines ln -> _get_next_line lines ln = [].
Proof.
  intros H. unfold _get_next_line. apply first_nonempty_all_empty.
  intros j l Hj. rewrite nth_error_skipn in Hj.
  apply (H (ln + 1 + j)); [lia|exact Hj].
Qed.

(** An indented lookahead line is a real line further down. *)
Lemma _get_next_line_indented lines ln :
  _is_indent (_get_next_line lines ln) = true ->
  next_nonblank lines ln (_get_next_line lines ln).
Proof.
  intros H. unfold _get_next_line in *.
  destruct (first_nonempty_cases (skipn (ln + 1) lines))
    as [E|(k & Hk & Hne & Hj)].
  - rewrite E in H. discriminate.
  - exists k. rewrite nth_error_skipn in Hk. repeat split; auto.
    intros j Hlt. specialize (Hj j Hlt). now rewrite nth_error_skipn in Hj.
Qed.

(* ================================================================= *)
(** ** When segmentation raises *)

Lemma extract_loop_raises lines rest :
  forall ln st i l,
    nth_error rest i = Some l -> _is_header l = true ->
    _is_indent (_get_next_line lines (ln + i)) = false ->
    exists msg, extract_loop lines ln rest st = Raise (SyntaxError msg).
Proof.
  induction rest as [|line rest IH]; intros ln st i l Hi Hh Hn.
  - destruct i; discriminate.
  - simpl. destruct i as [|i].
    + simpl in Hi. injection Hi as ->. rewrite Nat.add_0_r in Hn.
      destruct (extract_step_malformed lines ln l st Hh Hn) as (msg & ->).
      simpl. eauto.
    + destruct (extract_step lines ln line st) as [st'|e] eqn:E.
      * simpl. apply (IH (S ln) st' i l); auto.
        now replace (S ln + i) with (ln + S i) by lia.
      * apply extract_step_raises in E. destruct E as (_ & _ & msg & ->).
        simpl. eauto.
Qed.

Lemma extract_loop_returns lines rest :
  forall ln st,
    (forall i l, nth_error rest i = Some l -> _is_header l = true ->
                 _is_indent (_get_next_line lines (ln + i)) = true) ->
    exists st', extract_loop lines ln rest st = Return st'.
Proof.
  induction rest as [|line rest IH]; intros ln st H; simpl; [eauto|].
  destruct (extract_step_returns lines ln line st) as (st' & ->).
  - intros Hh. specialize (H 0 line eq_refl Hh). now rewrite Nat.add_0_r in H.
  - simpl. apply IH. intros i l Hi Hh.
    replace (S ln + i) with (ln + S i) by lia. now apply (H (S i) l).
Qed.

Lemma extract_sections_raises self ln l :
  nth_error (split nl (docstring self)) ln = Some l ->
  _is_header l = true ->
  _is_indent (_get_next_line (split nl (docstring self)) ln) = false ->
  exists msg, extract_sections self = Raise (SyntaxError msg).
Proof.
  intros Hl Hh Hn. unfold extract_sections. cbv zeta.
  destruct (extract_loop_raises (split nl (docstring self)) _ 0 (self, true)
              ln l Hl Hh Hn) as (msg & ->).
  simpl. eauto.
Qed.

Lemma extract_sections_returns self :
  (forall ln l, nth_error (split nl (docstring self)) ln = Some l ->
                _is_header l = true ->
                _is_indent (_get_next_line (split nl (docstring self)) ln)
                = true) ->
  exists self', extract_sections self = Return self'.
Proof.
  intros H. unfold extract_sections. cbv zeta.
  destruct (extract_loop_returns (split nl (docstring self))
              (split nl (docstring self)) 0 (self, true))
    as (st' & ->); [exact H|].
  simpl. eauto.
Qed.

(* ================================================================= *)
(** ** The field parser *)

Lemma set_linenum_same self : set_linenum (_linenum self) self = self.
Proof. now destruct self. Qed.

Lemma arglist_while_cursor fuel lines :
  forall description self,
    arglist_while fuel lines description self
    = match arglist_cursor fuel lines description (_linenum self) with
      | Some (d, n) => Some (d, set_linenum n self)
      | None => None
      end.
Proof.
  induction fuel as [|fuel IH]; intros description self; simpl;
    destruct (_is_indent (_get_next_line lines (_linenum self)));
    try reflexivity; try now rewrite set_linenum_same.
  rewrite IH. cbn [_linenum set_linenum].
  destruct (arglist_cursor _ _ _ _) as [[d n]|]; reflexivity.
Qed.

Lemma _parse_arglist_cursor lines self :
  _parse_arglist lines self
  = match parse_arglist_cursor lines (_linenum self) with
    | Some (r, n) => Some (r, set_linenum n self)
    | None => None
    end.
Proof.
  unfold _parse_arglist, parse_arglist_cursor.
  destruct (_get_arg (item lines (_linenum self))) as [[[name sig] rest]|].
  - rewrite arglist_while_cursor.
    destruct (arglist_cursor _ _ _ _) as [[d n]|]; reflexivity.
  - now rewrite set_linenum_same.
Qed.

Lemma section_while_cursor fuel lines :
  forall text args self,
    section_while fuel lines text args self
    = match section_cursor fuel lines text args (_linenum self) with
      | Some (t, a, n) => Some (t, a, set_linenum n self)
      | None => None
      end.
Proof.
  induction fuel as [|fuel IH]; intros text args self; simpl;
    destruct (_linenum self <? length lines);
    try reflexivity; try now rewrite set_linenum_same.
  rewrite _parse_arglist_cursor.
  destruct (parse_arglist_cursor lines (_linenum self)) as [[[a|] n]|];
    try reflexivity; rewrite IH; cbn [_linenum set_linenum];
    destruct (section_cursor _ _ _ _ _) as [[[t a'] m]|]; reflexivity.
Qed.

Lemma parse_section_cursor_eq section self :
  parse_section section self
  = match parse_section_cursor section with
    | Some (out, n) => Some (out, set_linenum n self)
    | None => None
    end.
Proof.
  unfold parse_section, parse_section_cursor. cbv zeta.
  rewrite section_while_cursor. cbn [_linenum set_linenum].
  destruct (section_cursor _ _ _ _ _) as [[[t a] n]|]; reflexivity.
Qed.

Lemma next_nonblank_bound lines n x :
  next_nonblank lines n x -> n + 1 < length lines.
Proof.
  intros (k & Hk & _).
  assert (n + 1 + k < length lines); [|lia].
  apply nth_error_Some. congruence.
Qed.

Lemma skipn_cons_item (ls : list str) (i : nat) :
  i < length ls -> skipn i ls = item ls i :: skipn (S i) ls.
Proof.
  revert ls. induction i as [|i IH]; intros [|l ls] H; simpl in *;
    try lia; [reflexivity|].
  apply IH. lia.
Qed.

(** The line right after the cursor, when the lookahead line is indented:
    that very line, or an empty line in front of it. *)
Lemma line_after_cursor lines n :
  _is_indent (_get_next_line lines n) = true ->
  item lines (n + 1) = []
  \/ item lines (n + 1) = _get_next_line lines n.
Proof.
  intros H. apply _get_next_line_indented in H.
  destruct H as (k & Hk & _ & Hj).
  destruct k as [|k].
  - right. rewrite Nat.add_0_r in Hk. unfold item.
    now apply nth_error_nth.
  - left. specialize (Hj 0 ltac:(lia)). rewrite Nat.add_0_r in Hj.
    unfold item. now apply nth_error_nth.
Qed.

(** Stepping over an empty line does not change the lookahead line. *)
Lemma _get_next_line_skip_empty lines n :
  n + 1 < length lines -> item lines (n + 1) = [] ->
  _get_next_line lines (n + 1) = _get_next_line lines n.
Proof.
  intros Hb H0. unfold _get_next_line.
  rewrite (skipn_cons_item lines (n + 1)) by exact Hb.
  rewrite H0. simpl. now replace (n + 1 + 1) with (S (n + 1)) by lia.
Qed.

(** What the continuation loop does, in closed form: it stops at a cursor
    [n'] whose lookahead line is not indented, having appended every line
    from [n + 1] to [n'], each of them empty or indented, the last one
    indented. *)
Lemma arglist_cursor_spec fuel lines :
  forall description n d n',
    arglist_cursor fuel lines description n = Some (d, n') ->
    n <= n'
    /\ d = description ++ slice lines (n + 1) (n' + 1)
    /\ _is_indent (_get_next_line lines n') = false
    /\ (forall j, n < j <= n' ->
                  item lines j = [] \/ _is_indent (item lines j) = true)
    /\ (n < n' -> n' < length lines /\ _is_indent (item lines n') = true).
Proof.
  unfold slice.
  induction fuel as [|fuel IH]; intros description n d n' H; simpl in H;
    destruct (_is_indent (_get_next_line lines n)) eqn:E; try discriminate.
  1, 3: injection H as <- <-;
    replace (n + 1 - (n + 1)) with 0 by lia; simpl; rewrite app_nil_r;
    repeat split; auto; intros; lia.
  apply IH in H. destruct H as (Hle & -> & Hstop & Hall & Hlast).
    assert (Hb : n + 1 < length lines).
    { pose proof (_get_next_line_indented lines n E) as Hn.
      now apply next_nonblank_bound in Hn. }
  split; [lia|]. split.
  - rewrite <- app_assoc. f_equal.
    rewrite (skipn_cons_item lines (n + 1)) by exact Hb.
    replace (n' + 1 - (n + 1)) with (S (n' + 1 - (n + 1 + 1))) by lia.
    replace (S (n + 1)) with (n + 1 + 1) by lia. reflexivity.
  - split; [exact Hstop|]. split.
    + intros j Hj. destruct (Nat.eq_dec j (n + 1)) as [->|Hne].
      * destruct (line_after_cursor lines n E) as [H0|H0]; [now left|].
        right. now rewrite H0.
      * apply Hall. lia.
    + intros _. destruct (Nat.eq_dec n' (n + 1)) as [->|Hne].
      * split; [exact Hb|].
        destruct (line_after_cursor lines n E) as [H0|H0];
          [|now rewrite H0].
        rewrite (_get_next_line_skip_empty lines n Hb H0) in Hstop.
        congruence.
      * apply Hlast. lia.
Qed.

(** The loops never run out of the fuel they are given. *)
Lemma arglist_cursor_total fuel lines :
  forall description n,
    length lines <= fuel + n + 1 ->
    exists r, arglist_cursor fuel lines description n = Some r.
Proof.
  induction fuel as [|fuel IH]; intros description n Hf; simpl;
    destruct (_is_indent (_get_next_line lines n)) eqn:E; eauto.
  - apply _get_next_line_indented, next_nonblank_bound in E. lia.
  - apply IH. lia.
Qed.

Lemma parse_arglist_cursor_total lines n :
  exists r n', parse_arglist_cursor lines n = Some (r, n') /\ n <= n'.
Proof.
  unfold parse_arglist_cursor.
  destruct (_get_arg (item lines n)) as [[[name sig] rest]|]; [|eauto].
  destruct (arglist_cursor_total (length lines) lines [rest] n)
    as ([d n'] & E); [lia|].
  rewrite E. apply arglist_cursor_spec in E. destruct E as (Hle & _).
  eauto.
Qed.

Lemma section_cursor_total fuel lines :
  forall text args n,
    length lines <= fuel + n ->
    exists r, section_cursor fuel lines text args n = Some r.
Proof.
  induction fuel as [|fuel IH]; intros text args n Hf; simpl;
    destruct (n <? length lines) eqn:E; eauto.
  - apply Nat.ltb_lt in E. lia.
  - destruct (parse_arglist_cursor_total lines n) as (r & n' & -> & Hle).
    destruct r; apply IH; lia.
Qed.

Lemma parse_section_cursor_total section :
  exists out n, parse_section_cursor section = Some (out, n).
Proof.
  unfold parse_section_cursor. cbv zeta.
  destruct (section_cursor_total (length (split nl section))
              (split nl section) [] []
              (if truthy (_get_header (item (split nl section) 0))
               then 1 else 0))
    as ([[t a] n] & ->); [lia|]. eauto.
Qed.

Lemma parse_section_cursor_header section out n :
  parse_section_cursor section = Some (out, n) ->
  header out = _get_header (item (split nl section) 0).
Proof.
  unfold parse_section_cursor. cbv zeta.
  destruct (section_cursor _ _ _ _ _) as [[[t a] m]|]; [|discriminate].
  intros H. now injection H as <- _.
Qed.

(** [parse_section] always returns; only [_linenum] changes, and the parsed
    section depends on the section text alone. *)
Lemma parse_section_returns section self :
  exists out n,
    parse_section section self = Some (out, set_linenum n self)
    /\ parse_section_cursor section = Some (out, n).
Proof.
  rewrite parse_section_cursor_eq.
  destruct (parse_section_cursor_total section) as (out & n & E).
  rewrite E. eauto.
Qed.

Lemma outs_of_app a b : outs_of (a ++ b) = outs_of a ++ outs_of b.
Proof. apply flat_map_app. Qed.

Lemma parse_loop_spec sections :
  forall self,
    exists n,
      parse_loop sections self
      = Some (set_data (data self ++ outs_of sections) (set_linenum n self)).
Proof.
  induction sections as [|s ss IH]; intros self; simpl.
  - exists (_linenum self). rewrite app_nil_r. now destruct self.
  - rewrite parse_section_cursor_eq. unfold outs_of. simpl.
    destruct (parse_section_cursor_total s) as (out & n & ->).
    destruct (IH (set_data (data (set_linenum n self) ++ [out])
                    (set_linenum n self))) as (m & ->).
    exists m. destruct self. cbn. now rewrite <- app_assoc.
Qed.

(* ================================================================= *)
(** ** The field pattern *)

Lemma paren_split (body x : str) :
  "("%char :: body ++ ")"%char :: x = ("("%char :: body ++ [")"%char]) ++ x.
Proof. simpl. now rewrite <- app_assoc. Qed.

Lemma match_arg_sound (b : bool) (s : str) (cs : caps) :
  match_here _compile_arg b s = Some cs ->
  exists name ws1 sig ws2 rest tail,
    s = name ++ ws1 ++ sig ++ ws2 ++ config_arg_delimiter ++ rest ++ tail
    /\ forallb isword name = true
    /\ forallb isspace ws1 = true
    /\ forallb isspace ws2 = true
    /\ (sig = [] \/ exists body, sig = "("%char :: body ++ [")"%char])
    /\ group_str cs 1 = name /\ group_str cs 2 = sig /\ group_str cs 3 = rest.
Proof.
  unfold match_here, _compile_arg. cbn [run]. intros H.
  apply star_atom_sound in H. destruct H as (name & s1 & -> & Hname & H).
  rewrite consumed_app in H.
  apply star_atom_sound in H. destruct H as (ws1 & s2 & -> & Hws1 & H).
  match type of H with
  | match ?grp with Some _ => _ | None => _ end = _ =>
      destruct grp as [x|] eqn:G
  end.
  - (* the parenthesized group took part *)
    injection H as ->.
    destruct s2 as [|c s3]; [discriminate|].
    destruct (atom_ok (ALit "(") c) eqn:Ec; [|discriminate].
    apply Ascii.eqb_eq in Ec. subst c.
    apply star_atom_sound in G. destruct G as (body & s4 & -> & _ & G).
    destruct s4 as [|c s5]; [discriminate|].
    destruct (atom_ok (ALit ")") c) eqn:Ec; [|discriminate].
    apply Ascii.eqb_eq in Ec. subst c.
    apply star_atom_sound in G. destruct G as (ws2 & s6 & -> & Hws2 & G).
    apply lit_sound in G. destruct G as (s7 & -> & G).
    apply star_atom_sound in G. destruct G as (rest & tail & -> & _ & G).
    unfold accept in G. injection G as <-.
    exists name, ws1, ("("%char :: body ++ [")"%char]), ws2, rest, tail.
    split; [do 2 f_equal; apply paren_split|].
    unfold group_str. cbn [group Nat.eqb].
    rewrite (paren_split body (ws2 ++ ":"%char :: " "%char :: rest ++ tail)).
    rewrite !consumed_app.
    repeat split; auto. right. now exists body.
  - (* no parenthesized group *)
    clear G.
    apply star_atom_sound in H. destruct H as (ws2 & s3 & -> & Hws2 & H).
    apply lit_sound in H. destruct H as (s4 & -> & H).
    apply star_atom_sound in H. destruct H as (rest & tail & -> & _ & H).
    unfold accept in H. injection H as <-.
    exists name, (ws1 ++ ws2), [], [], rest, tail.
    unfold group_str. cbn [group Nat.eqb]. rewrite !consumed_app.
    change (atom_ok ASpace) with isspace in *.
    rewrite forallb_app, Hws1, Hws2.
    split; [simpl; now rewrite <- !app_assoc|].
    repeat split; auto.
Qed.

(** What a successful [_get_arg] says about the line. *)
Lemma _get_arg_sound (line name sig rest : str) :
  _get_arg line = Some (name, sig, rest) ->
  exists pre ws1 ws2 tail,
    line = pre ++ name ++ ws1 ++ sig ++ ws2 ++ config_arg_delimiter
               ++ rest ++ tail
    /\ forallb isword name = true
    /\ forallb isspace ws1 = true
    /\ forallb isspace ws2 = true
    /\ (sig = [] \/ exists body, sig = "("%char :: body ++ [")"%char]).
Proof.
  unfold _get_arg.
  destruct (search _compile_arg line) as [cs|] eqn:E; [|discriminate].
  intros H. injection H as H1 H2 H3.
  apply search_from_sound in E. destruct E as (pre & s' & -> & E).
  apply match_arg_sound in E.
  destruct E as (name' & ws1 & sig' & ws2 & rest' & tail & -> & Hn & Hw1
                 & Hw2 & Hsig & G1 & G2 & G3).
  exists pre, ws1, ws2, tail.
  rewrite <- H1, <- H2, <- H3, G1, G2, G3. auto.
Qed.

Lemma ws_run_whitespace (l : str) :
  is_whitespace l = true -> ws_run l = length l.
Proof.
  unfold ws_run, is_whitespace. induction l as [|c l IH]; [reflexivity|].
  simpl. intros H. apply andb_true_iff in H. destruct H as [Hc Hl].
  rewrite Hc. now rewrite IH.
Qed.

(* ================================================================= *)
(** ** Query resolution and the factory *)

(** C8. [get_names] maps the empty query to kind module; a query without a
    dot whose first character is upper-case to kind class, with the query
    as class name; a query without a dot whose first character is not
    upper-case (a lower-case letter in particular) to kind function; a
    query of two dotted segments to kind method; and it raises
    [ValueError] on a query with more than two dotted segments. *)
Theorem get_names_kinds :
  get_names [] = Return ([], [], py "module")
  /\ (forall c q, ~ In "."%char (c :: q) -> isupper c = true ->
        get_names (c :: q) = Return (c :: q, [], py "class"))
  /\ (forall c q, ~ In "."%char (c :: q) -> isupper c = false ->
        get_names (c :: q) = Return ([], c :: q, py "function"))
  /\ (forall a b, ~ In "."%char a -> ~ In "."%char b ->
        get_names (a ++ "."%char :: b) = Return (a, b, py "method"))
  /\ (forall q, 2 <= count_occ ascii_dec q "."%char ->
        exists msg, get_names q = Raise (ValueError msg)).
Proof.
  split; [reflexivity|]. split; [|split; [|split]].
  - intros c q Hd Hu. unfold get_names. cbv zeta.
    rewrite (split_no_sep _ _ Hd). cbn [length Nat.eqb item nth].
    now rewrite Hu.
  - intros c q Hd Hu. unfold get_names. cbv zeta.
    rewrite (split_no_sep _ _ Hd). cbn [length Nat.eqb item nth].
    now rewrite Hu.
  - intros a b Ha Hb. unfold get_names. cbv zeta.
    rewrite (split_app_sep _ _ _ Ha), (split_no_sep _ _ Hb). reflexivity.
  - intros q Hq. unfold get_names. cbv zeta.
    pose proof (split_length "."%char q) as Hl.
    destruct (length (split "." q) =? 1) eqn:E1;
      [apply Nat.eqb_eq in E1; lia|].
    destruct (length (split "." q) =? 2) eqn:E2;
      [apply Nat.eqb_eq in E2; lia|].
    eauto.
Qed.

Lemma get_names_kinds_witness :
  get_names (py "Foo") = Return (py "Foo", [], py "class")
  /\ get_names (py "foo") = Return ([], py "foo", py "function")
  /\ get_names (py "Foo.bar") = Return (py "Foo", py "bar", py "method")
  /\ exists msg, get_names (py "a.b.c") = Raise (ValueError msg).
Proof.
  destruct get_names_kinds as (_ & Hc & Hf & Hm & He).
  split; [|split; [|split]].
  - apply (Hc "F"%char (py "oo")); [|reflexivity].
    simpl. intros [H|[H|[H|[]]]]; discriminate.
  - apply (Hf "f"%char (py "oo")); [|reflexivity].
    simpl. intros [H|[H|[H|[]]]]; discriminate.
  - apply (Hm (py "Foo") (py "bar"));
      simpl; intros [H|[H|[H|[]]]]; discriminate.
  - apply (He (py "a.b.c")). vm_compute. lia.
Defined.

(** C9. For every choice other than [Google] the factory returns [None] and
    raises nothing: the [NotImplementedError] object is built and dropped. *)
Theorem parser_unknown_choice_returns_none (obj choice : str) :
  choice <> py "Google" -> parser obj choice = Return None.
Proof.
  intros H. unfold parser, parsers. cbn [dict_get].
  destruct (list_eq_dec ascii_dec choice (py "Google")) as [E|_];
    [contradiction|reflexivity].
Qed.

Lemma parser_unknown_choice_witness :
  py "Numpy" <> py "Google" /\ parser (py "text") (py "Numpy") = Return None.
Proof.
  assert (H : py "Numpy" <> py "Google") by discriminate.
  split; [exact H|].
  exact (parser_unknown_choice_returns_none (py "text") (py "Numpy") H).
Defined.

(* ================================================================= *)
(** ** Malformed sections *)

(** C4, as the code has it.  The lookahead of [_get_next_line] passes over
    empty lines only, and a whitespace-only line counts as a line: a header
    whose next non-empty line is not indented makes [extract_sections] raise
    [SyntaxError]; so does a header after which only empty lines or nothing
    are left; and when every header's next non-empty line is indented,
    [extract_sections] returns. *)
Theorem header_needs_indented_body (d : str) :
  let lines := split nl d in
  (forall ln h x,
      nth_error lines ln = Some h -> _is_header h = true ->
      next_nonblank lines ln x -> _is_indent x = false ->
      exists msg, extract_sections (__init__ d) = Raise (SyntaxError msg))
  /\ (forall ln h,
        nth_error lines ln = Some h -> _is_header h = true ->
        only_blank_after lines ln ->
        exists msg, extract_sections (__init__ d) = Raise (SyntaxError msg))
  /\ ((forall ln h,
         nth_error lines ln = Some h -> _is_header h = true ->
         exists x, next_nonblank lines ln x /\ _is_indent x = true) ->
      exists self', extract_sections (__init__ d) = Return self').
Proof.
  cbv zeta. split; [|split].
  - intros ln h x Hh Hhd Hx Hi.
    apply (extract_sections_raises (__init__ d) ln h Hh Hhd).
    cbn [docstring __init__]. now rewrite (_get_next_line_found _ _ _ Hx).
  - intros ln h Hh Hhd Hb.
    apply (extract_sections_raises (__init__ d) ln h Hh Hhd).
    cbn [docstring __init__]. now rewrite (_get_next_line_end _ _ Hb).
  - intros H. apply extract_sections_returns. cbn [docstring __init__].
    intros ln l Hl Hhd. destruct (H ln l Hl Hhd) as (x & Hx & Hi).
    now rewrite (_get_next_line_found _ _ _ Hx).
Qed.

Lemma header_needs_indented_body_witness :
  (exists msg,
      extract_sections (__init__ (doc [py "Args:"; []; py "foo"]))
      = Raise (SyntaxError msg))
  /\ (exists msg,
         extract_sections (__init__ (doc [py "Args:"; []]))
         = Raise (SyntaxError msg))
  /\ (exists self',
         extract_sections (__init__ (doc [py "Args:"; py "    x: 1"]))
         = Return self').
Proof.
  split; [|split].
  - apply (proj1 (header_needs_indented_body (doc [py "Args:"; []; py "foo"]))
             0 (py "Args:") (py "foo")); try reflexivity.
    exists 1. split; [reflexivity|]. split; [discriminate|].
    intros [|j] Hj; [reflexivity|lia].
  - apply (proj1 (proj2 (header_needs_indented_body (doc [py "Args:"; []])))
             0 (py "Args:")); try reflexivity.
    intros [|[|[|j]]] l Hj Hl; try lia; simpl in Hl; try discriminate.
    now injection Hl as <-.
  - apply (proj2 (proj2 (header_needs_indented_body
                           (doc [py "Args:"; py "    x: 1"])))).
    intros [|[|[|ln]]] h Hh Hhd; simpl in Hh; try discriminate;
      injection Hh as <-.
    + exists (py "    x: 1"). split; [|reflexivity].
      exists 0. split; [reflexivity|]. split; [discriminate|].
      intros j Hj. lia.
    + vm_compute in Hhd. discriminate.
Defined.

(** C4, counterexample.  With whitespace-only lines read as blank, all three
    parts fail.  A header whose next visible line is not indented, with a
    line of four spaces in between: segmentation returns.  A header that is
    the last visible content, followed by a line of four spaces: segmentation
    returns.  A docstring whose only header has an indented next visible
    line, with a line of two spaces in between: segmentation raises. *)
Lemma whitespace_line_counts_in_lookahead :
  (let d := doc [py "Args:"; py "    "; py "foo"] in
   nth_error (split nl d) 0 = Some (py "Args:")
   /\ _is_header (py "Args:") = true
   /\ next_visible (split nl d) 0 (py "foo")
   /\ _is_indent (py "foo") = false
   /\ exists self', extract_sections (__init__ d) = Return self')
  /\ (let d := doc [py "Args:"; py "    "] in
      nth_error (split nl d) 0 = Some (py "Args:")
      /\ _is_header (py "Args:") = true
      /\ only_whitespace_after (split nl d) 0
      /\ exists self', extract_sections (__init__ d) = Return self')
  /\ (let d := doc [py "Args:"; py "  "; py "    x: 1"] in
      (forall ln h,
          nth_error (split nl d) ln = Some h -> _is_header h = true ->
          exists x, next_visible (split nl d) ln x /\ _is_indent x = true)
      /\ exists msg, extract_sections (__init__ d) = Raise (SyntaxError msg)).
Proof.
  cbv zeta. split; [|split].
  - split; [reflexivity|]. split; [reflexivity|]. split.
    + exists 1. split; [reflexivity|]. split; [reflexivity|].
      intros [|j] Hj; [|lia]. exists (py "    "). now split.
    + split; [reflexivity|]. eexists. reflexivity.
  - split; [reflexivity|]. split; [reflexivity|]. split.
    + intros [|[|[|j]]] l Hj Hl; try lia; simpl in Hl; try discriminate.
      now injection Hl as <-.
    + eexists. reflexivity.
  - split.
    + intros [|[|[|[|ln]]]] h Hh Hhd; simpl in Hh; try discriminate;
        injection Hh as <-; try (vm_compute in Hhd; discriminate).
      exists (py "    x: 1"). split; [|reflexivity].
      exists 1. split; [reflexivity|]. split; [reflexivity|].
      intros [|j] Hj; [|lia]. exists (py "  "). now split.
    + eexists. reflexivity.
Qed.

(* ================================================================= *)
(** ** Blank lines *)

(** C7, as the code has it.  The empty line has indent 0 and is not indented;
    in segmentation it is appended as it is and leaves the threshold, the
    new-section flag and the emitted sections alone, so it never ends a
    section.  A whitespace-only line has indent 0 only when it is shorter
    than the indent unit: from four whitespace characters on its indent is
    its length and it counts as indented. *)
Theorem blank_line_indent :
  (_get_indent [] = 0 /\ _is_indent [] = false)
  /\ (forall lines ln self ns,
        extract_step lines ln [] (self, ns)
        = Return (set_section (_section self ++ [[]]) self, ns))
  /\ (forall l, is_whitespace l = true ->
        _get_indent l = (if config_indent <=? length l then length l else 0)
        /\ _is_indent l = (config_indent <=? length l)).
Proof.
  split; [split; reflexivity|]. split.
  - apply extract_step_empty_line.
  - intros l Hl.
    rewrite _get_indent_spec, _is_indent_spec, (ws_run_whitespace l Hl).
    split; reflexivity.
Qed.

Lemma blank_line_indent_witness :
  _get_indent (py "  ") = 0 /\ _is_indent (py "  ") = false.
Proof.
  exact (proj2 (proj2 blank_line_indent) (py "  ") eq_refl).
Defined.

(** C7, counterexample.  A line of four spaces is whitespace-only, yet its
    indent is 4 and it counts as indented; and a line of two spaces under a
    threshold of 4 ends the section it stands in. *)
Lemma whitespace_line_is_indented :
  is_whitespace (py "    ") = true
  /\ _get_indent (py "    ") = 4
  /\ _is_indent (py "    ") = true
  /\ exists self',
       extract_sections
         (__init__ (doc [py "Args:"; py "    x: 1"; py "  "; py "    y: 2"]))
       = Return self'
       /\ _sections self'
          = [doc [py "Args:"; py "x: 1"]; doc [py "  "; py "    y: 2"]].
Proof.
  repeat split. eexists. split; reflexivity.
Qed.

(* ================================================================= *)
(** ** What a segmentation step does to the sections *)

Lemma _end_section_sections self :
  _sections (_end_section self)
  = if negb (is_whitespace (join [nl] (_section self)))
    then _sections self ++ [join [nl] (_section self)]
    else _sections self.
Proof.
  unfold _end_section. cbv zeta. rewrite truthy_strip.
  now destruct (negb (is_whitespace (join [nl] (_section self)))).
Qed.

Lemma _end_section_other self :
  _section (_end_section self) = _section self
  /\ _indent (_end_section self) = _indent self
  /\ docstring (_end_section self) = docstring self
  /\ data (_end_section self) = data self
  /\ _linenum (_end_section self) = _linenum self.
Proof.
  unfold _end_section. cbv zeta.
  now destruct (truthy (strip (join [nl] (_section self)))).
Qed.

Lemma is_whitespace_app (a b : str) :
  is_whitespace (a ++ b) = is_whitespace a && is_whitespace b.
Proof. apply forallb_app. Qed.

Lemma is_whitespace_join (ls : list str) :
  is_whitespace (join [nl] ls) = forallb is_whitespace ls.
Proof.
  induction ls as [|l ls IH]; [reflexivity|].
  destruct ls as [|l' ls'].
  - simpl. now rewrite andb_true_r.
  - change (join [nl] (l :: l' :: ls'))
      with (l ++ nl :: join [nl] (l' :: ls')).
    rewrite is_whitespace_app.
    change (is_whitespace (nl :: join [nl] (l' :: ls')))
      with (is_whitespace (join [nl] (l' :: ls'))).
    now rewrite IH.
Qed.

Lemma is_whitespace_skipn_le (n : nat) (l : str) :
  n <= ws_run l -> is_whitespace (skipn n l) = is_whitespace l.
Proof.
  unfold ws_run, is_whitespace. revert l.
  induction n as [|n IH]; intros l H; [reflexivity|].
  destruct l as [|c l]; [reflexivity|].
  simpl in *. destruct (isspace c); [|lia].
  apply IH. lia.
Qed.

Lemma no_newline_skipn (n : nat) (l : str) :
  no_newline l -> no_newline (skipn n l).
Proof.
  unfold no_newline. intros H Hin. apply H.
  rewrite <- (firstn_skipn n l). apply in_or_app. now right.
Qed.

(** In the branch that keeps the section open, the appended line is the
    line without some of its leading whitespace. *)
Lemma kept_line_dedent (i : nat) (line : str) :
  truthy line && (_get_indent line <? i) = false ->
  line = [] \/ i <= ws_run line.
Proof.
  intros H. apply andb_false_iff in H. destruct H as [H|H].
  - left. now destruct line.
  - right. apply Nat.ltb_ge in H. pose proof (_get_indent_le_ws_run line). lia.
Qed.

Lemma kept_line_not_header (i : nat) (line : str) :
  truthy line && (_get_indent line <? i) = false ->
  _is_header (slice_from i line) = _is_header line.
Proof.
  intros H. unfold slice_from.
  destruct (kept_line_dedent i line H) as [->|Hle].
  - now rewrite skipn_nil.
  - now apply _is_header_skipn.
Qed.

Lemma kept_line_whitespace (i : nat) (line : str) :
  truthy line && (_get_indent line <? i) = false ->
  is_whitespace (slice_from i line) = is_whitespace line.
Proof.
  intros H. unfold slice_from.
  destruct (kept_line_dedent i line H) as [->|Hle].
  - now rewrite skipn_nil.
  - now apply is_whitespace_skipn_le.
Qed.

(** The step on a line that is not a header, by cases. *)
Lemma extract_step_plain lines ln line st :
  _is_header line = false ->
  extract_step lines ln line st
  = (let st1 := lock line st in
     if truthy line && (_get_indent line <? _indent (fst st1))
     then Return (append_line line (_begin_section (_end_section (fst st1))),
                  snd st1)
     else Return (append_line line (fst st1), snd st1)).
Proof.
  intros H. rewrite extract_step_unfold. cbv zeta. now rewrite H.
Qed.

Lemma lock_sections line st :
  _sections (fst (lock line st)) = _sections (fst st)
  /\ _section (fst (lock line st)) = _section (fst st).
Proof.
  unfold lock. destruct (snd st && _is_indent line); auto.
Qed.

Lemma append_after_begin line self :
  append_line line (_begin_section self)
  = set_section [line] (_begin_section self).
Proof. reflexivity. Qed.

(* ================================================================= *)
(** ** Header lines stay out of the content of the blocks *)

(** Arithmetic over counts of lines, whichever way their type is spelled. *)
Ltac slia := unfold str in *; lia.

Lemma count_app p a b : count p (a ++ b) = count p a + count p b.
Proof. unfold count. now rewrite filter_app, length_app. Qed.

Lemma content_of_lines_header h t :
  _is_header h = true -> content_of_lines (h :: t) = t.
Proof.
  intros H. unfold content_of_lines. cbn [item nth].
  now rewrite _get_header_truthy, H.
Qed.

Lemma content_of_lines_plain h t :
  _is_header h = false -> content_of_lines (h :: t) = h :: t.
Proof.
  intros H. unfold content_of_lines. cbn [item nth].
  now rewrite _get_header_truthy, H.
Qed.

Lemma content_not_header sec :
  Forall (fun l => _is_header l = false) (tl sec) ->
  Forall (fun l => _is_header l = false) (content_of_lines sec).
Proof.
  destruct sec as [|h t]; [intros _; constructor|]. simpl. intros H.
  destruct (_is_header h) eqn:E.
  - now rewrite content_of_lines_header.
  - rewrite content_of_lines_plain by exact E. now constructor.
Qed.

Lemma content_snoc h t x :
  content_of_lines ((h :: t) ++ [x]) = content_of_lines (h :: t) ++ [x].
Proof.
  destruct (_is_header h) eqn:E.
  - change ((h :: t) ++ [x]) with (h :: t ++ [x]).
    now rewrite !content_of_lines_header.
  - change ((h :: t) ++ [x]) with (h :: t ++ [x]).
    now rewrite !content_of_lines_plain.
Qed.

Lemma block_content_join sec :
  sec <> [] -> Forall no_newline sec ->
  block_content (join [nl] sec) = content_of_lines sec.
Proof.
  intros Hne Hnl. unfold block_content. now rewrite split_join.
Qed.

Section Counting.

(** The notion of non-blank line: dedenting never makes a blank line
    non-blank, and a header line is not blank. *)
Variable nb : str -> bool.
Hypothesis nb_skipn : forall n l, nb (skipn n l) = true -> nb l = true.
Hypothesis nb_header : forall l, _is_header l = true -> nb l = true.

Lemma seg_close done secs sec :
  seg_inv nb done secs sec ->
  seg_inv nb done
    (if negb (is_whitespace (join [nl] sec))
     then secs ++ [join [nl] sec] else secs) [].
Proof.
  intros (Hnl & Htl & Hsecs & Hcnt).
  assert (Hnil : count nb (content_of_lines []) = 0) by reflexivity.
  destruct (is_whitespace (join [nl] sec)) eqn:E; cbn [negb].
  - repeat split; try constructor; auto.
    change (tl []) with (@nil str). rewrite Hnil. lia.
  - assert (Hne : sec <> []).
    { intros ->. discriminate. }
    repeat split; try constructor.
    + rewrite flat_map_app. apply Forall_app. split; [exact Hsecs|].
      cbn [flat_map]. rewrite app_nil_r.
      rewrite block_content_join by assumption.
      now apply content_not_header.
    + rewrite flat_map_app, count_app. cbn [flat_map].
      rewrite app_nil_r, block_content_join by assumption.
      rewrite Hnil. lia.
Qed.

Lemma seg_start done secs line :
  seg_inv nb done secs [] -> no_newline line ->
  seg_inv nb (done ++ [line]) secs [line].
Proof.
  intros (_ & _ & Hsecs & Hcnt) Hl.
  repeat split; auto; try (constructor; [exact Hl|constructor]);
    try constructor.
  change (content_of_lines []) with (@nil str) in Hcnt.
  rewrite filter_app, count_app. cbn [filter]. unfold not_header at 2.
  destruct (_is_header line) eqn:E; cbn [negb].
  - rewrite content_of_lines_header by exact E.
    unfold count in *. simpl in *. lia.
  - rewrite content_of_lines_plain by exact E.
    unfold count in *. simpl in *. lia.
Qed.

Lemma seg_append done secs sec line i :
  seg_inv nb done secs sec -> no_newline line ->
  _is_header line = false -> _is_header (skipn i line) = false ->
  seg_inv nb (done ++ [line]) secs (sec ++ [skipn i line]).
Proof.
  intros (Hnl & Htl & Hsecs & Hcnt) Hl Hh Hx.
  assert (Hnb : count nb [skipn i line] <= count nb [line]).
  { unfold count. simpl. destruct (nb (skipn i line)) eqn:E; [|simpl; lia].
    now rewrite (nb_skipn _ _ E). }
  assert (Hdone : count nb (filter not_header (done ++ [line]))
                  = count nb (filter not_header done) + count nb [line]).
  { rewrite filter_app, count_app. cbn [filter]. unfold not_header at 2.
    now rewrite Hh. }
  split; [apply Forall_app; split; [exact Hnl|]|].
  { constructor; [now apply no_newline_skipn|constructor]. }
  destruct sec as [|h t].
  - split; [constructor|]. split; [exact Hsecs|].
    cbn [app]. rewrite content_of_lines_plain by exact Hx.
    change (count nb (content_of_lines [])) with 0 in Hcnt. slia.
  - split.
    + cbn [app tl] in *. apply Forall_app. split; [exact Htl|].
      constructor; [exact Hx|constructor].
    + split; [exact Hsecs|]. rewrite content_snoc, count_app. slia.
Qed.

Lemma seg_step lines ln line done self ns self' ns' :
  seg_inv nb done (_sections self) (_section self) ->
  no_newline line ->
  extract_step lines ln line (self, ns) = Return (self', ns') ->
  seg_inv nb (done ++ [line]) (_sections self') (_section self').
Proof.
  intros Hinv Hl. rewrite extract_step_unfold. cbv zeta.
  destruct (lock_sections line (self, ns)) as [Hs1 Hs2].
  cbn [fst] in Hs1, Hs2.
  set (s1 := fst (lock line (self, ns))) in *.
  rewrite <- Hs1, <- Hs2 in Hinv.
  pose proof (seg_close _ _ _ Hinv) as Hclose.
  rewrite <- _end_section_sections in Hclose.
  destruct (_is_header line) eqn:Hh.
  - destruct (_is_indent (_get_next_line lines ln)); [|discriminate].
    intros H. injection H as <- _. rewrite append_after_begin.
    cbn [_sections _section set_section _begin_section set_indent].
    now apply seg_start.
  - destruct (truthy line && (_get_indent line <? _indent s1)) eqn:Hd.
    + intros H. injection H as <- _. rewrite append_after_begin.
      cbn [_sections _section set_section _begin_section set_indent].
      now apply seg_start.
    + intros H. injection H as <- _.
      cbn [_sections _section set_section append_line].
      apply seg_append; auto.
      rewrite <- Hh. now apply kept_line_not_header.
Qed.

Lemma seg_loop lines rest :
  forall ln done st st',
    seg_inv nb done (_sections (fst st)) (_section (fst st)) ->
    Forall no_newline rest ->
    extract_loop lines ln rest st = Return st' ->
    seg_inv nb (done ++ rest) (_sections (fst st')) (_section (fst st')).
Proof.
  induction rest as [|line rest IH]; intros ln done st st' Hinv Hnl H;
    simpl in H.
  - injection H as <-. now rewrite app_nil_r.
  - inversion Hnl as [|? ? Hl Hrest]; subst.
    destruct st as [self ns].
    destruct (extract_step lines ln line (self, ns)) as [[s1 ns1]|e] eqn:E;
      [|discriminate].
    simpl in H.
    replace (done ++ line :: rest) with ((done ++ [line]) ++ rest)
      by now rewrite <- app_assoc.
    apply (IH (S ln) _ (s1, ns1) st'); auto.
    cbn [fst]. now apply (seg_step lines ln line done self ns s1 ns1).
Qed.

Lemma count_split_header (ls : list str) :
  count nb ls = count nb (filter not_header ls) + count _is_header ls.
Proof.
  unfold count, not_header. induction ls as [|l ls IH]; [reflexivity|].
  cbn [filter]. destruct (_is_header l) eqn:E; cbn [negb filter length].
  - rewrite (nb_header l E). cbn [length]. slia.
  - destruct (nb l); cbn [length]; slia.
Qed.

Lemma count_not_header (ls : list str) :
  count nb (filter not_header ls) = count nb ls - count _is_header ls.
Proof. rewrite (count_split_header ls). lia. Qed.

(** The count, for any such notion of non-blank line. *)
Lemma extract_sections_count d self' :
  extract_sections (__init__ d) = Return self' ->
  count nb (flat_map block_content (_sections self'))
  <= count nb (split nl d) - count _is_header (split nl d)
  /\ Forall (fun l => _is_header l = false)
            (flat_map block_content (_sections self')).
Proof.
  unfold extract_sections. cbv zeta. cbn [docstring __init__].
  destruct (extract_loop (split nl d) 0 (split nl d) (__init__ d, true))
    as [st|e] eqn:E; [|discriminate].
  simpl. intros H. injection H as <-.
  cbn [_sections _begin_section set_indent set_section].
  assert (Hinit : seg_inv nb [] (_sections (fst (__init__ d, true)))
                    (_section (fst (__init__ d, true)))).
  { repeat split; try constructor. }
  pose proof (seg_loop _ _ 0 [] _ _ Hinit (split_lines_no_sep nl d) E)
    as Hinv.
  apply seg_close in Hinv. rewrite <- _end_section_sections in Hinv.
  destruct Hinv as (_ & _ & Hsecs & Hcnt).
  split; [|exact Hsecs].
  rewrite <- count_not_header.
  change (count nb (content_of_lines [])) with 0 in Hcnt.
  change ([] ++ split nl d) with (split nl d) in Hcnt. slia.
Qed.

End Counting.

Lemma truthy_skipn (n : nat) (l : str) :
  truthy (skipn n l) = true -> truthy l = true.
Proof. destruct l; [now rewrite skipn_nil|reflexivity]. Qed.

Lemma not_whitespace_skipn (n : nat) (l : str) :
  negb (is_whitespace (skipn n l)) = true -> negb (is_whitespace l) = true.
Proof.
  destruct (is_whitespace l) eqn:E; [|reflexivity].
  now rewrite (is_whitespace_skipn n l E).
Qed.

Lemma header_not_whitespace (l : str) :
  _is_header l = true -> negb (is_whitespace l) = true.
Proof. intros H. now rewrite (_is_header_not_whitespace l H). Qed.

(** C2.  The content of a section block is what [parse_section] reads of it:
    its lines after the header line.  Over all emitted blocks, the number of
    non-blank content lines is at most the number of non-blank lines of the
    docstring minus the number of its header lines, whether non-blank means
    not empty or not whitespace-only; and no content line is a header
    line. *)
Theorem header_lines_leave_content d self' :
  extract_sections (__init__ d) = Return self' ->
  let lines := split nl d in
  let contents := flat_map block_content (_sections self') in
  count truthy contents <= count truthy lines - count _is_header lines
  /\ count (fun l => negb (is_whitespace l)) contents
     <= count (fun l => negb (is_whitespace l)) lines - count _is_header lines
  /\ Forall (fun l => _is_header l = false) contents.
Proof.
  intros H. cbv zeta.
  destruct (extract_sections_count truthy truthy_skipn _is_header_truthy
              d self' H) as [H1 H3].
  destruct (extract_sections_count (fun l => negb (is_whitespace l))
              not_whitespace_skipn header_not_whitespace d self' H)
    as [H2 _].
  auto.
Qed.

Lemma header_lines_leave_content_witness :
  exists self',
    extract_sections (__init__ sample_doc) = Return self'
    /\ count truthy (flat_map block_content (_sections self'))
       <= count truthy (split nl sample_doc)
          - count _is_header (split nl sample_doc).
Proof.
  destruct (extract_sections (__init__ sample_doc)) as [self'|e] eqn:E;
    [|vm_compute in E; discriminate].
  exists self'. split; [reflexivity|].
  exact (proj1 (header_lines_leave_content sample_doc self' E)).
Defined.

(* ================================================================= *)
(** ** Docstrings without headers *)

Lemma plain_close self :
  plain_inv self -> plain_inv (_begin_section (_end_section self)).
Proof.
  intros (Hnl & Hh & Hs). unfold plain_inv.
  cbn [_section _sections _begin_section set_indent set_section].
  split; [constructor|]. split; [constructor|].
  rewrite _end_section_sections.
  destruct (is_whitespace (join [nl] (_section self))) eqn:E; cbn [negb];
    [exact Hs|].
  apply Forall_app. split; [exact Hs|]. constructor; [|constructor].
  assert (Hne : _section self <> []).
  { intros Heq. rewrite Heq in E. discriminate. }
  rewrite split_join by assumption.
  destruct (_section self) as [|h t]; [contradiction|].
  now inversion Hh.
Qed.

Lemma plain_append self x :
  plain_inv self -> no_newline x -> _is_header x = false ->
  plain_inv (set_section (_section self ++ [x]) self).
Proof.
  intros (Hnl & Hh & Hs) Hx Hhx. unfold plain_inv.
  cbn [_section _sections set_section].
  repeat split; auto; apply Forall_app; split; auto.
Qed.

Lemma plain_lock line st :
  plain_inv (fst st) -> plain_inv (fst (lock line st)).
Proof.
  unfold lock. destruct (snd st && _is_indent line); auto.
Qed.

Lemma plain_step lines ln line st :
  plain_inv (fst st) -> no_newline line -> _is_header line = false ->
  exists st', extract_step lines ln line st = Return st' /\ plain_inv (fst st').
Proof.
  intros Hinv Hl Hh. rewrite (extract_step_plain _ _ _ _ Hh). cbv zeta.
  apply (plain_lock line) in Hinv.
  destruct (truthy line && _) eqn:Hd; eexists; (split; [reflexivity|]);
    cbn [fst].
  - apply (plain_append (_begin_section (_end_section (fst (lock line st))))).
    + now apply plain_close.
    + exact Hl.
    + exact Hh.
  - apply plain_append; [exact Hinv|now apply no_newline_skipn|].
    now rewrite kept_line_not_header.
Qed.

Lemma plain_loop lines rest :
  forall ln st,
    plain_inv (fst st) -> Forall no_newline rest ->
    Forall (fun l => _is_header l = false) rest ->
    exists st', extract_loop lines ln rest st = Return st'
                /\ plain_inv (fst st').
Proof.
  induction rest as [|line rest IH]; intros ln st Hinv Hnl Hh; simpl.
  - eauto.
  - inversion Hnl; inversion Hh; subst.
    destruct (plain_step lines ln line st) as (st1 & -> & Hinv1); auto.
    simpl. now apply IH.
Qed.

(** On a docstring without headers, segmentation returns and every emitted
    section starts with a line that is not a header. *)
Lemma plain_sections d :
  Forall (fun l => _is_header l = false) (split nl d) ->
  exists self',
    extract_sections (__init__ d) = Return self' /\ plain_inv self'.
Proof.
  intros Hh. unfold extract_sections. cbv zeta. cbn [docstring __init__].
  destruct (plain_loop (split nl d) (split nl d) 0 (__init__ d, true))
    as (st & -> & Hinv); auto.
  - repeat split; constructor.
  - apply split_lines_no_sep.
  - simpl. eexists. split; [reflexivity|]. now apply plain_close.
Qed.

Lemma forallb_snoc (p : str -> bool) (ls : list str) (x : str) :
  forallb p (ls ++ [x]) = forallb p ls && p x.
Proof. rewrite forallb_app. simpl. now rewrite andb_true_r. Qed.

Lemma steady_step lines ln line done rest st :
  _is_header line = false ->
  steady_inv done (line :: rest) st ->
  exists st', extract_step lines ln line st = Return st'
              /\ steady_inv (done ++ [line]) rest st'.
Proof.
  intros Hh (Hs & Hw & Hph). rewrite (extract_step_plain _ _ _ _ Hh).
  cbv zeta. destruct st as [self ns]. cbn [fst snd] in *. unfold lock.
  cbn [fst snd]. destruct ns; cbn [andb].
  - destruct Hph as [Hi Hnd]. cbn [no_indent_drop] in Hnd.
    destruct (_is_indent line) eqn:Ei; cbn [fst snd _indent set_indent].
    + rewrite Nat.ltb_irrefl, andb_false_r.
      eexists. split; [reflexivity|]. unfold steady_inv.
      cbn [fst snd append_line _sections _section _indent set_section
             set_indent].
      split; [exact Hs|]. split; [|exact Hnd].
      rewrite !forallb_snoc, Hw. f_equal.
      apply kept_line_whitespace.
      now rewrite Nat.ltb_irrefl, andb_false_r.
    + rewrite Hi. cbn [Nat.ltb Nat.leb]. rewrite andb_false_r.
      eexists. split; [reflexivity|]. unfold steady_inv.
      cbn [fst snd append_line _sections _section _indent set_section].
      split; [exact Hs|]. split; [|now split].
      rewrite !forallb_snoc, Hw, Hi. reflexivity.
  - inversion Hph as [|? ? Hline Hrest]; subst.
    assert (Hk : truthy line && (_get_indent line <? _indent self) = false).
    { destruct Hline as [->|Hle]; [reflexivity|].
      apply andb_false_iff. right. now apply Nat.ltb_ge. }
    cbn [fst snd]. rewrite Hk. eexists. split; [reflexivity|].
    unfold steady_inv.
    cbn [fst snd append_line _sections _section _indent set_section].
    split; [exact Hs|]. split; [|exact Hrest].
    rewrite !forallb_snoc, Hw. f_equal. now apply kept_line_whitespace.
Qed.

Lemma steady_loop lines rest :
  forall ln done st,
    Forall (fun l => _is_header l = false) rest ->
    steady_inv done rest st ->
    exists st', extract_loop lines ln rest st = Return st'
                /\ steady_inv (done ++ rest) [] st'.
Proof.
  induction rest as [|line rest IH]; intros ln done st Hh Hinv; simpl.
  - rewrite app_nil_r. eauto.
  - inversion Hh; subst.
    destruct (steady_step lines ln line done rest st) as (st1 & -> & Hinv1);
      auto.
    simpl. replace (done ++ line :: rest) with ((done ++ [line]) ++ rest)
      by now rewrite <- app_assoc.
    now apply IH.
Qed.

(** Without headers and without indent drop, one section comes out, or none
    when the docstring is whitespace-only. *)
Lemma steady_sections d self' :
  Forall (fun l => _is_header l = false) (split nl d) ->
  no_indent_drop (split nl d) ->
  extract_sections (__init__ d) = Return self' ->
  length (_sections self') = if is_whitespace d then 0 else 1.
Proof.
  intros Hh Hnd. unfold extract_sections. cbv zeta. cbn [docstring __init__].
  destruct (steady_loop (split nl d) (split nl d) 0 [] (__init__ d, true))
    as (st & -> & Hs & Hw & _); auto.
  { repeat split; auto. }
  simpl. intros H. injection H as <-.
  cbn [_sections _begin_section set_indent set_section].
  rewrite _end_section_sections, Hs, is_whitespace_join, Hw.
  cbn [app]. rewrite <- is_whitespace_join, join_split.
  now destruct (is_whitespace d).
Qed.

(** C1, as the code has it.  On a docstring in which no line is a header,
    segmentation returns, and every emitted section parses to the empty
    header.  Exactly one section is emitted when, moreover, the docstring is
    not whitespace-only and has no indent drop (after its first indented
    line, every line that is not empty is indented at least as deep); a
    whitespace-only docstring without indent drop yields no section. *)
Theorem headerless_docstring_sections d :
  Forall (fun l => _is_header l = false) (split nl d) ->
  exists self',
    extract_sections (__init__ d) = Return self'
    /\ (forall s self0,
           In s (_sections self') ->
           exists out self1,
             parse_section s self0 = Some (out, self1) /\ header out = [])
    /\ (no_indent_drop (split nl d) ->
        length (_sections self') = if is_whitespace d then 0 else 1).
Proof.
  intros Hh. destruct (plain_sections d Hh) as (self' & E & _ & _ & Hs).
  exists self'. split; [exact E|]. split.
  - intros s self0 Hin.
    destruct (parse_section_returns s self0) as (out & n & -> & Hc).
    exists out, (set_linenum n self0). split; [reflexivity|].
    rewrite (parse_section_cursor_header _ _ _ Hc).
    apply _get_header_not_header.
    rewrite Forall_forall in Hs. now apply Hs.
  - intros Hnd. now apply steady_sections.
Qed.

Lemma headerless_docstring_sections_witness :
  exists self',
    extract_sections (__init__ (doc [py "Summary."; py "    more"]))
    = Return self'
    /\ length (_sections self') = 1.
Proof.
  assert (Hh : Forall (fun l => _is_header l = false)
                 (split nl (doc [py "Summary."; py "    more"]))).
  { repeat constructor. }
  destruct (headerless_docstring_sections _ Hh) as (self' & E & _ & Hn).
  exists self'. split; [exact E|]. apply Hn. simpl. repeat constructor.
Defined.

(** C1, counterexample.  The empty docstring has no header line and yields no
    section; a docstring without headers whose second line is indented less
    than its first yields two. *)
Lemma headerless_docstring_not_one_section :
  (Forall (fun l => _is_header l = false) (split nl [])
   /\ exists self',
        extract_sections (__init__ []) = Return self'
        /\ _sections self' = [])
  /\ (Forall (fun l => _is_header l = false)
        (split nl (doc [py "    foo"; py "bar"]))
      /\ exists self',
           extract_sections (__init__ (doc [py "    foo"; py "bar"]))
           = Return self'
           /\ _sections self' = [py "foo"; py "bar"]).
Proof.
  split; (split; [repeat constructor|eexists; split; reflexivity]).
Qed.

(* ================================================================= *)
(** ** Parsing twice *)

Lemma reframe_end dat m p self :
  _end_section (reframe dat m p self) = reframe dat m p (_end_section self).
Proof.
  unfold _end_section, reframe. cbv zeta. cbn [_section].
  destruct (truthy (strip (join [nl] (_section self)))); [|reflexivity].
  cbn. now rewrite app_assoc.
Qed.

Lemma reframe_begin dat m p self :
  _begin_section (reframe dat m p self) = reframe dat m p (_begin_section self).
Proof. reflexivity. Qed.

Lemma reframe_append dat m p line self :
  append_line line (reframe dat m p self)
  = reframe dat m p (append_line line self).
Proof. reflexivity. Qed.

Lemma reframe_lock dat m p line self ns :
  lock line (reframe dat m p self, ns)
  = (reframe dat m p (fst (lock line (self, ns))), snd (lock line (self, ns))).
Proof.
  unfold lock. cbn [fst snd]. now destruct (ns && _is_indent line).
Qed.

(** Segmentation does not read [data], [_linenum] or the sections emitted
    earlier: it appends to them. *)
Lemma extract_step_reframe dat m p lines ln line self ns :
  extract_step lines ln line (reframe dat m p self, ns)
  = match extract_step lines ln line (self, ns) with
    | Return (s', ns') => Return (reframe dat m p s', ns')
    | Raise e => Raise e
    end.
Proof.
  rewrite !extract_step_unfold. cbv zeta. rewrite reframe_lock.
  cbn [fst snd].
  set (s1 := fst (lock line (self, ns))).
  set (n1 := snd (lock line (self, ns))).
  rewrite reframe_end, reframe_begin, !reframe_append.
  change (_indent (reframe dat m p s1)) with (_indent s1).
  destruct (_is_header line).
  - now destruct (_is_indent (_get_next_line lines ln)).
  - now destruct (truthy line && (_get_indent line <? _indent s1)).
Qed.

Lemma extract_loop_reframe dat m p lines rest :
  forall ln self ns,
    extract_loop lines ln rest (reframe dat m p self, ns)
    = match extract_loop lines ln rest (self, ns) with
      | Return (s', ns') => Return (reframe dat m p s', ns')
      | Raise e => Raise e
      end.
Proof.
  induction rest as [|line rest IH]; intros ln self ns; cbn [extract_loop];
    [reflexivity|].
  rewrite extract_step_reframe.
  destruct (extract_step lines ln line (self, ns)) as [[s1 n1]|e];
    [|reflexivity].
  cbn [bind]. apply IH.
Qed.

Lemma extract_sections_reframe dat m p self :
  extract_sections (reframe dat m p self)
  = match extract_sections self with
    | Return s' => Return (reframe dat m p s')
    | Raise e => Raise e
    end.
Proof.
  unfold extract_sections. cbv zeta.
  change (docstring (reframe dat m p self)) with (docstring self).
  rewrite extract_loop_reframe.
  destruct (extract_loop _ _ _ (self, true)) as [[s1 n1]|e]; [|reflexivity].
  simpl. now rewrite reframe_end, reframe_begin.
Qed.

(** What segmentation leaves in the object. *)
Lemma extract_step_keeps lines ln line self ns s' ns' :
  extract_step lines ln line (self, ns) = Return (s', ns') ->
  docstring s' = docstring self /\ data s' = data self
  /\ _linenum s' = _linenum self.
Proof.
  rewrite extract_step_unfold. cbv zeta.
  assert (Hl : docstring (fst (lock line (self, ns))) = docstring self
               /\ data (fst (lock line (self, ns))) = data self
               /\ _linenum (fst (lock line (self, ns))) = _linenum self).
  { unfold lock. cbn [fst snd]. now destruct (ns && _is_indent line). }
  set (s1 := fst (lock line (self, ns))) in *.
  destruct (_end_section_other s1) as (_ & _ & Hd & Hda & Hli).
  destruct Hl as (L1 & L2 & L3).
  destruct (_is_header line).
  - destruct (_is_indent (_get_next_line lines ln)); [|discriminate].
    intros H. injection H as <- _. cbn. now rewrite Hd, Hda, Hli.
  - destruct (truthy line && _); intros H; injection H as <- _; cbn;
      [now rewrite Hd, Hda, Hli|auto].
Qed.

Lemma extract_loop_keeps lines rest :
  forall ln st st',
    extract_loop lines ln rest st = Return st' ->
    docstring (fst st') = docstring (fst st)
    /\ data (fst st') = data (fst st)
    /\ _linenum (fst st') = _linenum (fst st).
Proof.
  induction rest as [|line rest IH]; intros ln st st' H; simpl in H.
  - injection H as <-. auto.
  - destruct st as [self ns].
    destruct (extract_step lines ln line (self, ns)) as [[s1 n1]|e] eqn:E;
      [|discriminate].
    simpl in H. apply IH in H. apply extract_step_keeps in E.
    cbn [fst] in *. destruct H as (-> & -> & ->). exact E.
Qed.

Lemma extract_sections_shape self s' :
  extract_sections self = Return s' ->
  s' = mkObj (docstring self) (data self) [] 0 (_linenum self) (_sections s').
Proof.
  unfold extract_sections. cbv zeta.
  destruct (extract_loop _ _ _ (self, true)) as [st|e] eqn:E; [|discriminate].
  simpl. intros H. injection H as <-.
  apply extract_loop_keeps in E. cbn [fst] in E. destruct E as (E1 & E2 & E3).
  destruct (_end_section_other (fst st)) as (_ & _ & Hd & Hda & Hli).
  unfold _begin_section, set_indent, set_section. cbn.
  now rewrite Hd, Hda, Hli, E1, E2, E3.
Qed.

(** C10.  When [parse] has returned on a fresh object, calling it again on
    that object returns every parsed section twice, in the same order:
    [extract_sections] appends to [_sections] what is already there.  So
    [parse] is not idempotent as soon as it returns one section. *)
Theorem second_parse_doubles d data1 self1 :
  parse (__init__ d) = Some (Return (data1, self1)) ->
  (exists self2, parse self1 = Some (Return (data1 ++ data1, self2)))
  /\ (data1 <> [] -> data1 ++ data1 <> data1).
Proof.
  intros H. split.
  - unfold parse in H. cbv zeta in H.
    change (set_data [] (__init__ d)) with (__init__ d) in H.
    destruct (extract_sections (__init__ d)) as [s1|e] eqn:E; [|discriminate].
    pose proof (extract_sections_shape _ _ E) as Hs1.
    cbn [docstring data _linenum __init__] in Hs1.
    destruct (parse_loop_spec (_sections s1) s1) as (n & Hp).
    rewrite Hp in H. injection H as <- <-.
    rewrite Hs1. cbn [data set_data set_linenum _sections app].
    set (S1 := _sections s1).
    unfold parse. cbv zeta.
    change (set_data [] _)
      with (mkObj d [] [] 0 n S1).
    replace (mkObj d [] [] 0 n S1) with (reframe [] n S1 (__init__ d))
      by (unfold reframe; cbn; now rewrite app_nil_r).
    rewrite extract_sections_reframe, E.
    destruct (parse_loop_spec (_sections (reframe [] n S1 s1))
                (reframe [] n S1 s1)) as (n2 & ->).
    eexists. cbn [data set_data reframe _sections app]. fold S1.
    now rewrite outs_of_app.
  - intros Hne Heq. apply (f_equal (@length _)) in Heq.
    rewrite length_app in Heq. destruct data1; [contradiction|].
    simpl in Heq. lia.
Qed.

Lemma second_parse_doubles_witness :
  exists data1 self1 self2,
    parse (__init__ sample_doc) = Some (Return (data1, self1))
    /\ parse self1 = Some (Return (data1 ++ data1, self2))
    /\ length data1 = 3.
Proof.
  destruct (parse (__init__ sample_doc)) as [[[data1 self1]|e]|] eqn:E;
    try (vm_compute in E; discriminate).
  destruct (second_parse_doubles sample_doc data1 self1 E) as [[self2 H] _].
  exists data1, self1, self2. split; [reflexivity|]. split; [exact H|].
  vm_compute in E. injection E as <- _. reflexivity.
Defined.

(* ================================================================= *)
(** ** After an indent drop *)

(** C3, what the code does.  A non-empty line that is not a header and is
    indented less than the threshold closes the pending section and opens a
    section that holds the line in full, with threshold 0; the new-section
    flag is left as it was, [False] once a threshold is locked, so the
    threshold is not locked again before the next header.  On [drop_doc] the
    indented line after the drop keeps its four spaces and the line after it
    stays in the same section. *)
Theorem indent_drop_does_not_relock :
  (forall lines ln line self,
      _is_header line = false -> truthy line = true ->
      _get_indent line < _indent self ->
      extract_step lines ln line (self, false)
      = Return (set_section [line] (_begin_section (_end_section self)),
                false))
  /\ exists self',
       extract_sections (__init__ drop_doc) = Return self'
       /\ _sections self'
          = [doc [py "Args:"; py "x: 1"];
             doc [py "foo"; py "    bar"; py "baz"]].
Proof.
  split.
  - intros lines ln line self Hh Ht Hlt.
    rewrite (extract_step_plain _ _ _ _ Hh). cbv zeta.
    unfold lock. cbn [fst snd andb].
    apply Nat.ltb_lt in Hlt. rewrite Ht, Hlt. reflexivity.
  - eexists. split; reflexivity.
Qed.

Lemma indent_drop_does_not_relock_witness :
  let self := mkObj drop_doc [] [py "Args:"; py "x: 1"] 4 0 [] in
  extract_step (split nl drop_doc) 2 (py "foo") (self, false)
  = Return (set_section [py "foo"] (_begin_section (_end_section self)), false).
Proof.
  cbv zeta.
  apply (proj1 indent_drop_does_not_relock); [reflexivity|reflexivity|].
  vm_compute. lia.
Defined.

(* ================================================================= *)
(** ** More on the matcher *)

Lemma adv_false (pre : str) : adv false pre = false.
Proof. now destruct pre. Qed.

Lemma lead_app_stop (p : ascii -> bool) (w : str) (c : ascii) (r : str) :
  forallb p w = true -> p c = false -> lead p (w ++ c :: r) = length w.
Proof.
  intros Hw Hc. induction w as [|d w IH]; simpl in *; [now rewrite Hc|].
  apply andb_true_iff in Hw. destruct Hw as [Hd Hw]. rewrite Hd.
  now rewrite IH.
Qed.

Lemma lead_all (p : ascii -> bool) (w : str) :
  forallb p w = true -> lead p w = length w.
Proof.
  intros Hw. induction w as [|d w IH]; simpl in *; [reflexivity|].
  apply andb_true_iff in Hw. destruct Hw as [Hd Hw]. rewrite Hd.
  now rewrite IH.
Qed.

Lemma firstn_length_app (a b : str) : firstn (length a) (a ++ b) = a.
Proof.
  rewrite firstn_app, Nat.sub_diag, firstn_all. simpl. apply app_nil_r.
Qed.

Lemma skipn_length_app (a b : str) : skipn (length a) (a ++ b) = b.
Proof.
  rewrite skipn_app, Nat.sub_diag, skipn_all. reflexivity.
Qed.

(** A literal in front of the text it spells. *)
Lemma lit_complete (w : str) :
  forall bol s cs k, run (lit w) bol (w ++ s) cs k = k (adv bol w) s cs.
Proof.
  induction w as [|c w IH]; intros bol s cs k; simpl; [reflexivity|].
  rewrite Ascii.eqb_refl, IH. now rewrite adv_false.
Qed.

(** An alternation of literals in front of the text of one of them finds
    some match as soon as the continuation accepts after that one. *)
Lemma alts_complete (ws : list str) :
  forall w w' bol s cs k r,
    In w' (w :: ws) -> k (adv bol w') s cs = Some r ->
    exists r', run (alts w ws) bol (w' ++ s) cs k = Some r'.
Proof.
  induction ws as [|w1 ws IH]; intros w w' bol s cs k r Hin Hk; simpl.
  - destruct Hin as [<-|[]]. rewrite lit_complete. eauto.
  - destruct (run (lit w) bol (w' ++ s) cs k) eqn:E; [eauto|].
    destruct Hin as [<-|Hin].
    + rewrite lit_complete in E. congruence.
    + now apply (IH w1 w' bol s cs k r).
Qed.

(** [a*] in front of a continuation that always accepts. *)
Lemma star_atom_accepting (a : atom) (g : str -> caps) (s : str) (bol : bool) :
  star_atom a bol s (fun _ s' => Some (g s'))
  = Some (g (skipn (lead (atom_ok a) s) s)).
Proof. exact (rep_atom_accepting a g 0 s bol). Qed.

(** [a*] gives back everything when the continuation rejects whatever is
    left after a non-empty run. *)
Lemma star_atom_refused (a : atom) (s : str) :
  forall bol k,
    (forall s1 s2, s = s1 ++ s2 -> s1 <> [] -> k false s2 = None) ->
    star_atom a bol s k = k bol s.
Proof.
  induction s as [|c s IH]; intros bol k H; simpl; [reflexivity|].
  destruct (atom_ok a c); [|reflexivity].
  rewrite IH.
  - now rewrite (H [c] s eq_refl) by discriminate.
  - intros s1 s2 -> Hne. apply (H (c :: s1) s2); [reflexivity|discriminate].
Qed.

(** [a*] takes a run of [a] in front of a place where the match goes
    through. *)
Lemma star_atom_through (a : atom) (pre : str) :
  forall bol s k r,
    forallb (atom_ok a) pre = true ->
    star_atom a (adv bol pre) s k = Some r ->
    star_atom a bol (pre ++ s) k = Some r.
Proof.
  induction pre as [|c pre IH]; intros bol s k r Hp H; simpl in *;
    [exact H|].
  apply andb_true_iff in Hp. destruct Hp as [Hc Hp]. rewrite Hc.
  rewrite (IH false s k r Hp); [reflexivity|]. now rewrite adv_false.
Qed.

Lemma search_from_here (r : regex) (bol : bool) (s : str) (cs : caps) :
  match_here r bol s = Some cs -> search_from r bol s = Some cs.
Proof. intros H. destruct s; simpl; now rewrite H. Qed.

(** A match at some position makes the search succeed, there or earlier. *)
Lemma search_from_hit (r : regex) (pre : str) :
  forall bol s,
    match_here r (adv bol pre) s <> None ->
    search_from r bol (pre ++ s) <> None.
Proof.
  induction pre as [|c pre IH]; intros bol s H.
  - simpl in *. destruct (match_here r bol s) eqn:E; [|contradiction].
    now rewrite (search_from_here _ _ _ _ E).
  - simpl. destruct (match_here r bol (c :: pre ++ s)); [discriminate|].
    apply IH. now rewrite adv_false.
Qed.

Lemma no_newline_dot (s : str) :
  no_newline s -> forallb (atom_ok ADot) s = true.
Proof.
  unfold no_newline. induction s as [|c s IH]; intros H; [reflexivity|].
  simpl. rewrite IH by (intros Hin; apply H; now right).
  destruct (Ascii.eqb c nl) eqn:E; [|reflexivity].
  apply Ascii.eqb_eq in E. exfalso. apply H. now left.
Qed.

Lemma consumed_all (s : str) : consumed s [] = s.
Proof. rewrite <- (app_nil_r s) at 1. apply consumed_app. Qed.

(** [.*] at the end of the field pattern takes the rest of a line. *)
Lemma star_dot_rest (bol : bool) (s : str) (cs : caps) :
  no_newline s ->
  star_atom ADot bol s (fun b' s' => accept b' s' ((3, consumed s s') :: cs))
  = Some ((3, s) :: cs).
Proof.
  intros H.
  change (fun (b' : bool) (s' : str) => accept b' s' ((3, consumed s s') :: cs))
    with (fun (_ : bool) (s' : str) => Some ((3, consumed s s') :: cs)).
  rewrite (star_atom_accepting ADot (fun s' => (3, consumed s s') :: cs)).
  rewrite (lead_all _ _ (no_newline_dot s H)), skipn_all.
  now rewrite consumed_all.
Qed.

(* ================================================================= *)
(** ** Lines, classified *)

(** X1.  The indent depth of a line is the number of its leading whitespace
    characters when there are at least four of them, and 0 otherwise: fewer
    than four leading whitespace characters count as no indent.  So a line
    is indented exactly when it opens with four whitespace characters; the
    depth is 0 or at least 4, never more than the length of the line, and
    the characters it counts are whitespace. *)
Theorem indent_depth_is_whitespace_run (l : str) :
  _get_indent l = (if 4 <=? ws_run l then ws_run l else 0)
  /\ (_is_indent l = true <-> 4 <= ws_run l)
  /\ (_get_indent l = 0 \/ 4 <= _get_indent l)
  /\ _get_indent l <= length l
  /\ forallb isspace (firstn (_get_indent l) l) = true.
Proof.
  pose proof (_get_indent_spec l) as Hs. unfold config_indent in Hs.
  split; [exact Hs|]. split.
  - rewrite _is_indent_spec. unfold config_indent. apply Nat.leb_le.
  - rewrite Hs. destruct (4 <=? ws_run l) eqn:E.
    + apply Nat.leb_le in E. split; [now right|].
      split; [apply lead_le_length|]. clear. unfold ws_run.
      induction l as [|c l IH]; [reflexivity|].
      simpl. destruct (isspace c) eqn:Ec; simpl; [now rewrite Ec|reflexivity].
    + split; [now left|]. split; [lia|reflexivity].
Qed.

Lemma no_colon_prefix (c : ascii) (a : str) :
  forall a' r r',
    ~ In c a -> ~ In c a' -> a ++ c :: r = a' ++ c :: r' -> a = a'.
Proof.
  induction a as [|x a IH]; intros [|y a'] r r' Ha Ha' H; simpl in *.
  - reflexivity.
  - injection H as <- _. exfalso. apply Ha'. now left.
  - injection H as -> _. exfalso. apply Ha. now left.
  - injection H as -> H. f_equal.
    apply (IH a' r r'); auto.
Qed.

Lemma keywords_no_delimiter (w : str) : In w keywords -> ~ In ":"%char w.
Proof.
  unfold keywords, config_headers; simpl. intros H.
  repeat (destruct H as [<-|H];
          [simpl; intros Hin;
           repeat (destruct Hin as [Hin|Hin]; [discriminate|]);
           contradiction|]).
  contradiction.
Qed.

(** A keyword and the delimiter after the leading whitespace make the
    header pattern match, with that keyword in group 1. *)
Lemma header_tail_complete (kw rest : str) :
  In kw keywords ->
  header_tail (kw ++ config_delimiter ++ rest) = Some [(1, kw)].
Proof.
  intros Hin.
  destruct (header_tail (kw ++ config_delimiter ++ rest)) as [cs|] eqn:E.
  - apply header_tail_sound in E.
    destruct E as (w & s' & Hw & Hs & ->).
    change (config_delimiter ++ rest) with (":"%char :: rest) in Hs.
    change (config_delimiter ++ s') with (":"%char :: s') in Hs.
    apply no_colon_prefix in Hs;
      [now subst|now apply keywords_no_delimiter..].
  - exfalso. revert E. unfold header_tail, header_rest. cbn [run].
    match goal with
    | |- run _ _ _ _ ?k = None -> _ =>
        destruct (alts_complete (snd config_headers) (fst config_headers)
                    kw false (config_delimiter ++ rest) [] k
                    [(1, consumed (kw ++ config_delimiter ++ rest)
                           (config_delimiter ++ rest))])
          as (r' & ->); [exact Hin| |discriminate]
    end.
    cbv beta. rewrite lit_complete.
    apply (star_atom_accepting ASpace
             (fun _ => [(1, consumed (kw ++ config_delimiter ++ rest)
                              (config_delimiter ++ rest))])).
Qed.

(** X2.  A line is a header exactly when, after its leading whitespace, it
    opens with one of the keywords followed by the delimiter [:]; the header
    returned is that keyword, and the empty string for any other line.  A
    keyword further inside the line does not make a header. *)
Theorem header_line_shape (l : str) :
  (_is_header l = true
   <-> exists kw rest,
         In kw keywords /\ lstrip l = kw ++ config_delimiter ++ rest)
  /\ (forall kw rest,
        In kw keywords -> lstrip l = kw ++ config_delimiter ++ rest ->
        _get_header l = kw)
  /\ (_is_header l = false -> _get_header l = []).
Proof.
  unfold _is_header, _get_header. rewrite search_header_lstrip.
  split; [split|split].
  - destruct (header_tail (lstrip l)) as [cs|] eqn:E; [intros _|discriminate].
    apply header_tail_sound in E. destruct E as (w & s' & Hw & Hs & _).
    now exists w, s'.
  - intros (kw & rest & Hin & ->). now rewrite header_tail_complete.
  - intros kw rest Hin ->. now rewrite header_tail_complete.
  - now destruct (header_tail (lstrip l)).
Qed.

Lemma header_line_shape_witness :
  In (py "Returns") keywords
  /\ lstrip (py "  Returns: a value")
     = py "Returns" ++ config_delimiter ++ py " a value"
  /\ _get_header (py "  Returns: a value") = py "Returns".
Proof.
  assert (Hin : In (py "Returns") keywords) by (simpl; tauto).
  split; [exact Hin|]. split; [reflexivity|].
  exact (proj1 (proj2 (header_line_shape (py "  Returns: a value")))
           (py "Returns") (py " a value") Hin eq_refl).
Defined.

(* ================================================================= *)
(** ** Field lines, recognised *)

Lemma match_arg_at_delimiter (b0 : bool) (rest : str) :
  match_here _compile_arg b0 (config_arg_delimiter ++ rest) <> None.
Proof.
  unfold match_here, _compile_arg. cbn [run].
  change (config_arg_delimiter ++ rest) with (":"%char :: " "%char :: rest).
  cbn [star_atom].
  change (atom_ok AWord ":") with false. cbv iota.
  change (atom_ok ASpace ":") with false. cbv iota.
  change (atom_ok (ALit "(") ":") with false. cbv iota.
  change (":"%char :: " "%char :: rest) with (config_arg_delimiter ++ rest).
  rewrite lit_complete.
  match goal with
  | |- star_atom ADot ?b rest (fun b' s' => accept b' s' (@?g s')) <> None =>
      change (star_atom ADot b rest (fun _ s' => Some (g s')) <> None);
      rewrite (star_atom_accepting ADot g)
  end.
  discriminate.
Qed.

(** X3.  The field pattern finds something in a line exactly when the line
    contains the delimiter, a colon followed by a space, wherever it stands:
    name and signature may both be empty. *)
Theorem field_line_has_delimiter (l : str) :
  (_is_arg l = true <-> occurs_in config_arg_delimiter l)
  /\ (_get_arg l = None <-> ~ occurs_in config_arg_delimiter l).
Proof.
  assert (Hhit : occurs_in config_arg_delimiter l ->
                 search _compile_arg l <> None).
  { intros (a & b & ->). apply search_from_hit. apply match_arg_at_delimiter. }
  assert (Hocc : forall cs, search _compile_arg l = Some cs ->
                            occurs_in config_arg_delimiter l).
  { intros cs E.
    assert (G : _get_arg l
                = Some (group_str cs 1, group_str cs 2, group_str cs 3)).
    { unfold _get_arg. now rewrite E. }
    apply _get_arg_sound in G.
    destruct G as (pre & ws1 & ws2 & tail & -> & _).
    exists (pre ++ group_str cs 1 ++ ws1 ++ group_str cs 2 ++ ws2),
      (group_str cs 3 ++ tail).
    now rewrite <- !app_assoc. }
  unfold _is_arg, _get_arg.
  destruct (search _compile_arg l) as [cs|] eqn:E.
  - pose proof (Hocc cs eq_refl) as Ho. split; split; auto.
    + discriminate.
    + intros H. contradiction.
  - split; split; auto.
    + discriminate.
    + intros H. exfalso. exact (Hhit H eq_refl).
    + intros _ H. exact (Hhit H eq_refl).
Qed.

Lemma space_not_word (c : ascii) : isspace c = true -> isword c = false.
Proof.
  destruct c as [[|] [|] [|] [|] [|] [|] [|] [|]];
    intros H; try reflexivity; discriminate H.
Qed.

Lemma arg_after_sig_run (b : bool) (ws desc : str) (cs : caps) :
  forallb isspace ws = true -> no_newline desc ->
  run arg_after_sig b (ws ++ config_arg_delimiter ++ desc) cs accept
  = Some ((3, desc) :: cs).
Proof.
  intros Hws Hd. unfold arg_after_sig. cbn [run].
  apply star_atom_max.
  change (config_arg_delimiter ++ desc) with (":"%char :: " "%char :: desc).
  rewrite (lead_app_stop _ ws ":"%char _ Hws eq_refl).
  rewrite firstn_length_app, skipn_length_app.
  change (":"%char :: " "%char :: desc) with (config_arg_delimiter ++ desc).
  rewrite lit_complete. cbn [run]. now apply star_dot_rest.
Qed.

(** A field line without signature. *)
Lemma arg_rest_plain (b : bool) (ws desc : str) (cs : caps) :
  forallb isspace ws = true -> no_newline desc ->
  run arg_rest b (ws ++ config_arg_delimiter ++ desc) cs accept
  = Some ((3, desc) :: cs).
Proof.
  intros Hws Hd. unfold arg_rest. cbn [run].
  apply star_atom_max.
  change (config_arg_delimiter ++ desc) with (":"%char :: " "%char :: desc).
  rewrite (lead_app_stop _ ws ":"%char _ Hws eq_refl).
  rewrite firstn_length_app, skipn_length_app.
  unfold arg_sig. cbn [run].
  change (atom_ok (ALit "(") ":") with false. cbv iota.
  exact (arg_after_sig_run _ [] desc cs eq_refl Hd).
Qed.

(** A field line with a signature: the greedy [.*] of the signature group
    comes back to the last closing parenthesis, the one in front of the
    delimiter when the description has none. *)
Lemma arg_rest_sig (b : bool) (ws1 body ws2 desc : str) (cs : caps) :
  forallb isspace ws1 = true -> forallb isspace ws2 = true ->
  no_newline body -> no_newline desc -> ~ In ")"%char desc ->
  run arg_rest b
    (ws1 ++ "("%char :: body ++ ")"%char :: ws2 ++ config_arg_delimiter ++ desc)
    cs accept
  = Some ((3, desc) :: (2, "("%char :: body ++ [")"%char]) :: cs).
Proof.
  intros Hw1 Hw2 Hb Hd Hp. unfold arg_rest. cbn [run].
  apply star_atom_max.
  rewrite (lead_app_stop _ ws1 "("%char _ Hw1 eq_refl).
  rewrite firstn_length_app, skipn_length_app.
  set (X := ws2 ++ config_arg_delimiter ++ desc).
  assert (HX : ~ In ")"%char X).
  { unfold X. intros Hin. apply in_app_or in Hin. destruct Hin as [Hin|Hin].
    - assert (Hs : isspace ")"%char = true).
      { rewrite forallb_forall in Hw2. now apply Hw2. }
      discriminate Hs.
    - destruct Hin as [Hin|[Hin|Hin]]; try discriminate. contradiction. }
  match goal with
  | |- match ?grp with Some _ => _ | None => _ end = _ =>
      assert (G : grp = Some ((3, desc)
                                :: (2, "("%char :: body ++ [")"%char]) :: cs));
        [|now rewrite G]
  end.
  unfold arg_sig. cbn [run].
  change (atom_ok (ALit "(") "(") with true. cbv iota.
  apply star_atom_through; [now apply no_newline_dot|].
  rewrite adv_false. rewrite star_atom_refused.
  - change (atom_ok (ALit ")") ")") with true. cbv iota beta.
    rewrite (paren_split body X), consumed_app.
    exact (arg_after_sig_run false ws2 desc _ Hw2 Hd).
  - intros s1 s2 Hs Hne.
    destruct s1 as [|c s1]; [contradiction|].
    injection Hs as _ Hs.
    destruct s2 as [|d s2]; [reflexivity|].
    destruct (atom_ok (ALit ")") d) eqn:E; [|reflexivity].
    apply Ascii.eqb_eq in E. subst d. exfalso. apply HX.
    rewrite Hs. apply in_or_app. right. now left.
Qed.

(** X4.  A line that is a run of word characters, optional whitespace, the
    delimiter and a text without line break is a field line: the name is the
    run of word characters, the signature is empty and the first description
    line is the text. *)
Theorem plain_field_line (w ws desc : str) :
  forallb isword w = true -> forallb isspace ws = true -> no_newline desc ->
  _get_arg (w ++ ws ++ config_arg_delimiter ++ desc) = Some (w, [], desc).
Proof.
  intros Hw Hws Hd. unfold _get_arg, search.
  assert (E : match_here _compile_arg true
                (w ++ ws ++ config_arg_delimiter ++ desc)
              = Some [(3, desc); (1, w)]).
  { unfold match_here.
    change _compile_arg with (Seq (Grp 1 (Star AWord)) arg_rest).
    cbn [run]. apply star_atom_max.
    assert (Hl : lead (atom_ok AWord) (w ++ ws ++ config_arg_delimiter ++ desc)
                 = length w).
    { destruct ws as [|c ws].
      - now apply lead_app_stop.
      - simpl in Hws. apply andb_true_iff in Hws. destruct Hws as [Hc _].
        apply lead_app_stop; [exact Hw|]. now apply space_not_word. }
    rewrite Hl, firstn_length_app, skipn_length_app, consumed_app.
    now apply arg_rest_plain. }
  now rewrite (search_from_here _ _ _ _ E).
Qed.

Lemma plain_field_line_witness :
  _get_arg (py "y" ++ [] ++ config_arg_delimiter ++ py "another value.")
  = Some (py "y", [], py "another value.").
Proof.
  apply (plain_field_line (py "y") [] (py "another value."));
    [reflexivity|reflexivity|].
  unfold no_newline. simpl.
  intros H. repeat (destruct H as [H|H]; [discriminate H|]). exact H.
Defined.

(** X5.  A line that is a run of word characters, optional whitespace, a
    parenthesized text, optional whitespace, the delimiter and a description
    without closing parenthesis is a field line: the name is the run of word
    characters, the signature is the parenthesized text with its
    parentheses, whatever it holds, and the first description line is the
    description. *)
Theorem signed_field_line (w ws1 body ws2 desc : str) :
  forallb isword w = true ->
  forallb isspace ws1 = true -> forallb isspace ws2 = true ->
  no_newline body -> no_newline desc -> ~ In ")"%char desc ->
  _get_arg (w ++ ws1 ++ "("%char :: body ++ ")"%char
              :: ws2 ++ config_arg_delimiter ++ desc)
  = Some (w, "("%char :: body ++ [")"%char], desc).
Proof.
  intros Hw Hw1 Hw2 Hb Hd Hp. unfold _get_arg, search.
  assert (E : match_here _compile_arg true
                (w ++ ws1 ++ "("%char :: body ++ ")"%char
                   :: ws2 ++ config_arg_delimiter ++ desc)
              = Some [(3, desc); (2, "("%char :: body ++ [")"%char]);
                      (1, w)]).
  { unfold match_here.
    change _compile_arg with (Seq (Grp 1 (Star AWord)) arg_rest).
    cbn [run]. apply star_atom_max.
    assert (Hl : lead (atom_ok AWord)
                   (w ++ ws1 ++ "("%char :: body ++ ")"%char
                      :: ws2 ++ config_arg_delimiter ++ desc)
                 = length w).
    { destruct ws1 as [|c ws1].
      - now apply lead_app_stop.
      - simpl in Hw1. apply andb_true_iff in Hw1. destruct Hw1 as [Hc _].
        apply lead_app_stop; [exact Hw|]. now apply space_not_word. }
    rewrite Hl, firstn_length_app, skipn_length_app, consumed_app.
    now apply arg_rest_sig. }
  now rewrite (search_from_here _ _ _ _ E).
Qed.

Lemma signed_field_line_witness :
  _get_arg (py "x" ++ py " " ++ "("%char :: py "int" ++ ")"%char
              :: [] ++ config_arg_delimiter ++ py "the value")
  = Some (py "x", py "(int)", py "the value").
Proof.
  apply (signed_field_line (py "x") (py " ") (py "int") [] (py "the value"));
    try reflexivity; unfold no_newline; simpl; intros H;
    repeat (destruct H as [H|H]; [discriminate H|]); exact H.
Defined.

(* ================================================================= *)
(** ** The lookahead, characterised *)

Lemma first_nonempty_nil (ls : list str) :
  first_nonempty ls = [] -> forall j l, nth_error ls j = Some l -> l = [].
Proof.
  induction ls as [|x ls IH]; intros H j l Hj; [now destruct j|].
  simpl in H. destruct x as [|c x]; [|discriminate].
  destruct j as [|j]; simpl in Hj; [congruence|]. now apply (IH H j).
Qed.

(** X6.  For an index [ln] inside the list, [_get_next_line] returns the
    first line after index [ln] that is not the empty string, and the empty
    string when only empty lines or nothing are left; a whitespace-only line
    counts as a line. *)
Theorem next_line_lookahead (lines : list str) (ln : nat) (x : str) :
  ln < length lines ->
  (_get_next_line lines ln = x
   <-> next_nonblank lines ln x \/ (x = [] /\ only_blank_after lines ln)).
Proof.
  intros _. split.
  - intros <-. unfold _get_next_line.
    destruct (first_nonempty_cases (skipn (ln + 1) lines))
      as [E|(k & Hk & Hne & Hj)].
    + right. split; [exact E|]. intros j l Hlt Hl.
      apply (first_nonempty_nil _ E (j - (ln + 1)) l).
      rewrite nth_error_skipn.
      now replace (ln + 1 + (j - (ln + 1))) with j by lia.
    + left. exists k. rewrite nth_error_skipn in Hk. repeat split; auto.
      intros j Hlt. specialize (Hj j Hlt). now rewrite nth_error_skipn in Hj.
  - intros [H|[-> H]].
    + now apply _get_next_line_found.
    + now apply _get_next_line_end.
Qed.

Lemma next_line_lookahead_witness :
  0 < length [py "Args:"; []; py "  "; py "x"]
  /\ (next_nonblank [py "Args:"; []; py "  "; py "x"] 0 (py "  ")
      \/ (py "  " = []
          /\ only_blank_after [py "Args:"; []; py "  "; py "x"] 0)).
Proof.
  assert (H : 0 < length [py "Args:"; []; py "  "; py "x"]) by (simpl; lia).
  split; [exact H|].
  apply (proj1 (next_line_lookahead [py "Args:"; []; py "  "; py "x"] 0
                  (py "  ") H)).
  reflexivity.
Defined.

(* ================================================================= *)
(** ** Invariants of the segmentation loop, in general *)

Section Folding.

(** An invariant over the lines read, the emitted sections and the pending
    section that survives the three things a step does: closing the pending
    section, opening a section with a line, appending a dedented line. *)
Variable Inv : list str -> list str -> list str -> Prop.

Hypothesis Inv_close :
  forall done secs sec,
    Inv done secs sec ->
    Inv done (if negb (is_whitespace (join [nl] sec))
              then secs ++ [join [nl] sec] else secs) [].

Hypothesis Inv_open :
  forall done secs line,
    Inv done secs [] -> no_newline line -> Inv (done ++ [line]) secs [line].

Hypothesis Inv_append :
  forall done secs sec line i,
    Inv done secs sec -> no_newline line -> _is_header line = false ->
    line = [] \/ i <= ws_run line ->
    Inv (done ++ [line]) secs (sec ++ [skipn i line]).

Lemma fold_step lines ln line done self ns self' ns' :
  Inv done (_sections self) (_section self) ->
  no_newline line ->
  extract_step lines ln line (self, ns) = Return (self', ns') ->
  Inv (done ++ [line]) (_sections self') (_section self').
Proof.
  intros Hinv Hl. rewrite extract_step_unfold. cbv zeta.
  destruct (lock_sections line (self, ns)) as [Hs1 Hs2].
  cbn [fst] in Hs1, Hs2.
  set (s1 := fst (lock line (self, ns))) in *.
  rewrite <- Hs1, <- Hs2 in Hinv.
  pose proof (Inv_close _ _ _ Hinv) as Hclose.
  rewrite <- _end_section_sections in Hclose.
  destruct (_is_header line) eqn:Hh.
  - destruct (_is_indent (_get_next_line lines ln)); [|discriminate].
    intros H. injection H as <- _. rewrite append_after_begin.
    cbn [_sections _section set_section _begin_section set_indent].
    now apply Inv_open.
  - destruct (truthy line && (_get_indent line <? _indent s1)) eqn:Hd.
    + intros H. injection H as <- _. rewrite append_after_begin.
      cbn [_sections _section set_section _begin_section set_indent].
      now apply Inv_open.
    + intros H. injection H as <- _.
      cbn [_sections _section set_section append_line].
      apply Inv_append; auto. now apply kept_line_dedent.
Qed.

Lemma fold_loop lines rest :
  forall ln done st st',
    Inv done (_sections (fst st)) (_section (fst st)) ->
    Forall no_newline rest ->
    extract_loop lines ln rest st = Return st' ->
    Inv (done ++ rest) (_sections (fst st')) (_section (fst st')).
Proof.
  induction rest as [|line rest IH]; intros ln done st st' Hinv Hnl H;
    simpl in H.
  - injection H as <-. now rewrite app_nil_r.
  - inversion Hnl as [|? ? Hl Hrest]; subst.
    destruct st as [self ns].
    destruct (extract_step lines ln line (self, ns)) as [[s1 ns1]|e] eqn:E;
      [|discriminate].
    simpl in H.
    replace (done ++ line :: rest) with ((done ++ [line]) ++ rest)
      by now rewrite <- app_assoc.
    apply (IH (S ln) _ (s1, ns1) st'); auto.
    cbn [fst]. now apply (fold_step lines ln line done self ns s1 ns1).
Qed.

Lemma fold_sections self self' :
  Inv [] (_sections self) (_section self) ->
  extract_sections self = Return self' ->
  Inv (split nl (docstring self)) (_sections self') [].
Proof.
  intros Hinit. unfold extract_sections. cbv zeta.
  destruct (extract_loop (split nl (docstring self)) 0
              (split nl (docstring self)) (self, true))
    as [st|e] eqn:E; [|discriminate].
  simpl. intros H. injection H as <-.
  cbn [_sections _begin_section set_indent set_section].
  pose proof (fold_loop _ _ 0 [] (self, true) st Hinit
                (split_lines_no_sep nl (docstring self)) E) as Hinv.
  apply Inv_close in Hinv. now rewrite <- _end_section_sections in Hinv.
Qed.

End Folding.

(* ================================================================= *)
(** ** What segmentation keeps *)

(** X7.  Whatever the object holds when [extract_sections] is called, a call
    that returns has only added sections, after the ones that were there,
    and none of the added sections is blank: each holds a character that is
    not whitespace.  The pending section is empty again, the threshold is 0,
    and [docstring], [data] and [_linenum] are as before. *)
Theorem segmentation_appends_solid_sections self self' :
  extract_sections self = Return self' ->
  (exists new,
      _sections self' = _sections self ++ new
      /\ Forall (fun s => is_whitespace s = false) new)
  /\ _section self' = [] /\ _indent self' = 0
  /\ docstring self' = docstring self /\ data self' = data self
  /\ _linenum self' = _linenum self.
Proof.
  intros H. split.
  - apply (fold_sections
             (fun _ secs _ =>
                exists new, secs = _sections self ++ new
                            /\ Forall (fun s => is_whitespace s = false) new))
      with (self := self); auto.
    + intros done secs sec (new & -> & Hall).
      destruct (is_whitespace (join [nl] sec)) eqn:E; cbn [negb].
      * now exists new.
      * exists (new ++ [join [nl] sec]). rewrite app_assoc.
        split; [reflexivity|]. apply Forall_app. split; [exact Hall|].
        now constructor.
    + exists []. now rewrite app_nil_r.
  - apply extract_sections_shape in H. rewrite H. cbn. auto.
Qed.

Lemma segmentation_appends_solid_sections_witness :
  exists self',
    extract_sections (__init__ sample_doc) = Return self'
    /\ _section self' = [] /\ _indent self' = 0.
Proof.
  destruct (extract_sections (__init__ sample_doc)) as [self'|e] eqn:E;
    [|vm_compute in E; discriminate].
  exists self'. split; [reflexivity|].
  destruct (segmentation_appends_solid_sections _ _ E) as (_ & H1 & H2 & _).
  now split.
Defined.

Lemma kept_text_app (a b : list str) :
  kept_text (a ++ b) = kept_text a ++ kept_text b.
Proof. unfold kept_text. now rewrite filter_app, map_app. Qed.

Lemma kept_text_blank (ls : list str) :
  forallb is_whitespace ls = true -> kept_text ls = [].
Proof.
  unfold kept_text, not_blank. induction ls as [|l ls IH]; [reflexivity|].
  simpl. intros H. apply andb_true_iff in H. destruct H as [Hl Hls].
  rewrite Hl. simpl. now apply IH.
Qed.

Lemma kept_text_dedent (i : nat) (line : str) :
  line = [] \/ i <= ws_run line ->
  kept_text [skipn i line] = kept_text [line].
Proof.
  intros [->|H]; [now rewrite skipn_nil|].
  unfold kept_text, not_blank. cbn [filter].
  rewrite (is_whitespace_skipn_le i line H).
  destruct (negb (is_whitespace line)); [|reflexivity].
  cbn [map]. now rewrite (lstrip_skipn_le i line H).
Qed.

(** X8.  Segmentation loses no text: when [extract_sections] returns on a
    fresh object, the lines of the emitted sections that are not blank, read
    without their leading whitespace, are the lines of the docstring that
    are not blank, read without their leading whitespace, in the same
    order.  Only leading whitespace and blank lines can go. *)
Theorem segmentation_keeps_text d self' :
  extract_sections (__init__ d) = Return self' ->
  kept_text (flat_map (split nl) (_sections self')) = kept_text (split nl d).
Proof.
  intros H.
  destruct (fold_sections text_inv) with (self := __init__ d) (self' := self')
    as [_ Hk]; auto.
  - intros done secs sec [Hnl Hk]. split; [constructor|].
    rewrite app_nil_r. rewrite <- Hk, kept_text_app.
    destruct (is_whitespace (join [nl] sec)) eqn:E; cbn [negb].
    + rewrite is_whitespace_join in E.
      now rewrite (kept_text_blank sec E), app_nil_r.
    + assert (Hne : sec <> []) by (intros ->; discriminate).
      rewrite flat_map_app, kept_text_app. cbn [flat_map].
      now rewrite app_nil_r, split_join.
  - intros done secs line [_ Hk] Hl. split; [now repeat constructor|].
    rewrite app_nil_r in Hk. now rewrite !kept_text_app, Hk.
  - intros done secs sec line i [Hnl Hk] Hl Hh Hi. split.
    + apply Forall_app. split; [exact Hnl|].
      constructor; [now apply no_newline_skipn|constructor].
    + rewrite app_assoc, !kept_text_app, <- kept_text_app, Hk.
      now rewrite kept_text_dedent.
  - split; [constructor|reflexivity].
  - cbn [docstring __init__] in Hk. now rewrite app_nil_r in Hk.
Qed.

Lemma segmentation_keeps_text_witness :
  exists self',
    extract_sections (__init__ sample_doc) = Return self'
    /\ kept_text (flat_map (split nl) (_sections self'))
       = kept_text (split nl sample_doc).
Proof.
  destruct (extract_sections (__init__ sample_doc)) as [self'|e] eqn:E;
    [|vm_compute in E; discriminate].
  exists self'. split; [reflexivity|].
  exact (segmentation_keeps_text sample_doc self' E).
Defined.

Lemma pending_keyword_header (h : str) (t : list str) :
  pending_keyword (h :: t) = if _is_header h then [_get_header h] else [].
Proof.
  unfold pending_keyword. cbv zeta. cbn [item nth].
  now rewrite _get_header_truthy.
Qed.

Lemma section_keywords_app (a b : list str) :
  section_keywords (a ++ b) = section_keywords a ++ section_keywords b.
Proof. apply flat_map_app. Qed.

Lemma section_keywords_join (sec : list str) :
  sec <> [] -> Forall no_newline sec ->
  section_keywords [join [nl] sec] = pending_keyword sec.
Proof.
  intros Hne Hnl. unfold section_keywords, pending_keyword. cbn [flat_map].
  now rewrite app_nil_r, split_join.
Qed.

(** Every header line heads a section, and nothing else does. *)
Lemma segmentation_keywords d self' :
  extract_sections (__init__ d) = Return self' ->
  section_keywords (_sections self')
  = map _get_header (filter _is_header (split nl d)).
Proof.
  intros H.
  destruct (fold_sections keyword_inv) with (self := __init__ d)
                                            (self' := self')
    as [_ Hk]; auto.
  - intros done secs sec [Hnl Hk]. split; [constructor|].
    change (pending_keyword []) with (@nil str). rewrite app_nil_r, <- Hk.
    destruct (is_whitespace (join [nl] sec)) eqn:E; cbn [negb].
    + destruct sec as [|h t].
      { change (pending_keyword []) with (@nil str). now rewrite app_nil_r. }
      rewrite pending_keyword_header.
      rewrite is_whitespace_join in E. simpl in E.
      apply andb_true_iff in E. destruct E as [Eh _].
      destruct (_is_header h) eqn:Hh; [|now rewrite app_nil_r].
      apply _is_header_not_whitespace in Hh. congruence.
    + assert (Hne : sec <> []) by (intros ->; discriminate).
      now rewrite section_keywords_app, section_keywords_join.
  - intros done secs line [_ Hk] Hl. split; [now repeat constructor|].
    change (pending_keyword []) with (@nil str) in Hk.
    rewrite app_nil_r in Hk. rewrite pending_keyword_header, filter_app, Hk.
    cbn [filter]. destruct (_is_header line); rewrite map_app; reflexivity.
  - intros done secs sec line i [Hnl Hk] Hl Hh Hi. split.
    + apply Forall_app. split; [exact Hnl|].
      constructor; [now apply no_newline_skipn|constructor].
    + rewrite filter_app. cbn [filter]. rewrite Hh, app_nil_r, <- Hk.
      f_equal. destruct sec as [|h t].
      * cbn [app]. rewrite pending_keyword_header.
        assert (Hx : _is_header (skipn i line) = false).
        { destruct Hi as [->|Hi]; [now rewrite skipn_nil|].
          now rewrite _is_header_skipn. }
        now rewrite Hx.
      * reflexivity.
  - split; [constructor|reflexivity].
  - change (pending_keyword []) with (@nil str) in Hk.
    now rewrite app_nil_r in Hk.
Qed.

Lemma outs_of_keywords (secs : list str) :
  filter truthy (map header (outs_of secs)) = section_keywords secs.
Proof.
  unfold outs_of, section_keywords.
  induction secs as [|s secs IH]; [reflexivity|].
  cbn [flat_map].
  destruct (parse_section_cursor_total s) as (out & n & E). rewrite E.
  rewrite map_app, filter_app, IH. f_equal.
  cbn [map filter]. rewrite (parse_section_cursor_header _ _ _ E).
  now destruct (truthy (_get_header (item (split nl s) 0))).
Qed.

Lemma parse_fresh d data1 self1 :
  parse (__init__ d) = Some (Return (data1, self1)) ->
  exists s1, extract_sections (__init__ d) = Return s1
             /\ data1 = outs_of (_sections s1)
             /\ _sections self1 = _sections s1
             /\ docstring self1 = d.
Proof.
  unfold parse. cbv zeta.
  change (set_data [] (__init__ d)) with (__init__ d).
  destruct (extract_sections (__init__ d)) as [s1|e] eqn:E; [|discriminate].
  pose proof (extract_sections_shape _ _ E) as Hs1.
  cbn [docstring data _linenum __init__] in Hs1.
  destruct (parse_loop_spec (_sections s1) s1) as (n & ->).
  intros H. injection H as <- <-. exists s1.
  rewrite Hs1. cbn. auto.
Qed.

(** X9.  When [parse] returns on a fresh object, the headers of the parsed
    sections that have one are, in order, the keywords of the header lines
    of the docstring: every header line gives exactly one section, and no
    section gets a header from anything else. *)
Theorem parsed_headers_are_header_lines d data1 self1 :
  parse (__init__ d) = Some (Return (data1, self1)) ->
  filter truthy (map header data1)
  = map _get_header (filter _is_header (split nl d)).
Proof.
  intros H. apply parse_fresh in H. destruct H as (s1 & E & -> & _).
  rewrite outs_of_keywords. now apply segmentation_keywords.
Qed.

Lemma parsed_headers_are_header_lines_witness :
  exists data1 self1,
    parse (__init__ sample_doc) = Some (Return (data1, self1))
    /\ filter truthy (map header data1) = [py "Args"; py "Returns"].
Proof.
  destruct (parse (__init__ sample_doc)) as [[[data1 self1]|e]|] eqn:E;
    try (vm_compute in E; discriminate).
  exists data1, self1. split; [reflexivity|].
  now rewrite (parsed_headers_are_header_lines sample_doc data1 self1 E).
Defined.

(* ================================================================= *)
(** ** Well-indented docstrings *)

Lemma extract_loop_app lines a :
  forall b ln st,
    extract_loop lines ln (a ++ b) st
    = (st' <- extract_loop lines ln a st ;;
       extract_loop lines (ln + length a) b st').
Proof.
  induction a as [|x a IH]; intros b ln st; simpl.
  - now rewrite Nat.add_0_r.
  - destruct (extract_step lines ln x st) as [st1|e]; simpl; [|reflexivity].
    rewrite IH. now replace (S ln + length a) with (ln + S (length a)) by lia.
Qed.

(** Under a locked threshold, lines that are empty or indented at least as
    deep are appended without the threshold's worth of characters. *)
Lemma locked_run lines rest :
  forall ln self,
    Forall (fun l => _is_header l = false) rest ->
    Forall (fun x => truthy x = false \/ _indent self <= _get_indent x) rest ->
    exists st',
      extract_loop lines ln rest (self, false) = Return st'
      /\ _section (fst st')
         = _section self ++ map (slice_from (_indent self)) rest
      /\ _sections (fst st') = _sections self.
Proof.
  induction rest as [|line rest IH]; intros ln self Hh Hi.
  - simpl. eexists. split; [reflexivity|]. cbn [fst]. now rewrite app_nil_r.
  - inversion Hh as [|? ? Hh1 Hh2]; inversion Hi as [|? ? Hi1 Hi2]; subst.
    cbn [extract_loop]. rewrite (extract_step_plain _ _ _ _ Hh1). cbv zeta.
    unfold lock. cbn [fst snd andb].
    assert (Hk : truthy line && (_get_indent line <? _indent self) = false).
    { destruct Hi1 as [->|Hle]; [reflexivity|].
      apply andb_false_iff. right. now apply Nat.ltb_ge. }
    rewrite Hk. cbn [bind].
    destruct (IH (S ln) (append_line line self) Hh2 Hi2)
      as (st' & -> & Hs & Hss).
    exists st'. split; [reflexivity|]. rewrite Hs, Hss.
    cbn [append_line _section _sections _indent set_section map].
    now rewrite <- app_assoc.
Qed.

(** From a fresh section, lines without header and without indent drop are
    appended dedented as a block. *)
Lemma block_run lines rest :
  forall ln self,
    _indent self = 0 ->
    Forall (fun l => _is_header l = false) rest ->
    no_indent_drop rest ->
    exists st',
      extract_loop lines ln rest (self, true) = Return st'
      /\ _section (fst st') = _section self ++ dedent_block rest
      /\ _sections (fst st') = _sections self.
Proof.
  induction rest as [|line rest IH]; intros ln self H0 Hh Hnd.
  - simpl. eexists. split; [reflexivity|]. cbn [fst]. now rewrite app_nil_r.
  - inversion Hh as [|? ? Hh1 Hh2]; subst.
    cbn [extract_loop]. rewrite (extract_step_plain _ _ _ _ Hh1). cbv zeta.
    unfold lock. cbn [fst snd andb no_indent_drop dedent_block] in *.
    destruct (_is_indent line) eqn:Ei; cbn [fst snd _indent set_indent].
    + rewrite Nat.ltb_irrefl, andb_false_r. cbn [bind].
      destruct (locked_run lines rest (S ln)
                  (append_line line (set_indent (_get_indent line) self))
                  Hh2 Hnd)
        as (st' & -> & Hs & Hss).
      exists st'. split; [reflexivity|]. rewrite Hs, Hss.
      cbn [append_line _section _sections _indent set_section set_indent map].
      now rewrite <- app_assoc.
    + rewrite H0. cbn [Nat.ltb Nat.leb]. rewrite andb_false_r. cbn [bind].
      destruct (IH (S ln) (append_line line self)) as (st' & -> & Hs & Hss);
        auto.
      exists st'. split; [reflexivity|]. rewrite Hs, Hss.
      cbn [append_line _section _sections _indent set_section].
      rewrite H0. unfold slice_from. cbn [skipn]. now rewrite <- app_assoc.
Qed.

Lemma first_nonempty_app (a b : list str) :
  first_nonempty a <> [] -> first_nonempty (a ++ b) = first_nonempty a.
Proof.
  induction a as [|x a IH]; simpl; [contradiction|].
  destruct (truthy x); auto.
Qed.

(** A well-headed header opens a section of its own. *)
Lemma header_step lines ln h self ns :
  _is_header h = true ->
  _is_indent (_get_next_line lines ln) = true ->
  exists s1,
    extract_step lines ln h (self, ns) = Return (s1, true)
    /\ _section s1 = [h] /\ _indent s1 = 0
    /\ _sections s1 = closed (_sections self) (_section self).
Proof.
  intros Hh Hn. rewrite extract_step_unfold. cbv zeta. rewrite Hh, Hn.
  eexists. split; [reflexivity|].
  destruct (lock_sections h (self, ns)) as [Hs1 Hs2]. cbn [fst] in Hs1, Hs2.
  rewrite append_after_begin.
  cbn [_section _indent _sections set_section _begin_section set_indent].
  rewrite _end_section_sections, Hs1, Hs2. auto.
Qed.

Lemma closed_header secs h t :
  _is_header h = true ->
  closed secs (h :: t) = secs ++ [join [nl] (h :: t)].
Proof.
  intros Hh. unfold closed. rewrite is_whitespace_join. cbn [forallb].
  now rewrite (_is_header_not_whitespace h Hh).
Qed.

Lemma headed_run lines hs :
  forall ln self ns,
    skipn ln lines = flat_map headed hs ->
    Forall well_headed hs ->
    exists st',
      extract_loop lines ln (flat_map headed hs) (self, ns) = Return st'
      /\ closed (_sections (fst st')) (_section (fst st'))
         = closed (_sections self) (_section self)
           ++ map (fun hb => join [nl] (fst hb :: dedent_block (snd hb))) hs.
Proof.
  induction hs as [|[h body] hs IH]; intros ln self ns Hl Hw.
  - simpl. eexists. split; [reflexivity|]. cbn [fst]. now rewrite app_nil_r.
  - inversion Hw as [|? ? (Hh & Hb & Hnd & Hi) Hw']; subst.
    cbn [fst snd] in *. cbn [flat_map] in *.
    change (headed (h, body) ++ flat_map headed hs)
      with (h :: (body ++ flat_map headed hs)) in *.
    cbn [extract_loop].
    assert (Hrest : skipn (ln + 1) lines = body ++ flat_map headed hs).
    { replace (ln + 1) with (1 + ln) by lia.
      rewrite <- skipn_skipn, Hl. reflexivity. }
    assert (Hnext : _is_indent (_get_next_line lines ln) = true).
    { unfold _get_next_line. rewrite Hrest, first_nonempty_app; [exact Hi|].
      intros E. rewrite E in Hi. discriminate. }
    destruct (header_step lines ln h self ns Hh Hnext)
      as (s1 & -> & Hs1 & Hi1 & Hss1).
    cbn [bind]. rewrite extract_loop_app.
    destruct (block_run lines body (S ln) s1 Hi1 Hb Hnd)
      as ([s2 ns2] & -> & Hs2 & Hss2).
    cbn [bind fst] in *.
    destruct (IH (S ln + length body) s2 ns2) as (st' & -> & Hc); auto.
    + replace (S ln + length body) with (length body + (ln + 1)) by lia.
      rewrite <- skipn_skipn, Hrest.
      now rewrite skipn_app, Nat.sub_diag, skipn_all.
    + exists st'. split; [reflexivity|]. rewrite Hc, Hs2, Hss2, Hs1, Hss1.
      cbn [map fst snd app]. rewrite (closed_header _ h _ Hh).
      now rewrite <- app_assoc.
Qed.

(** X10.  A docstring made of a preamble without header line and without
    indent drop, followed by headers that each have a body without header
    line and without indent drop whose first non-empty line is indented, is
    segmented without error into the preamble, when it is not blank, and
    one section per header, in order.  Each section is its header line
    followed by its body, and a block loses, from its first indented line
    on, as many leading characters per line as that line has indent. *)
Theorem well_indented_docstring d pre hs :
  split nl d = pre ++ flat_map headed hs ->
  Forall (fun l => _is_header l = false) pre ->
  no_indent_drop pre ->
  Forall well_headed hs ->
  exists self',
    extract_sections (__init__ d) = Return self'
    /\ _sections self'
       = (if is_whitespace (join [nl] (dedent_block pre)) then []
          else [join [nl] (dedent_block pre)])
         ++ map (fun hb => join [nl] (fst hb :: dedent_block (snd hb))) hs.
Proof.
  intros Hl Hp Hnd Hw. unfold extract_sections. cbv zeta.
  cbn [docstring __init__].
  replace (extract_loop (split nl d) 0 (split nl d) (__init__ d, true))
    with (extract_loop (split nl d) 0 (pre ++ flat_map headed hs)
            (__init__ d, true))
    by now rewrite <- Hl.
  rewrite extract_loop_app.
  destruct (block_run (split nl d) pre 0 (__init__ d) eq_refl Hp Hnd)
    as ([s1 ns1] & -> & Hs1 & Hss1).
  cbn [bind fst] in *.
  destruct (headed_run (split nl d) hs (0 + length pre) s1 ns1)
    as (st' & -> & Hc); auto.
  { rewrite Hl. cbn [Nat.add].
    now rewrite skipn_app, Nat.sub_diag, skipn_all. }
  cbn [bind]. eexists. split; [reflexivity|].
  cbn [_sections _begin_section set_indent set_section].
  rewrite _end_section_sections. fold (closed (_sections (fst st'))
                                         (_section (fst st'))).
  rewrite Hc, Hs1, Hss1. cbn [__init__ _section _sections app].
  unfold closed. now destruct (is_whitespace (join [nl] (dedent_block pre))).
Qed.

Lemma well_indented_docstring_witness :
  exists self',
    extract_sections (__init__ sample_doc) = Return self'
    /\ _sections self'
       = [doc [py "Summary line."; []];
          doc [py "Args:"; py "x (int): the value to use.";
               py "    Continued description."; py "y: another value."; []];
          doc [py "Returns:"; py "bool: whether it worked."]].
Proof.
  destruct (well_indented_docstring sample_doc
              [py "Summary line."; []]
              [(py "Args:", [py "    x (int): the value to use.";
                             py "        Continued description.";
                             py "    y: another value."; []]);
               (py "Returns:", [py "    bool: whether it worked."])])
    as (self' & E & Hs).
  - reflexivity.
  - repeat constructor.
  - simpl. exact I.
  - repeat (constructor;
            [split; [reflexivity|];
             split; [repeat constructor|];
             split; [|reflexivity];
             simpl;
             repeat (constructor;
                     [first [left; reflexivity
                            |right; vm_compute; repeat constructor]|]);
             constructor|]).
    constructor.
  - exists self'. split; [exact E|]. exact Hs.
Defined.

(* ================================================================= *)
(** ** Parsing a section *)

Lemma parse_arglist_cursor_bound lines n r n' :
  n < length lines -> parse_arglist_cursor lines n = Some (r, n') ->
  n <= n' < length lines.
Proof.
  unfold parse_arglist_cursor. intros Hn.
  destruct (_get_arg (item lines n)) as [[[name sig] rest]|].
  - destruct (arglist_cursor _ _ _ _) as [[d m]|] eqn:E; [|discriminate].
    intros H. injection H as _ <-.
    apply arglist_cursor_spec in E. destruct E as (Hle & _ & _ & _ & Hlast).
    destruct (Nat.eq_dec n m) as [<-|Hne]; [lia|].
    destruct Hlast; lia.
  - intros H. injection H as _ <-. lia.
Qed.

Lemma section_cursor_end fuel lines :
  forall text args n t a m,
    n <= length lines ->
    section_cursor fuel lines text args n = Some (t, a, m) ->
    m = length lines.
Proof.
  induction fuel as [|fuel IH]; intros text args n t a m Hn H; simpl in H;
    destruct (n <? length lines) eqn:E; try discriminate;
    try (injection H as _ _ <-; apply Nat.ltb_ge in E; lia).
  apply Nat.ltb_lt in E.
  destruct (parse_arglist_cursor lines n) as [[r n']|] eqn:P; [|discriminate].
  apply (parse_arglist_cursor_bound _ _ _ _ E) in P.
  destruct r; apply IH in H; auto; lia.
Qed.

Lemma split_length_pos (sep : ascii) (s : str) : 1 <= length (split sep s).
Proof. rewrite split_length. lia. Qed.

(** X11.  [parse_section] returns on every section text: its two loops end.
    It leaves the cursor [_linenum] on the number of lines of the section
    and changes nothing else in the object; the parsed section does not
    depend on the object, and its header is the keyword of the first line
    of the section, or the empty string. *)
Theorem parse_section_reads_to_the_end (section : str) :
  exists out,
    header out = _get_header (item (split nl section) 0)
    /\ forall self,
         parse_section section self
         = Some (out, set_linenum (length (split nl section)) self).
Proof.
  destruct (parse_section_cursor_total section) as (out & n & E).
  exists out. split; [now apply (parse_section_cursor_header _ _ _ E)|].
  intros self. rewrite parse_section_cursor_eq, E.
  assert (n = length (split nl section)) as ->; [|reflexivity].
  revert E. unfold parse_section_cursor. cbv zeta.
  destruct (section_cursor _ _ _ _ _) as [[[t a] m]|] eqn:S; [|discriminate].
  intros H. injection H as _ <-.
  apply section_cursor_end in S; [exact S|].
  pose proof (split_length_pos nl section).
  destruct (truthy _); lia.
Qed.

Lemma extract_loop_raise_kind lines rest :
  forall ln st e,
    extract_loop lines ln rest st = Raise e -> exists msg, e = SyntaxError msg.
Proof.
  induction rest as [|line rest IH]; intros ln st e H; simpl in H;
    [discriminate|].
  destruct (extract_step lines ln line st) as [st1|e1] eqn:E; simpl in H.
  - now apply IH in H.
  - injection H as <-. apply extract_step_raises in E. tauto.
Qed.

Lemma extract_sections_raise_kind self e :
  extract_sections self = Raise e -> exists msg, e = SyntaxError msg.
Proof.
  unfold extract_sections. cbv zeta.
  destruct (extract_loop _ _ _ (self, true)) as [st|e1] eqn:E; simpl;
    [discriminate|].
  intros H. injection H as <-. now apply extract_loop_raise_kind in E.
Qed.

Lemma outs_of_count sections : length (outs_of sections) = length sections.
Proof.
  induction sections as [|s ss IH]; [reflexivity|].
  unfold outs_of in *. simpl.
  destruct (parse_section_cursor_total s) as (out & n & ->).
  simpl. now rewrite IH.
Qed.

(** X12.  [parse] ends on every object, fresh or not.  Either
    [extract_sections] raises and [parse] raises the same [SyntaxError], or
    [parse] returns the list it has stored in [data], with one parsed
    section for each section in [_sections], and with the docstring, the
    text that [__str__] gives, untouched. *)
Theorem parse_outcome self :
  (exists msg,
      extract_sections (set_data [] self) = Raise (SyntaxError msg)
      /\ parse self = Some (Raise (SyntaxError msg)))
  \/ (exists data1 self1,
         parse self = Some (Return (data1, self1))
         /\ data self1 = data1
         /\ length data1 = length (_sections self1)
         /\ __str__ self1 = __str__ self).
Proof.
  unfold parse. cbv zeta.
  destruct (extract_sections (set_data [] self)) as [s1|e] eqn:E.
  - right. pose proof (extract_sections_shape _ _ E) as Hs1.
    cbn [docstring data _linenum set_data] in Hs1.
    destruct (parse_loop_spec (_sections s1) s1) as (n & ->).
    eexists _, _. split; [reflexivity|]. rewrite Hs1.
    cbn [data set_data set_linenum _sections __str__ docstring app].
    now rewrite outs_of_count.
  - left. destruct (extract_sections_raise_kind _ _ E) as (msg & ->).
    exists msg. auto.
Qed.

Lemma continuation_tail c cs :
  continuation (c :: cs) -> cs <> [] -> continuation cs.
Proof.
  intros [Hall Hlast] Hne. inversion Hall; subst. split; [assumption|].
  right. destruct Hlast as [H|H]; [discriminate|].
  destruct cs; [contradiction|exact H].
Qed.

Lemma continuation_lookahead cs rest :
  continuation cs -> cs <> [] ->
  _is_indent (first_nonempty (cs ++ rest)) = true
  /\ first_nonempty (cs ++ rest) <> [].
Proof.
  induction cs as [|c cs IH]; intros Hc Hne; [contradiction|].
  destruct c as [|x c].
  - assert (Hcs : cs <> []).
    { intros ->. destruct Hc as [_ [H|H]]; discriminate. }
    simpl. apply IH; [now apply (continuation_tail [])|exact Hcs].
  - simpl. destruct Hc as [Hall _]. inversion Hall as [|? ? [H|H] _]; subst;
      [discriminate|]. split; [exact H|discriminate].
Qed.

Lemma skipn_head (ls : list str) (n : nat) (x : str) (r : list str) :
  skipn n ls = x :: r ->
  n < length ls /\ item ls n = x /\ skipn (n + 1) ls = r.
Proof.
  intros H. assert (Hn : n < length ls).
  { destruct (Nat.lt_ge_cases n (length ls)) as [Hlt|Hge]; [exact Hlt|].
    rewrite skipn_all2 in H by exact Hge. discriminate. }
  split; [exact Hn|]. rewrite (skipn_cons_item ls n Hn) in H.
  injection H as H1 H2. split; [exact H1|].
  now replace (n + 1) with (S n) by lia.
Qed.

(** The continuation loop over the lines of one group. *)
Lemma arglist_cursor_group lines cs :
  forall fuel n description rest,
    skipn (n + 1) lines = cs ++ rest ->
    continuation cs ->
    _is_indent (first_nonempty rest) = false ->
    length cs <= fuel ->
    arglist_cursor fuel lines description n
    = Some (description ++ cs, n + length cs).
Proof.
  induction cs as [|c cs IH]; intros fuel n description rest Hs Hc Hr Hf.
  - simpl in Hs. assert (Hl : _is_indent (_get_next_line lines n) = false).
    { unfold _get_next_line. now rewrite Hs. }
    rewrite app_nil_r, Nat.add_0_r. destruct fuel; simpl; now rewrite Hl.
  - destruct (continuation_lookahead (c :: cs) rest Hc) as [Hl _];
      [discriminate|].
    destruct fuel as [|fuel]; [simpl in Hf; lia|].
    simpl. unfold _get_next_line at 1. rewrite Hs, Hl.
    apply skipn_head in Hs. destruct Hs as (_ & Hitem & Hs).
    rewrite Hitem.
    destruct cs as [|c' cs'].
    + rewrite (IH fuel (n + 1) (description ++ [c]) rest); auto.
      * simpl. rewrite <- app_assoc. f_equal. f_equal. lia.
      * split; [constructor|now left].
      * simpl. lia.
    + rewrite (IH fuel (n + 1) (description ++ [c]) rest); auto.
      * rewrite <- app_assoc. f_equal. f_equal. simpl. lia.
      * apply (continuation_tail c); [exact Hc|discriminate].
      * simpl in *. lia.
Qed.

Lemma section_cursor_laid lines es :
  forall fuel n text args,
    skipn n lines = flat_map entry_lines es ->
    well_laid es ->
    n <= length lines ->
    length lines <= fuel + n ->
    section_cursor fuel lines text args n
    = Some (text ++ entry_text es, args ++ entry_fields es, length lines).
Proof.
  induction es as [|[l|g] es IH]; intros fuel n text args Hs Hw Hn Hf.
  - simpl in Hs. assert (Hlen : length lines <= n).
    { destruct (Nat.lt_ge_cases n (length lines)) as [Hlt|Hge]; [|exact Hge].
      rewrite (skipn_cons_item lines n Hlt) in Hs. discriminate. }
    assert (n = length lines) as -> by lia.
    cbn [entry_text entry_fields flat_map]. rewrite !app_nil_r.
    destruct fuel; simpl; now rewrite Nat.ltb_irrefl.
  - cbn [flat_map entry_lines app] in Hs.
    apply skipn_head in Hs. destruct Hs as (Hlt & Hitem & Hs).
    destruct Hw as [Hg Hw].
    destruct fuel as [|fuel]; [lia|].
    simpl. apply Nat.ltb_lt in Hlt. rewrite Hlt. apply Nat.ltb_lt in Hlt.
    unfold parse_arglist_cursor. rewrite Hitem, Hg, ?Hitem.
    rewrite (IH fuel (n + 1) (text ++ [l]) args); auto; try lia.
    cbn [entry_text entry_fields flat_map app].
    now rewrite <- app_assoc.
  - cbn [flat_map entry_lines] in Hs.
    change ((g_line g :: g_more g) ++ flat_map entry_lines es)
      with (g_line g :: (g_more g ++ flat_map entry_lines es)) in Hs.
    apply skipn_head in Hs. destruct Hs as (Hlt & Hitem & Hs).
    destruct Hw as (Hg & Hc & Hr & Hw).
    assert (Hmore : n + 1 + length (g_more g) <= length lines).
    { apply (f_equal (@length _)) in Hs.
      rewrite length_skipn, length_app in Hs. lia. }
    destruct fuel as [|fuel]; [lia|].
    simpl. apply Nat.ltb_lt in Hlt. rewrite Hlt. apply Nat.ltb_lt in Hlt.
    unfold parse_arglist_cursor. rewrite Hitem, Hg.
    rewrite (arglist_cursor_group lines (g_more g) (length lines) n
               [g_rest g] (flat_map entry_lines es) Hs Hc Hr) by lia.
    rewrite (IH fuel (n + length (g_more g) + 1) text
               (args ++ [mkField (g_name g) (g_sig g)
                           (join [nl] ([g_rest g] ++ g_more g))]));
      auto; try lia.
    + cbn [entry_text entry_fields flat_map app].
      now rewrite <- app_assoc.
    + replace (n + length (g_more g) + 1) with (length (g_more g) + (n + 1))
        by lia.
      rewrite <- skipn_skipn, Hs.
      now rewrite skipn_app, Nat.sub_diag, skipn_all.
Qed.

(** X13.  When the content of a section block (its lines after the header
    line) is laid out as text lines that hold no field and field lines, each
    followed by continuation lines that are empty or indented and end on an
    indented one, with nothing indented coming next, [parse_section] gives
    the text lines, joined, as the text, and one field per field line, in
    order, whose description is the field line's own description followed
    by its continuation lines as they are.  A line after a field line is
    never read as a field. *)
Theorem parse_section_layout (section : str) (es : list entry) self :
  block_content section = flat_map entry_lines es ->
  well_laid es ->
  parse_section section self
  = Some (mkSection (_get_header (item (split nl section) 0))
                    (join [nl] (entry_text es)) (entry_fields es),
          set_linenum (length (split nl section)) self).
Proof.
  intros Hb Hw. rewrite parse_section_cursor_eq.
  unfold parse_section_cursor. cbv zeta.
  unfold block_content, content_of_lines in Hb.
  pose proof (split_length_pos nl section) as Hpos.
  rewrite (section_cursor_laid _ es _ _ [] [] Hb Hw).
  - reflexivity.
  - destruct (truthy _); lia.
  - lia.
Qed.

Lemma parse_section_layout_witness :
  parse_section
    (doc [py "Args:"; py "x (int): the value to use.";
          py "    Continued description."; py "y: another value."; []])
    (__init__ [])
  = Some (mkSection (py "Args") []
            [mkField (py "x") (py "(int)")
               (doc [py "the value to use."; py "    Continued description."]);
             mkField (py "y") [] (py "another value.")],
          set_linenum 5 (__init__ [])).
Proof.
  apply (parse_section_layout
           (doc [py "Args:"; py "x (int): the value to use.";
                 py "    Continued description."; py "y: another value."; []])
           [FieldGroup (mkGroup (py "x (int): the value to use.") (py "x")
                          (py "(int)") (py "the value to use.")
                          [py "    Continued description."]);
            FieldGroup (mkGroup (py "y: another value.") (py "y") []
                          (py "another value.") []);
            TextLine []]).
  - reflexivity.
  - simpl. repeat split; try reflexivity; try (now left);
      try (now right); repeat constructor; now right.
Defined.

(* ================================================================= *)
(** ** Queries and fetchers *)

Lemma split_single (sep : ascii) (s x : str) : split sep s = [x] -> x = s.
Proof. intros H. rewrite <- (join_split sep s), H. reflexivity. Qed.

Lemma split_pair (sep : ascii) (s a b : str) :
  split sep s = [a; b] ->
  s = a ++ sep :: b /\ ~ In sep a /\ ~ In sep b.
Proof.
  intros H. pose proof (split_lines_no_sep sep s) as Hn. rewrite H in Hn.
  inversion Hn as [|? ? Ha Hn']; subst. inversion Hn' as [|? ? Hb _]; subst.
  split; [|now split]. rewrite <- (join_split sep s), H. reflexivity.
Qed.

(** What a returned triple says about the query. *)
Lemma get_names_inv (q c f t : str) :
  get_names q = Return (c, f, t) ->
  (t = py "module" /\ q = [] /\ c = [] /\ f = [])
  \/ (t = py "class" /\ c = q /\ f = [] /\ ~ In "."%char q
      /\ exists x q', q = x :: q' /\ isupper x = true)
  \/ (t = py "function" /\ c = [] /\ f = q /\ ~ In "."%char q
      /\ exists x q', q = x :: q' /\ isupper x = false)
  \/ (t = py "method" /\ q = c ++ "."%char :: f
      /\ ~ In "."%char c /\ ~ In "."%char f).
Proof.
  unfold get_names. cbv zeta.
  destruct (split "."%char q) as [|a [|b [|x l]]] eqn:E; cbn [length Nat.eqb].
  - now apply split_not_nil in E.
  - pose proof (split_lines_no_sep "."%char q) as Hn. rewrite E in Hn.
    inversion Hn as [|? ? Ha _]; subst.
    apply split_single in E. subst a. cbn [item nth].
    destruct q as [|x q'].
    + intros H. injection H as <- <- <-. left. auto.
    + destruct (isupper x) eqn:U; intros H; injection H as <- <- <-.
      * right. left. repeat split; auto. now exists x, q'.
      * right. right. left. repeat split; auto. now exists x, q'.
  - cbn [item nth]. intros H. injection H as <- <- <-.
    right. right. right. split; [reflexivity|]. now apply split_pair.
  - discriminate.
Qed.

(** X14.  The triple that [get_names] returns rebuilds the query: for kind
    method the class name, a dot and the function name are the query and
    neither name holds a dot; for the other kinds the query is the class
    name (class), the function name (function) or empty (module), and the
    other names are empty.  [get_names] raises, a [ValueError], exactly on
    the queries with two dots or more. *)
Theorem get_names_rebuilds_query (q : str) :
  (forall c f t,
      get_names q = Return (c, f, t) ->
      (t = py "method" /\ q = c ++ "."%char :: f
       /\ ~ In "."%char c /\ ~ In "."%char f)
      \/ (In t [py "module"; py "class"; py "function"]
          /\ q = c ++ f /\ (c = [] \/ f = []) /\ ~ In "."%char q))
  /\ ((exists e, get_names q = Raise e) <-> 2 <= count_occ ascii_dec q "."%char)
  /\ (forall e, get_names q = Raise e -> exists msg, e = ValueError msg).
Proof.
  split; [|split].
  - intros c f t H. apply get_names_inv in H.
    destruct H as [(-> & -> & -> & ->)|[(-> & -> & -> & Hd & _)
                  |[(-> & -> & -> & Hd & _)|(-> & Hq & Hc & Hf)]]].
    + right. split; [simpl; tauto|]. split; [reflexivity|].
      split; [now left|]. intros [].
    + right. split; [simpl; tauto|]. rewrite app_nil_r. auto.
    + right. split; [simpl; tauto|]. cbn [app]. auto.
    + now left.
  - pose proof (split_length "."%char q) as Hl. unfold get_names. cbv zeta.
    destruct (length (split "." q) =? 1) eqn:E1.
    + apply Nat.eqb_eq in E1. split; [|lia].
      intros [e H]. destruct (item (split "." q) 0) as [|x r];
        [discriminate|destruct (isupper x); discriminate].
    + destruct (length (split "." q) =? 2) eqn:E2.
      * apply Nat.eqb_eq in E2. split; [intros [e H]; discriminate|lia].
      * apply Nat.eqb_neq in E1, E2. split; [lia|eauto].
  - unfold get_names. cbv zeta. intros e.
    destruct (length (split "." q) =? 1).
    + destruct (item (split "." q) 0) as [|x r];
        [discriminate|destruct (isupper x); discriminate].
    + destruct (length (split "." q) =? 2); [discriminate|].
      intros H. injection H as <-. eauto.
Qed.

Lemma get_names_rebuilds_query_witness :
  py "Foo.bar" = py "Foo" ++ "."%char :: py "bar".
Proof.
  destruct (proj1 (get_names_rebuilds_query (py "Foo.bar"))
              (py "Foo") (py "bar") (py "method") eq_refl)
    as [(_ & H & _)|([H|[H|[H|[]]]] & _)];
    [exact H|discriminate H..].
Defined.

(** X15.  [summary] returns the text up to the first line break: it holds no
    line break, the text is the summary alone or the summary, a line break
    and the rest, and a text without line break is its own summary. *)
Theorem summary_is_first_line (txt : str) :
  ~ In nl (summary txt)
  /\ (txt = summary txt \/ exists rest, txt = summary txt ++ nl :: rest)
  /\ (~ In nl txt -> summary txt = txt).
Proof.
  unfold summary.
  pose proof (split_lines_no_sep nl txt) as Hn.
  pose proof (join_split nl txt) as Hj.
  destruct (split nl txt) as [|l ls] eqn:E; [now apply split_not_nil in E|].
  cbn [item nth]. apply Forall_inv in Hn. split; [exact Hn|].
  split.
  - destruct ls as [|l' ls'].
    + left. now rewrite <- Hj.
    + right. exists (join [nl] (l' :: ls')). now rewrite <- Hj.
  - intros Ht. rewrite (split_no_sep nl txt Ht) in E. now injection E as <-.
Qed.

Lemma summary_is_first_line_witness :
  summary (py "one line") = py "one line".
Proof.
  apply (proj2 (proj2 (summary_is_first_line (py "one line")))).
  simpl. intros H. repeat (destruct H as [H|H]; [discriminate H|]). exact H.
Defined.

(** X16.  A [Fetch] object cannot be built from a query with two dots or
    more: the [ValueError] of [get_names] leaves the constructor.  On an
    object that was built, [fetch] calls exactly one of the four methods,
    chosen by the query: [fetch_module] for the empty query, [fetch_method]
    for a query with one dot, and for a query without dot [fetch_class] when
    its first character is upper-case and [fetch_function] otherwise. *)
Theorem fetch_dispatch (cls : Fetching.methods) (txt q : str) :
  (2 <= count_occ ascii_dec q "."%char ->
   exists msg, Fetching.__init__ txt q = Raise (ValueError msg))
  /\ (forall self,
        Fetching.__init__ txt q = Return self ->
        Fetching.txt self = txt /\ Fetching.query self = q
        /\ Fetching.fetch cls self
           = match q with
             | [] => Fetching.fetch_module cls self
             | x :: _ =>
                 if count_occ ascii_dec q "."%char =? 1
                 then Fetching.fetch_method cls self
                 else if isupper x then Fetching.fetch_class cls self
                      else Fetching.fetch_function cls self
             end).
Proof.
  unfold Fetching.__init__. split.
  - intros Hq. pose proof (split_length "."%char q) as Hl.
    unfold get_names. cbv zeta.
    destruct (length (split "." q) =? 1) eqn:E1;
      [apply Nat.eqb_eq in E1; lia|].
    destruct (length (split "." q) =? 2) eqn:E2;
      [apply Nat.eqb_eq in E2; lia|].
    simpl. eauto.
  - intros self.
    destruct (get_names q) as [[[c f] t]|e] eqn:G; [|discriminate].
    cbn [bind]. intros H. injection H as <-.
    cbn [Fetching.txt Fetching.query]. split; [reflexivity|].
    split; [reflexivity|].
    apply get_names_inv in G.
    destruct G as [(-> & -> & -> & ->)|[(-> & -> & -> & Hd & x & q' & -> & U)
                  |[(-> & -> & -> & Hd & x & q' & -> & U)
                   |(-> & -> & Hc & Hf)]]].
    + reflexivity.
    + rewrite (proj1 (count_occ_not_In ascii_dec _ _) Hd), U. reflexivity.
    + rewrite (proj1 (count_occ_not_In ascii_dec _ _) Hd), U. reflexivity.
    + assert (Hn : count_occ ascii_dec (c ++ "."%char :: f) "."%char = 1).
      { rewrite count_occ_app, (proj1 (count_occ_not_In ascii_dec _ _) Hc).
        simpl. now rewrite (proj1 (count_occ_not_In ascii_dec _ _) Hf). }
      rewrite Hn. destruct c; reflexivity.
Qed.

Lemma fetch_dispatch_witness :
  exists msg,
    Fetching.__init__ (py "text") (py "a.b.c") = Raise (ValueError msg).
Proof.
  apply (proj1 (fetch_dispatch Fetching.Fetch_class (py "text") (py "a.b.c"))).
  vm_compute. repeat constructor.
Defined.

(** X17.  [PyFetch] fetches nothing for a module or for a method: whatever
    the source text, on the empty query and on every query with one dot
    [fetch] returns [None], because [PyFetch] overrides only
    [fetch_function] and [fetch_class].  The base class returns [None] for
    every query. *)
Theorem pyfetch_skips_modules_and_methods
        (ff fc : Fetching.Fetch -> outcome (option Fetching.Match))
        (txt q : str) (self : Fetching.Fetch) :
  Fetching.__init__ txt q = Return self ->
  (q = [] \/ count_occ ascii_dec q "."%char = 1 ->
   Fetching.fetch (Fetching.PyFetch_class ff fc) self = Return None)
  /\ Fetching.fetch Fetching.Fetch_class self = Return None.
Proof.
  unfold Fetching.__init__.
  destruct (get_names q) as [[[c f] t]|e] eqn:G; [|discriminate].
  cbn [bind]. intros H. injection H as <-.
  apply get_names_inv in G.
  destruct G as [(-> & -> & -> & ->)|[(-> & -> & -> & Hd & x & q' & -> & U)
                |[(-> & -> & -> & Hd & x & q' & -> & U)
                 |(-> & -> & Hc & Hf)]]]; (split; [|reflexivity]).
  - reflexivity.
  - intros [H|H]; [discriminate|].
    rewrite (proj1 (count_occ_not_In ascii_dec _ _) Hd) in H. discriminate.
  - intros [H|H]; [discriminate|].
    rewrite (proj1 (count_occ_not_In ascii_dec _ _) Hd) in H. discriminate.
  - reflexivity.
Qed.

Lemma pyfetch_skips_modules_and_methods_witness :
  Fetching.fetch
    (Fetching.PyFetch_class Fetching.pass Fetching.pass)
    (Fetching.mkFetch (py "text") (py "Foo.bar") (py "Foo") (py "bar")
       (py "method"))
  = Return None.
Proof.
  apply (proj1 (pyfetch_skips_modules_and_methods
                  Fetching.pass Fetching.pass (py "text") (py "Foo.bar")
                  _ eq_refl)).
  right. reflexivity.
Defined.

(* ================================================================= *)
(** ** The error that segmentation reports *)

Lemma extract_step_raise_message lines ln line st e :
  extract_step lines ln line st = Raise e ->
  e = SyntaxError (py "Missing indent after `" ++ _get_next_line lines ln
                      ++ py "`").
Proof.
  rewrite extract_step_unfold. cbv zeta.
  destruct (_is_header line).
  - destruct (_is_indent (_get_next_line lines ln)); [discriminate|].
    intros H. now injection H as <-.
  - destruct (truthy line && _); discriminate.
Qed.

Lemma extract_step_return_indented lines ln line st st' :
  extract_step lines ln line st = Return st' ->
  _is_header line = true -> _is_indent (_get_next_line lines ln) = true.
Proof.
  intros H Hh.
  destruct (_is_indent (_get_next_line lines ln)) eqn:E; [reflexivity|].
  destruct (extract_step_malformed lines ln line st Hh E) as (msg & Hr).
  congruence.
Qed.

Lemma extract_loop_first_error lines rest :
  forall ln st e,
    extract_loop lines ln rest st = Raise e ->
    exists i h,
      nth_error rest i = Some h /\ _is_header h = true
      /\ _is_indent (_get_next_line lines (ln + i)) = false
      /\ (forall j l, j < i -> nth_error rest j = Some l ->
                      _is_header l = true ->
                      _is_indent (_get_next_line lines (ln + j)) = true)
      /\ e = SyntaxError (py "Missing indent after `"
                            ++ _get_next_line lines (ln + i) ++ py "`").
Proof.
  induction rest as [|line rest IH]; intros ln st e H; simpl in H;
    [discriminate|].
  destruct (extract_step lines ln line st) as [st1|e1] eqn:E; simpl in H.
  - apply IH in H. destruct H as (i & h & Hi & Hh & Hn & Hbefore & ->).
    exists (S i), h. replace (ln + S i) with (S ln + i) by lia.
    repeat split; auto.
    intros [|j] l Hj Hl Hhl.
    + simpl in Hl. injection Hl as <-. rewrite Nat.add_0_r.
      now apply (extract_step_return_indented _ _ _ _ _ E).
    + replace (ln + S j) with (S ln + j) by lia.
      apply (Hbefore j l); auto. lia.
  - injection H as <-. exists 0, line. rewrite Nat.add_0_r.
    pose proof (extract_step_raise_message _ _ _ _ _ E) as Hm.
    apply extract_step_raises in E. destruct E as (Hh & Hn & _).
    repeat split; auto. intros j l Hj. lia.
Qed.

(** X18.  When [extract_sections] raises, it is for the first header line, in
    line order, whose next non-empty line is not indented or missing: every
    header before it has an indented next non-empty line.  The message of
    the [SyntaxError] quotes that next non-empty line, not the header, and
    quotes nothing when the header is the last non-empty line. *)
Theorem syntax_error_reports_first_malformed_header self e :
  extract_sections self = Raise e ->
  exists ln h,
    nth_error (split nl (docstring self)) ln = Some h
    /\ _is_header h = true
    /\ _is_indent (_get_next_line (split nl (docstring self)) ln) = false
    /\ (forall j l,
          j < ln -> nth_error (split nl (docstring self)) j = Some l ->
          _is_header l = true ->
          _is_indent (_get_next_line (split nl (docstring self)) j) = true)
    /\ e = SyntaxError
             (py "Missing indent after `"
                ++ _get_next_line (split nl (docstring self)) ln ++ py "`").
Proof.
  unfold extract_sections. cbv zeta.
  destruct (extract_loop _ _ _ (self, true)) as [st|e1] eqn:E; simpl;
    [discriminate|].
  intros H. injection H as <-.
  apply extract_loop_first_error in E.
  destruct E as (i & h & Hi & Hh & Hn & Hbefore & He).
  exists i, h. cbn [Nat.add] in *. repeat split; auto.
Qed.

Lemma syntax_error_reports_first_malformed_header_witness :
  exists ln h,
    nth_error
      (split nl (doc [py "Args:"; py "    x: 1"; py "Returns:"; py "y"])) ln
    = Some h
    /\ _is_header h = true
    /\ SyntaxError (py "Missing indent after `y`")
       = SyntaxError
           (py "Missing indent after `"
              ++ _get_next_line
                   (split nl (doc [py "Args:"; py "    x: 1"; py "Returns:";
                                   py "y"])) ln
              ++ py "`").
Proof.
  destruct (syntax_error_reports_first_malformed_header
              (__init__ (doc [py "Args:"; py "    x: 1"; py "Returns:";
                              py "y"]))
              (SyntaxError (py "Missing indent after `y`")) eq_refl)
    as (ln & h & H1 & H2 & _ & _ & H5).
  exists ln, h. repeat split; assumption.
Defined.

(* ================================================================= *)
(** ** The field pattern, exactly *)

Lemma star_atom_none (a : atom) (s : str) :
  forall bol k,
    star_atom a bol s k = None ->
    forall p q, s = p ++ q -> forallb (atom_ok a) p = true ->
                k (adv bol p) q = None.
Proof.
  induction s as [|c s IH]; intros bol k H p q Hs Hp; simpl in H.
  - destruct p; [|discriminate]. simpl in Hs. now subst q.
  - destruct p as [|d p].
    + simpl in Hs. subst q. simpl.
      destruct (atom_ok a c); [|exact H].
      now destruct (star_atom a false s k).
    + injection Hs as <- Hs. simpl in Hp.
      apply andb_true_iff in Hp. destruct Hp as [Hc Hp]. rewrite Hc in H.
      destruct (star_atom a false s k) eqn:E; [discriminate|].
      simpl. rewrite <- (adv_false p). now apply (IH false k E p q).
Qed.

(** [a*] answers through the longest run that lets the match go through. *)
Lemma star_atom_sound_longest (a : atom) (s : str) :
  forall bol k r,
    star_atom a bol s k = Some r ->
    exists pre post,
      s = pre ++ post /\ forallb (atom_ok a) pre = true
      /\ k (adv bol pre) post = Some r
      /\ forall pre' post',
           s = pre' ++ post' -> forallb (atom_ok a) pre' = true ->
           length pre < length pre' -> k false post' = None.
Proof.
  induction s as [|c s IH]; intros bol k r H; simpl in H.
  - exists [], []. repeat split; auto.
    intros pre' post' Hs _ Hl. destruct pre'; [simpl in Hl; lia|discriminate].
  - destruct (atom_ok a c) eqn:E.
    + destruct (star_atom a false s k) eqn:Es.
      * injection H as ->.
        destruct (IH _ _ _ Es) as (pre & post & -> & Hp & Hk & Hlong).
        exists (c :: pre), post. simpl. rewrite E, Hp.
        repeat split; auto; [now destruct pre|].
        intros [|d pre'] post' Hs Hp' Hl; [simpl in Hl; lia|].
        injection Hs as <- Hs. simpl in Hp'.
        apply andb_true_iff in Hp'. destruct Hp' as [_ Hp'].
        apply (Hlong pre' post'); auto. simpl in Hl. lia.
      * exists [], (c :: s). repeat split; auto.
        intros [|d pre'] post' Hs Hp' Hl; [simpl in Hl; lia|].
        injection Hs as <- Hs. simpl in Hp'.
        apply andb_true_iff in Hp'. destruct Hp' as [_ Hp'].
        rewrite <- (adv_false pre').
        now apply (star_atom_none a s false k Es pre' post').
    + exists [], (c :: s). repeat split; auto.
      intros [|d pre'] post' Hs Hp' Hl; [simpl in Hl; lia|].
      injection Hs as <- Hs. simpl in Hp'. rewrite E in Hp'. discriminate.
Qed.

Lemma star_atom_fallback (a : atom) (s : str) (bol : bool) k :
  k bol s <> None -> star_atom a bol s k <> None.
Proof.
  intros H. destruct s as [|c s]; simpl; [exact H|].
  destruct (atom_ok a c); [|exact H].
  now destruct (star_atom a false s k).
Qed.

Lemma star_atom_reaches (a : atom) (pre : str) :
  forall bol s k,
    forallb (atom_ok a) pre = true ->
    star_atom a (adv bol pre) s k <> None ->
    star_atom a bol (pre ++ s) k <> None.
Proof.
  intros bol s k Hp H.
  destruct (star_atom a (adv bol pre) s k) as [r|] eqn:E; [|contradiction].
  now rewrite (star_atom_through a pre bol s k r Hp E).
Qed.

(** The longest dot-run at the head of a text: the rest of its line. *)
Lemma lead_dot_split (s : str) :
  no_newline (firstn (lead (atom_ok ADot) s) s)
  /\ (skipn (lead (atom_ok ADot) s) s = []
      \/ exists t, skipn (lead (atom_ok ADot) s) s = nl :: t).
Proof.
  induction s as [|c s [IH1 IH2]]; simpl.
  - split; [intros []|now left].
  - destruct (Ascii.eqb c nl) eqn:E; simpl.
    + apply Ascii.eqb_eq in E. subst c. split; [intros []|right; eauto].
    + split; [|exact IH2]. intros [H|H]; [|now apply IH1].
      apply Ascii.eqb_neq in E. now apply E.
Qed.

Lemma dot_no_newline (s : str) :
  forallb (atom_ok ADot) s = true -> no_newline s.
Proof.
  unfold no_newline. induction s as [|c s IH]; simpl; intros H; [tauto|].
  apply andb_true_iff in H. destruct H as [Hc Hs].
  intros [E|E]; [|now apply IH].
  subst c. discriminate Hc.
Qed.

Lemma arg_after_sig_exact (b : bool) (s : str) (cs r : caps) :
  run arg_after_sig b s cs accept = Some r ->
  exists ws rest tail,
    s = ws ++ config_arg_delimiter ++ rest ++ tail
    /\ forallb isspace ws = true
    /\ no_newline rest
    /\ (tail = [] \/ exists t, tail = nl :: t)
    /\ r = (3, rest) :: cs.
Proof.
  unfold arg_after_sig. cbn [run]. intros H.
  apply star_atom_sound in H. destruct H as (ws & s1 & -> & Hws & H).
  apply lit_sound in H. destruct H as (s2 & -> & H). cbn [run] in H.
  change (fun (b' : bool) (s' : str) =>
            accept b' s' ((3, consumed s2 s') :: cs))
    with (fun (_ : bool) (s' : str) => Some ((3, consumed s2 s') :: cs)) in H.
  rewrite (star_atom_accepting ADot (fun s' => (3, consumed s2 s') :: cs)) in H.
  injection H as <-.
  destruct (lead_dot_split s2) as [Hr Ht].
  exists ws, (firstn (lead (atom_ok ADot) s2) s2),
    (skipn (lead (atom_ok ADot) s2) s2).
  rewrite firstn_skipn. repeat split; auto.
  rewrite consumed_skipn by apply lead_le_length. reflexivity.
Qed.

Lemma arg_after_sig_some (b : bool) (ws v : str) (cs : caps) :
  forallb isspace ws = true ->
  run arg_after_sig b (ws ++ config_arg_delimiter ++ v) cs accept <> None.
Proof.
  intros Hws. unfold arg_after_sig. cbn [run].
  apply (star_atom_reaches ASpace ws); [exact Hws|].
  apply star_atom_fallback. rewrite lit_complete. cbn [run].
  change (fun (b' : bool) (s' : str) =>
            accept b' s' ((3, consumed v s') :: cs))
    with (fun (_ : bool) (s' : str) => Some ((3, consumed v s') :: cs)).
  rewrite (star_atom_accepting ADot (fun s' => (3, consumed v s') :: cs)).
  discriminate.
Qed.

Lemma arg_sig_exact (b : bool) (s : str) (cs r : caps) :
  run arg_sig b s cs (fun b' s' cs' => run arg_after_sig b' s' cs' accept)
  = Some r ->
  exists body ws2 rest tail,
    s = "("%char :: body ++ ")"%char
          :: ws2 ++ config_arg_delimiter ++ rest ++ tail
    /\ no_newline body
    /\ forallb isspace ws2 = true
    /\ no_newline rest
    /\ (tail = [] \/ exists t, tail = nl :: t)
    /\ (forall u w v,
          ws2 ++ config_arg_delimiter ++ rest ++ tail
          = u ++ ")"%char :: w ++ config_arg_delimiter ++ v ->
          no_newline u -> forallb isspace w = true -> False)
    /\ r = (3, rest) :: (2, "("%char :: body ++ [")"%char]) :: cs.
Proof.
  unfold arg_sig. cbn [run]. intros H.
  destruct s as [|c s3]; [discriminate|].
  destruct (atom_ok (ALit "(") c) eqn:Ec; [|discriminate].
  apply Ascii.eqb_eq in Ec. subst c.
  apply star_atom_sound_longest in H.
  destruct H as (body & s4 & -> & Hb & H & Hlong).
  destruct s4 as [|c s5]; [discriminate|].
  destruct (atom_ok (ALit ")") c) eqn:Ec; [|discriminate].
  apply Ascii.eqb_eq in Ec. subst c.
  apply arg_after_sig_exact in H.
  destruct H as (ws2 & rest & tail & -> & Hw2 & Hr & Ht & ->).
  exists body, ws2, rest, tail.
  split; [reflexivity|]. split; [now apply dot_no_newline|].
  split; [exact Hw2|]. split; [exact Hr|]. split; [exact Ht|]. split.
  - intros u w v Hx Hu Hw.
    specialize (Hlong (body ++ ")"%char :: u)
                  (")"%char :: w ++ config_arg_delimiter ++ v)).
    cbv beta in Hlong.
    change (atom_ok (ALit ")") ")") with true in Hlong. cbv iota in Hlong.
    apply (arg_after_sig_some false w v
             ((2, consumed ("("%char :: body ++ ")"%char
                              :: ws2 ++ config_arg_delimiter ++ rest ++ tail)
                    (w ++ config_arg_delimiter ++ v)) :: cs) Hw).
    apply Hlong.
    + rewrite Hx, <- app_assoc. reflexivity.
    + rewrite forallb_app, Hb. simpl. now rewrite (no_newline_dot u Hu).
    + rewrite length_app. simpl. lia.
  - rewrite (paren_split body
               (ws2 ++ config_arg_delimiter ++ rest ++ tail)).
    now rewrite consumed_app.
Qed.

Lemma arg_sig_some (b : bool) (body ws2 v : str) (cs : caps) :
  no_newline body -> forallb isspace ws2 = true ->
  run arg_sig b
    ("("%char :: body ++ ")"%char :: ws2 ++ config_arg_delimiter ++ v) cs
    (fun b' s' cs' => run arg_after_sig b' s' cs' accept)
  <> None.
Proof.
  intros Hb Hw. unfold arg_sig. cbn [run].
  change (atom_ok (ALit "(") "(") with true. cbv iota.
  apply (star_atom_reaches ADot body); [now apply no_newline_dot|].
  apply star_atom_fallback.
  change (atom_ok (ALit ")") ")") with true. cbv iota.
  now apply arg_after_sig_some.
Qed.

(** What the pattern after the name group matches, exactly. *)
Lemma arg_rest_exact (b : bool) (s : str) (cs r : caps) :
  run arg_rest b s cs accept = Some r ->
  exists ws1 sig ws2 rest tail,
    s = ws1 ++ sig ++ ws2 ++ config_arg_delimiter ++ rest ++ tail
    /\ forallb isspace ws1 = true
    /\ forallb isspace ws2 = true
    /\ no_newline rest
    /\ (tail = [] \/ exists t, tail = nl :: t)
    /\ ((sig = [] /\ ws2 = [] /\ r = (3, rest) :: cs)
        \/ (exists body,
               sig = "("%char :: body ++ [")"%char] /\ no_newline body)
           /\ (forall u w v,
                 ws2 ++ config_arg_delimiter ++ rest ++ tail
                 = u ++ ")"%char :: w ++ config_arg_delimiter ++ v ->
                 no_newline u -> forallb isspace w = true -> False)
           /\ r = (3, rest) :: (2, sig) :: cs).
Proof.
  unfold arg_rest. cbn [run]. intros H.
  apply star_atom_sound in H. destruct H as (ws1 & s2 & -> & Hw1 & H).
  match type of H with
  | match ?grp with Some _ => _ | None => _ end = _ =>
      destruct grp as [x|] eqn:G
  end.
  - injection H as ->. apply arg_sig_exact in G.
    destruct G as (body & ws2 & rest & tail & -> & Hb & Hw2 & Hr & Ht
                   & Hg & ->).
    exists ws1, ("("%char :: body ++ [")"%char]), ws2, rest, tail.
    rewrite <- (paren_split body
                  (ws2 ++ config_arg_delimiter ++ rest ++ tail)).
    repeat split; auto. right. split; [now exists body|]. now split.
  - clear G. apply arg_after_sig_exact in H.
    destruct H as (ws & rest & tail & -> & Hw & Hr & Ht & ->).
    exists (ws1 ++ ws), [], [], rest, tail.
    change (atom_ok ASpace) with isspace in *.
    rewrite forallb_app, Hw1, Hw, <- app_assoc.
    repeat split; auto.
Qed.

Lemma arg_rest_some (b : bool) (ws1 sig ws2 v : str) (cs : caps) :
  forallb isspace ws1 = true -> forallb isspace ws2 = true ->
  (sig = []
   \/ exists body, sig = "("%char :: body ++ [")"%char] /\ no_newline body) ->
  run arg_rest b (ws1 ++ sig ++ ws2 ++ config_arg_delimiter ++ v) cs accept
  <> None.
Proof.
  intros Hw1 Hw2 Hs. unfold arg_rest. cbn [run].
  apply (star_atom_reaches ASpace ws1); [exact Hw1|].
  apply star_atom_fallback.
  match goal with
  | |- match ?grp with Some _ => _ | None => _ end <> None =>
      destruct grp as [x|] eqn:G; [discriminate|]
  end.
  destruct Hs as [->|(body & -> & Hb)].
  - now apply arg_after_sig_some.
  - exfalso. revert G.
    rewrite <- (paren_split body (ws2 ++ config_arg_delimiter ++ v)).
    now apply arg_sig_some.
Qed.

(** Wherever a field shape opens, the field pattern matches. *)
Lemma field_shape_matches (b : bool) (s : str) :
  field_shape s -> match_here _compile_arg b s <> None.
Proof.
  intros (name & ws1 & sig & ws2 & rest & -> & Hn & Hw1 & Hw2 & Hs).
  unfold match_here.
  change _compile_arg with (Seq (Grp 1 (Star AWord)) arg_rest).
  cbn [run].
  apply (star_atom_reaches AWord name); [exact Hn|].
  apply star_atom_fallback. now apply arg_rest_some.
Qed.

(** What a match of the field pattern looks like, exactly. *)
Lemma match_arg_exact (b : bool) (s : str) (cs : caps) :
  match_here _compile_arg b s = Some cs ->
  exists name ws1 sig ws2 rest tail,
    s = name ++ ws1 ++ sig ++ ws2 ++ config_arg_delimiter ++ rest ++ tail
    /\ forallb isword name = true
    /\ forallb isspace ws1 = true
    /\ forallb isspace ws2 = true
    /\ no_newline rest
    /\ (tail = [] \/ exists t, tail = nl :: t)
    /\ ((sig = [] /\ ws2 = [])
        \/ (exists body,
               sig = "("%char :: body ++ [")"%char] /\ no_newline body)
           /\ (forall u w v,
                 ws2 ++ config_arg_delimiter ++ rest ++ tail
                 = u ++ ")"%char :: w ++ config_arg_delimiter ++ v ->
                 no_newline u -> forallb isspace w = true -> False))
    /\ group_str cs 1 = name /\ group_str cs 2 = sig /\ group_str cs 3 = rest.
Proof.
  unfold match_here.
  change _compile_arg with (Seq (Grp 1 (Star AWord)) arg_rest).
  cbn [run]. intros H.
  apply star_atom_sound in H. destruct H as (name & s1 & -> & Hn & H).
  rewrite consumed_app in H. apply arg_rest_exact in H.
  destruct H as (ws1 & sig & ws2 & rest & tail & -> & Hw1 & Hw2 & Hr & Ht
                 & Hs).
  exists name, ws1, sig, ws2, rest, tail.
  destruct Hs as [(-> & -> & ->)|(Hb & Hg & ->)].
  - repeat split; auto.
  - repeat split; auto.
Qed.

(** The search stops at the first position where the pattern matches. *)
Lemma search_from_leftmost (r : regex) (s : str) :
  forall bol cs,
    search_from r bol s = Some cs ->
    exists pre s',
      s = pre ++ s' /\ match_here r (adv bol pre) s' = Some cs
      /\ forall a b, pre = a ++ b -> b <> [] ->
                     match_here r (adv bol a) (b ++ s') = None.
Proof.
  induction s as [|c s IH]; intros bol cs H; simpl in H.
  - destruct (match_here r bol []) eqn:E; [|discriminate].
    injection H as ->. exists [], []. repeat split; auto.
    intros a b Hab Hb. destruct a; destruct b; try discriminate.
    contradiction.
  - destruct (match_here r bol (c :: s)) eqn:E.
    + injection H as ->. exists [], (c :: s). repeat split; auto.
      intros a b Hab Hb. destruct a; destruct b; try discriminate.
      contradiction.
    + destruct (IH _ _ H) as (pre & s' & -> & Hm & Hleft).
      exists (c :: pre), s'. split; [reflexivity|].
      split; [simpl; now rewrite adv_false in Hm|].
      intros [|d a] b Hab Hb.
      * simpl in Hab. subst b. exact E.
      * injection Hab as <- Hab. simpl. rewrite <- (adv_false a).
        now apply Hleft.
Qed.

(** What [_get_arg] returns, exactly: the parts of the leftmost field shape
    of the line, with the longest signature and the rest of the line. *)
Lemma _get_arg_exact (line name sig rest : str) :
  _get_arg line = Some (name, sig, rest) ->
  exists pre ws1 ws2 tail,
    line = pre ++ name ++ ws1 ++ sig ++ ws2 ++ config_arg_delimiter
               ++ rest ++ tail
    /\ forallb isword name = true
    /\ forallb isspace ws1 = true
    /\ forallb isspace ws2 = true
    /\ no_newline rest
    /\ (tail = [] \/ exists t, tail = nl :: t)
    /\ ((sig = [] /\ ws2 = [])
        \/ (exists body,
               sig = "("%char :: body ++ [")"%char] /\ no_newline body)
           /\ (forall u w v,
                 ws2 ++ config_arg_delimiter ++ rest ++ tail
                 = u ++ ")"%char :: w ++ config_arg_delimiter ++ v ->
                 no_newline u -> forallb isspace w = true -> False))
    /\ (forall a b,
          pre = a ++ b -> b <> [] ->
          ~ field_shape (b ++ name ++ ws1 ++ sig ++ ws2
                           ++ config_arg_delimiter ++ rest ++ tail)).
Proof.
  unfold _get_arg.
  destruct (search _compile_arg line) as [cs|] eqn:E; [|discriminate].
  intros H. injection H as H1 H2 H3.
  apply search_from_leftmost in E.
  destruct E as (pre & s' & -> & E & Hleft).
  apply match_arg_exact in E.
  destruct E as (name' & ws1 & sig' & ws2 & rest' & tail & -> & Hn & Hw1
                 & Hw2 & Hr & Ht & Hsig & G1 & G2 & G3).
  exists pre, ws1, ws2, tail.
  rewrite <- H1, <- H2, <- H3, G1, G2, G3.
  repeat split; auto.
  intros a b Hab Hb Hshape.
  apply (field_shape_matches (adv true a)) in Hshape.
  apply Hshape. now apply Hleft.
Qed.

Lemma _get_arg_in_range (lines : list str) (n : nat) :
  _get_arg (item lines n) <> None -> n < length lines.
Proof.
  intros H. destruct (Nat.lt_ge_cases n (length lines)) as [Hlt|Hge];
    [exact Hlt|].
  exfalso. apply H. unfold item. now rewrite (nth_overflow lines [] Hge).
Qed.

(* ================================================================= *)
(** ** Field entries *)

(** C5, as the code has it.  A field's description is the field line's own
    text (what follows the delimiter of the field line, up to the end of the
    line, as [_get_arg] returns it) followed by every line from the one after
    the field line to the final cursor, verbatim and joined by line breaks,
    the empty lines among them included: the cursor moves one line at a time
    for as long as the next non-empty line after it is indented, so every
    appended line is empty or indented, the last one is indented, and the
    loop stops at a cursor whose next non-empty line is not indented or
    missing. *)
Theorem continuation_lines_appended lines self e self' :
  _parse_arglist lines self = Some (Some e, self') ->
  exists first,
    _linenum self <= _linenum self'
    /\ description e
       = join [nl]
           (first :: slice lines (_linenum self + 1) (_linenum self' + 1))
    /\ (forall j, _linenum self < j <= _linenum self' ->
                  item lines j = [] \/ _is_indent (item lines j) = true)
    /\ (_linenum self < _linenum self' ->
        _is_indent (item lines (_linenum self')) = true)
    /\ _is_indent (_get_next_line lines (_linenum self')) = false
    /\ _linenum self < length lines
    /\ _get_arg (item lines (_linenum self))
       = Some (field e, signature e, first)
    /\ no_newline first
    /\ exists pre ws1 ws2 tail,
         item lines (_linenum self)
         = pre ++ field e ++ ws1 ++ signature e ++ ws2
               ++ config_arg_delimiter ++ first ++ tail
         /\ (tail = [] \/ exists t, tail = nl :: t).
Proof.
  rewrite _parse_arglist_cursor. unfold parse_arglist_cursor.
  destruct (_get_arg (item lines (_linenum self)))
    as [[[name sig] rest]|] eqn:G; [|discriminate].
  destruct (arglist_cursor _ _ _ _) as [[d n']|] eqn:E; [|discriminate].
  intros H. injection H as <- <-.
  cbn [_linenum set_linenum description field signature].
  apply arglist_cursor_spec in E.
  destruct E as (Hle & -> & Hstop & Hall & Hlast).
  assert (Hin : _linenum self < length lines)
    by (apply _get_arg_in_range; rewrite G; discriminate).
  apply _get_arg_exact in G.
  destruct G as (pre & ws1 & ws2 & tail & Hline & _ & _ & _ & Hr & Ht & _).
  exists rest. repeat split; auto; [now apply Hlast|].
  now exists pre, ws1, ws2, tail.
Qed.

Lemma continuation_lines_appended_witness :
  let lines := [py "x: a"; []; py "    b"; py "c"] in
  let e := mkField (py "x") [] (join [nl] [py "a"; []; py "    b"]) in
  _parse_arglist lines (__init__ [])
  = Some (Some e, set_linenum 2 (__init__ []))
  /\ exists first,
       description e = join [nl] (first :: slice lines 1 3)
       /\ _get_arg (py "x: a") = Some (py "x", [], first).
Proof.
  cbv zeta. split; [reflexivity|].
  destruct (continuation_lines_appended
              [py "x: a"; []; py "    b"; py "c"] (__init__ [])
              (mkField (py "x") [] (join [nl] [py "a"; []; py "    b"]))
              (set_linenum 2 (__init__ [])) eq_refl)
    as (first & _ & H & _ & _ & _ & _ & G & _).
  exists first. split; [exact H|exact G].
Defined.

(** C5, counterexample.  The empty line between a field line and its indented
    continuation is appended to the description. *)
Lemma blank_line_is_appended :
  exists e self',
    _parse_arglist [py "x: a"; []; py "    b"] (__init__ [])
    = Some (Some e, self')
    /\ _linenum self' = 2
    /\ split nl (description e) = [py "a"; []; py "    b"].
Proof.
  eexists _, _. split; [reflexivity|]. split; reflexivity.
Qed.

(** C6, as the code has it.  The field line is searched for the leftmost
    position where a field shape opens: a run of word characters, possibly
    empty, then whitespace, then optionally a signature, then whitespace and
    the delimiter.  The name of the entry is that run of word characters.
    The signature is a piece of the line that opens with a parenthesis right
    after the name and its whitespace and closes with one, the longest such
    piece after which whitespace and the delimiter follow in the same line;
    it is empty when the delimiter follows the name and its whitespace
    directly, whatever parentheses the line holds elsewhere.  The first line
    of the description is what follows the delimiter up to the end of the
    line. *)
Theorem field_entry_shape lines self e self' :
  _parse_arglist lines self = Some (Some e, self') ->
  exists pre ws1 ws2 rest tail,
    item lines (_linenum self)
    = pre ++ field e ++ ws1 ++ signature e ++ ws2 ++ config_arg_delimiter
          ++ rest ++ tail
    /\ forallb isword (field e) = true
    /\ forallb isspace ws1 = true
    /\ forallb isspace ws2 = true
    /\ (signature e = []
        \/ exists body, signature e = "("%char :: body ++ [")"%char])
    /\ _linenum self < length lines
    /\ (signature e = [] -> ws2 = [])
    /\ (signature e <> [] ->
        (exists body,
            signature e = "("%char :: body ++ [")"%char] /\ no_newline body)
        /\ forall u w v,
             ws2 ++ config_arg_delimiter ++ rest ++ tail
             = u ++ ")"%char :: w ++ config_arg_delimiter ++ v ->
             no_newline u -> forallb isspace w = true -> False)
    /\ (forall a b,
          pre = a ++ b -> b <> [] ->
          ~ field_shape (b ++ field e ++ ws1 ++ signature e ++ ws2
                           ++ config_arg_delimiter ++ rest ++ tail))
    /\ no_newline rest
    /\ (tail = [] \/ exists t, tail = nl :: t)
    /\ description e
       = join [nl]
           (rest :: slice lines (_linenum self + 1) (_linenum self' + 1)).
Proof.
  rewrite _parse_arglist_cursor. unfold parse_arglist_cursor.
  destruct (_get_arg (item lines (_linenum self)))
    as [[[name sig] rest]|] eqn:G; [|discriminate].
  destruct (arglist_cursor _ _ _ _) as [[d n']|] eqn:E; [|discriminate].
  intros H. injection H as <- <-.
  cbn [_linenum set_linenum description field signature].
  apply arglist_cursor_spec in E. destruct E as (_ & -> & _).
  assert (Hin : _linenum self < length lines)
    by (apply _get_arg_in_range; rewrite G; discriminate).
  apply _get_arg_exact in G.
  destruct G as (pre & ws1 & ws2 & tail & Hline & Hn & Hw1 & Hw2 & Hr & Ht
                 & Hsig & Hleft).
  exists pre, ws1, ws2, rest, tail.
  split; [exact Hline|]. split; [exact Hn|]. split; [exact Hw1|].
  split; [exact Hw2|]. split.
  { destruct Hsig as [(-> & _)|((body & -> & _) & _)];
      [now left|right; now exists body]. }
  split; [exact Hin|]. split.
  { intros Hs. destruct Hsig as [(_ & Hw)|((body & -> & _) & _)];
      [exact Hw|discriminate Hs]. }
  split.
  { intros Hs. destruct Hsig as [(-> & _)|Hsig]; [now contradiction Hs|].
    exact Hsig. }
  repeat split; auto.
Qed.

Lemma field_entry_shape_witness :
  let lines := [py "  x (int): the value"] in
  let e := mkField (py "x") (py "(int)") (py "the value") in
  _parse_arglist lines (__init__ []) = Some (Some e, __init__ [])
  /\ exists pre ws1 ws2 rest tail,
       py "  x (int): the value"
       = pre ++ py "x" ++ ws1 ++ py "(int)" ++ ws2 ++ config_arg_delimiter
             ++ rest ++ tail
       /\ py "the value" = join [nl] [rest].
Proof.
  cbv zeta. split; [reflexivity|].
  destruct (field_entry_shape [py "  x (int): the value"] (__init__ [])
              (mkField (py "x") (py "(int)") (py "the value"))
              (__init__ []) eq_refl)
    as (pre & ws1 & ws2 & rest & tail & H & _ & _ & _ & _ & _ & _ & _ & _
        & _ & _ & D).
  exists pre, ws1, ws2, rest, tail. split; [exact H|exact D].
Defined.

(** C6, counterexample.  A line that opens with the delimiter yields a field
    entry whose name is the empty string; and a line with a parenthesized
    annotation that is not followed by the delimiter yields an entry with an
    empty signature, named after the word in front of the delimiter. *)
Lemma field_name_can_be_empty :
  (exists e self',
      _parse_arglist [py ": foo"] (__init__ []) = Some (Some e, self')
      /\ field e = [] /\ signature e = [] /\ description e = py "foo")
  /\ (exists e self',
         _parse_arglist [py "x (int) foo: bar"] (__init__ [])
         = Some (Some e, self')
         /\ field e = py "foo" /\ signature e = []
         /\ description e = py "bar").
Proof.
  split; eexists _, _; (split; [reflexivity|]); repeat split.
Qed.
